(** * book2anki: a shallow embedding of [pdf2words.py] and [create_anki.py]

    Python [str] values are modelled as Rocq [string]s whose characters are
    the code points below 256 (the Latin-1 block); the Unicode character
    classes used by the program ([str.isspace], [str.isdigit],
    [str.isupper], [str.islower], [str.lower], and the regular expression
    classes [\s] and [\w]) are tabulated for that block.  Sets of words are
    [gset string], the working directory is a [gmap] from file names to file
    contents, and a [dict] is an association list in insertion order. *)

From Stdlib Require Import ZArith NArith Ascii String List Bool Lia.
From stdpp Require Import base gmap sets list strings.

(* [set_solver] clears hypotheses that may be gone already. *)
#[local] Set Warnings "-clear-no-such-hyp".

Local Open Scope N_scope.

(** ** Characters *)

Definition code (c : ascii) : N := N_of_ascii c.

Definition in_range (lo hi : N) (c : ascii) : bool :=
  (lo <=? code c) && (code c <=? hi).

(** [str.isspace] on one character, which is also the class [\s]. *)
Definition isspace (c : ascii) : bool :=
  in_range 9 13 c || in_range 28 32 c || (code c =? 133) || (code c =? 160).

(** [str.isdigit] on one character. *)
Definition isdigit (c : ascii) : bool :=
  in_range 48 57 c || in_range 178 179 c || (code c =? 185).

(** [str.isupper] on one character (no titlecase letter lies below 256). *)
Definition isupper (c : ascii) : bool :=
  in_range 65 90 c || in_range 192 214 c || in_range 216 222 c.

(** [str.islower] on one character. *)
Definition islower (c : ascii) : bool :=
  in_range 97 122 c || (code c =? 170) || (code c =? 181) || (code c =? 186)
  || in_range 223 246 c || in_range 248 255 c.

(** The class [\w] of a [str] pattern: alphanumerics and the underscore. *)
Definition is_word_char (c : ascii) : bool :=
  in_range 48 57 c || in_range 65 90 c || (code c =? 95) || in_range 97 122 c
  || (code c =? 170) || in_range 178 179 c || (code c =? 181)
  || in_range 185 186 c || in_range 188 190 c || in_range 192 214 c
  || in_range 216 246 c || in_range 248 255 c.

(** The class [[a-zA-Z]]. *)
Definition is_ascii_letter (c : ascii) : bool :=
  in_range 97 122 c || in_range 65 90 c.

(** [str.lower] on one character. *)
Definition lower_char (c : ascii) : ascii :=
  if isupper c then ascii_of_N (code c + 32) else c.

Definition LF : ascii := ascii_of_N 10.
Definition CR : ascii := ascii_of_N 13.
Definition SPACE : ascii := ascii_of_N 32.
Definition DQUOTE : ascii := ascii_of_N 34.
Definition COMMA : ascii := ascii_of_N 44.

Definition is_LF (c : ascii) : bool := code c =? 10.
Definition is_CR (c : ascii) : bool := code c =? 13.

(** ** Python string methods *)

Fixpoint str_map (f : ascii → ascii) (s : string) : string :=
  match s with
  | EmptyString => EmptyString
  | String c s' => String (f c) (str_map f s')
  end.

Fixpoint str_filter (p : ascii → bool) (s : string) : string :=
  match s with
  | EmptyString => EmptyString
  | String c s' => if p c then String c (str_filter p s') else str_filter p s'
  end.

Fixpoint str_forallb (p : ascii → bool) (s : string) : bool :=
  match s with
  | EmptyString => true
  | String c s' => p c && str_forallb p s'
  end.

Definition str_is_empty (s : string) : bool :=
  match s with EmptyString => true | String _ _ => false end.

(** [len(s)] *)
Definition len (s : string) : N := N.of_nat (String.length s).

(** [s.lower()] *)
Definition lower (s : string) : string := str_map lower_char s.

(** [s.lstrip()], [s.rstrip()] and [s.strip()] with no argument. *)
Fixpoint lstrip (s : string) : string :=
  match s with
  | EmptyString => EmptyString
  | String c s' => if isspace c then lstrip s' else s
  end.

Fixpoint rstrip (s : string) : string :=
  match s with
  | EmptyString => EmptyString
  | String c s' =>
      let r := rstrip s' in
      if str_is_empty r && isspace c then EmptyString else String c r
  end.

Definition strip (s : string) : string := rstrip (lstrip s).

(** [s.split()] with no argument: the maximal runs of non-space characters. *)
Fixpoint str_split (s : string) : list string :=
  match s with
  | EmptyString => []
  | String c s' =>
      if isspace c then str_split s'
      else match s' with
           | EmptyString => [String c EmptyString]
           | String c' _ =>
               if isspace c' then String c EmptyString :: str_split s'
               else match str_split s' with
                    | w :: ws => String c w :: ws
                    | [] => [String c EmptyString]
                    end
           end
  end.

(** [s.replace(old, new)] for one-character [old] and [new]. *)
Definition replace_char (old new : ascii) (s : string) : string :=
  str_map (fun c => if Ascii.eqb c old then new else c) s.

(** [s.istitle()]: uppercase characters may only follow uncased characters
    and lowercase characters only cased ones, and there is a cased
    character. *)
Fixpoint istitle_go (cased previous_is_cased : bool) (s : string) : bool :=
  match s with
  | EmptyString => cased
  | String c s' =>
      if isupper c then
        if previous_is_cased then false else istitle_go true true s'
      else if islower c then
        if previous_is_cased then istitle_go true true s' else false
      else istitle_go cased false s'
  end.

Definition istitle (s : string) : bool := istitle_go false false s.

(** [s[0]] and [s[-1]]; [None] stands for [IndexError]. *)
Definition first_char (s : string) : option ascii :=
  match s with
  | EmptyString => None
  | String c _ => Some c
  end.

Fixpoint last_char (s : string) : option ascii :=
  match s with
  | EmptyString => None
  | String c EmptyString => Some c
  | String _ s' => last_char s'
  end.

(** ** The regular expressions of the program *)

(** [re.split(r"[.!?]", text)]: every terminator separates two pieces, empty
    pieces included. *)
Definition is_terminator (c : ascii) : bool :=
  (code c =? 46) || (code c =? 33) || (code c =? 63).

Fixpoint re_split_terminators (s : string) : list string :=
  match s with
  | EmptyString => [EmptyString]
  | String c s' =>
      if is_terminator c then EmptyString :: re_split_terminators s'
      else match re_split_terminators s' with
           | p :: ps => String c p :: ps
           | [] => [String c EmptyString]
           end
  end.

(** [re.sub(r'\s+', ' ', s)]: every maximal run of spaces becomes one space. *)
Fixpoint re_sub_spaces_go (in_run : bool) (s : string) : string :=
  match s with
  | EmptyString => EmptyString
  | String c s' =>
      if isspace c then
        if in_run then re_sub_spaces_go true s'
        else String SPACE (re_sub_spaces_go true s')
      else String c (re_sub_spaces_go false s')
  end.

Definition re_sub_spaces (s : string) : string := re_sub_spaces_go false s.

(** [re.sub(r"[^\w\s]", "", s)] *)
Definition re_sub_non_word (s : string) : string :=
  str_filter (fun c => is_word_char c || isspace c) s.

(** [re.search(r"(.)\1{3,}", s)] as a truth value: some character other
    than a line feed is followed by three copies of itself. *)
Definition starts_with_3 (a : ascii) (s : string) : bool :=
  match s with
  | String b (String c (String d _)) =>
      Ascii.eqb a b && Ascii.eqb a c && Ascii.eqb a d
  | _ => false
  end.

Fixpoint re_search_run4 (s : string) : bool :=
  match s with
  | EmptyString => false
  | String a s' => (negb (is_LF a) && starts_with_3 a s') || re_search_run4 s'
  end.

(** [re.match(r"^[a-zA-Z]+$", s)] as a truth value: one or more ASCII
    letters up to the end of the string, or up to a final line feed. *)
Fixpoint letters_to_end (s : string) : bool :=
  match s with
  | EmptyString => true
  | String c EmptyString => is_ascii_letter c || is_LF c
  | String c s' => is_ascii_letter c && letters_to_end s'
  end.

Definition re_match_letters (s : string) : bool :=
  match s with
  | EmptyString => false
  | String c s' => is_ascii_letter c && letters_to_end s'
  end.

(** ** Python values, exceptions and dictionaries *)

(** The values an [and]-chain of the program can evaluate to. *)
Inductive pyval : Type :=
  | PyBool (b : bool)
  | PyNone
  | PyMatch.

Definition truthy (v : pyval) : bool :=
  match v with
  | PyBool b => b
  | PyNone => false
  | PyMatch => true
  end.

Inductive exn : Type :=
  | IndexError
  | CsvError
  | ValueError
  | FileNotFoundError.

Inductive outcome (A : Type) : Type :=
  | Return (a : A)
  | Raise (e : exn).
Arguments Return {A} a.
Arguments Raise {A} e.

Definition bind {A B : Type} (m : outcome A) (k : A → outcome B) : outcome B :=
  match m with
  | Return a => k a
  | Raise e => Raise e
  end.

Notation "'let!' x ':=' m 'in' k" := (bind m (fun x => k))
  (at level 10, x name, m at level 100, k at level 200).

(** [a and b]: [b] is evaluated only when [a] is truthy; otherwise the
    value of [a] itself is the result. *)
Definition py_and (a b : outcome pyval) : outcome pyval :=
  match a with
  | Return v => if truthy v then b else Return v
  | Raise e => Raise e
  end.

Infix "<&>" := py_and (at level 41, right associativity).

(** [not a] *)
Definition py_not (a : outcome pyval) : outcome pyval :=
  let! v := a in Return (PyBool (negb (truthy v))).

(** A [dict] with [str] keys, in insertion order. *)
Fixpoint dict_get {V : Type} (d : list (string * V)) (k : string) : option V :=
  match d with
  | [] => None
  | (k', v) :: d' => if String.eqb k k' then Some v else dict_get d' k
  end.

Definition dict_contains {V : Type} (d : list (string * V)) (k : string) : bool :=
  match dict_get d k with Some _ => true | None => false end.

(** [d[k] = v]: an existing key keeps its position. *)
Fixpoint dict_set {V : Type} (d : list (string * V)) (k : string) (v : V)
  : list (string * V) :=
  match d with
  | [] => [(k, v)]
  | (k', v') :: d' =>
      if String.eqb k k' then (k, v) :: d' else (k', v') :: dict_set d' k v
  end.

Definition dict_keys {V : Type} (d : list (string * V)) : list string :=
  map fst d.

(** ** [pdf2words.py]: page selection of the OCR extractor *)

(** A Python [range(start, stop, step)]. *)
Record py_range : Type := mk_range { r_start : Z; r_stop : Z; r_step : Z }.

Definition range2 (a b : Z) : py_range := mk_range a b 1.

(** [x in r] for an integer [x]. *)
Definition range_contains (x : Z) (r : py_range) : bool :=
  if (0 <? r_step r)%Z then
    (r_start r <=? x)%Z && (x <? r_stop r)%Z
    && ((x - r_start r) mod r_step r =? 0)%Z
  else if (r_step r <? 0)%Z then
    (r_stop r <? x)%Z && (x <=? r_start r)%Z
    && ((r_start r - x) mod (- r_step r) =? 0)%Z
  else false.

Section OCR.
(** The page images of a document and the OCR pipeline applied to one
  page ([preprocess_image] followed by [pytesseract.image_to_string])
  are external to the program. *)
Context {image : Type}.
Variable ocr_page : image → string.
Variable PAGES_RANGES : list py_range.

(** The inner [for PAGE_RANGE in PAGES_RANGES] loop over the flag [skip]. *)
Definition skip_flag (cnt : Z) : bool :=
let skip := false in
if negb (bool_decide (PAGES_RANGES = [])) then
  fold_left
    (fun skip PAGE_RANGE =>
       if negb (range_contains cnt PAGE_RANGE) then true else skip)
    PAGES_RANGES skip
else skip.

(** The loop over the images; [pages] records the page numbers for which
  "Extracting text from page" is printed. *)
Fixpoint pages_loop (cnt : Z) (pages : list Z) (text : string)
  (images : list image) : list Z * string :=
match images with
| [] => (pages, text)
| img :: rest =>
    let cnt := (cnt + 1)%Z in
    if skip_flag cnt then pages_loop cnt pages text rest
    else pages_loop cnt (pages ++ [cnt]) (text +:+ ocr_page img) rest
end.

Definition extract_text_with_pytesseract (images : list image)
: list Z * string :=
pages_loop 0%Z [] "" images.
End OCR.

(** ** [pdf2words.py]: the word extractor *)

Definition clean_sentence (sentence : string) : string :=
  let sentence := re_sub_spaces sentence in
  strip (replace_char CR SPACE (replace_char LF SPACE sentence)).

Definition clean_word (word : string) : string := re_sub_non_word word.

Definition number_words : gset string :=
  list_to_set
    ["zero"; "one"; "two"; "three"; "four"; "five"; "six"; "seven"; "eight";
     "nine"; "ten"; "eleven"; "twelve"; "thirteen"; "fourteen"; "fifteen";
     "sixteen"; "seventeen"; "eighteen"; "nineteen"; "twenty"].

(** [word[0].isdigit()] and [word[-1].isdigit()] *)
Definition isdigit_at (c : option ascii) : outcome pyval :=
  match c with
  | Some c => Return (PyBool (isdigit c))
  | None => Raise IndexError
  end.

Definition py_bool (b : bool) : outcome pyval := Return (PyBool b).

(** The value of a call that yields a match object or [None]. *)
Definition py_match (b : bool) : outcome pyval :=
  Return (if b then PyMatch else PyNone).

Section Words.
(** The reference dictionary [set(words.words())] is downloaded at start
  up; it is a parameter here. *)
Variable english_words : gset string.

Definition is_valid_word (word : string) : outcome pyval :=
py_bool (4 <=? len word)
<&> py_not (isdigit_at (first_char word))
<&> py_not (isdigit_at (last_char word))
<&> py_bool (bool_decide (word ∉ number_words))
<&> py_not (py_match (re_search_run4 word))
<&> py_match (re_match_letters word)
<&> py_not (py_bool (istitle word))
<&> py_bool (bool_decide (word ∈ english_words)).

(** The body of [for word in cleaned_sentence.split()]. *)
Definition add_word (cleaned_sentence : string)
  (unique_words : list (string * string)) (word : string)
: outcome (list (string * string)) :=
let word_cleaned := clean_word word in
let! v := is_valid_word word_cleaned in
if truthy v then
  if negb (dict_contains unique_words word_cleaned) then
    Return (dict_set unique_words (lower word_cleaned) cleaned_sentence)
  else Return unique_words
else Return unique_words.

Fixpoint words_loop (cleaned_sentence : string)
  (unique_words : list (string * string)) (ws : list string)
: outcome (list (string * string)) :=
match ws with
| [] => Return unique_words
| word :: rest =>
    let! unique_words := add_word cleaned_sentence unique_words word in
    words_loop cleaned_sentence unique_words rest
end.

Fixpoint sentences_loop (unique_words : list (string * string))
  (sentences : list string) : outcome (list (string * string)) :=
match sentences with
| [] => Return unique_words
| sentence :: rest =>
    let cleaned_sentence := clean_sentence sentence in
    let! unique_words :=
      words_loop cleaned_sentence unique_words (str_split cleaned_sentence) in
    sentences_loop unique_words rest
end.

(** The result maps a word to the value stored under ["sentence"]. *)
Definition extract_unique_words (text : string)
: outcome (list (string * string)) :=
sentences_loop [] (re_split_terminators text).
End Words.

(** ** Text files and paths *)

(** Reading a text file opened with the default [newline=None]: every
    ["\r\n"] and every lone ["\r"] is delivered as ["\n"]. *)
Fixpoint universal_newlines_go (after_cr : bool) (s : string) : string :=
  match s with
  | EmptyString => EmptyString
  | String c s' =>
      if is_CR c then String LF (universal_newlines_go true s')
      else if is_LF c then
        if after_cr then universal_newlines_go false s'
        else String LF (universal_newlines_go false s')
      else String c (universal_newlines_go false s')
  end.

Definition universal_newlines (s : string) : string :=
  universal_newlines_go false s.

Definition starts_with_LF (s : string) : bool :=
  match s with
  | String c _ => is_LF c
  | EmptyString => false
  end.

(** Does the line end after the character [c], which is followed by [s']?
    When the file was opened with [newline=""] a line ends after ["\n"],
    ["\r\n"] or a lone ["\r"], and the terminators are kept as they are. *)
Definition line_ends (c : ascii) (s' : string) : bool :=
  is_LF c || (is_CR c && negb (starts_with_LF s')).

(** The lines a file object iterates over, terminators included. *)
Fixpoint lines_keepends (s : string) : list string :=
  match s with
  | EmptyString => []
  | String c s' =>
      if line_ends c s' then String c EmptyString :: lines_keepends s'
      else match lines_keepends s' with
           | l :: ls => String c l :: ls
           | [] => [String c EmptyString]
           end
  end.

(** [for line in file] and [file.readlines()] for [open(path, "r")]. *)
Definition text_lines (content : string) : list string :=
  lines_keepends (universal_newlines content).

(** [for line in file] for [open(path, "r", newline="")]. *)
Definition raw_lines (content : string) : list string :=
  lines_keepends content.

Fixpoint str_concat (l : list string) : string :=
  match l with
  | [] => EmptyString
  | s :: l' => s +:+ str_concat l'
  end.

(** The index just after the last character satisfying [p], or [0]; this
    is [s.rfind(ch) + 1]. *)
Fixpoint rfind_succ (p : ascii → bool) (s : string) : nat :=
  match s with
  | EmptyString => 0%nat
  | String c s' =>
      match rfind_succ p s' with
      | O => if p c then 1%nat else 0%nat
      | S n => S (S n)
      end
  end.

Fixpoint str_drop (n : nat) (s : string) : string :=
  match n, s with
  | O, _ => s
  | S n', String _ s' => str_drop n' s'
  | S _, EmptyString => EmptyString
  end.

Fixpoint str_take (n : nat) (s : string) : string :=
  match n, s with
  | O, _ => EmptyString
  | S n', String c s' => String c (str_take n' s')
  | S _, EmptyString => EmptyString
  end.

Definition is_slash (c : ascii) : bool := code c =? 47.
Definition is_dot (c : ascii) : bool := code c =? 46.

(** [os.path.basename(p)] on POSIX. *)
Definition basename (p : string) : string :=
  str_drop (rfind_succ is_slash p) p.

(** [p.split("/")], empty pieces included. *)
Fixpoint split_slash (s : string) : list string :=
  match s with
  | EmptyString => [EmptyString]
  | String c s' =>
      if is_slash c then EmptyString :: split_slash s'
      else match split_slash s' with
           | p :: ps => String c p :: ps
           | [] => [String c EmptyString]
           end
  end.

(** The pieces [pathlib] keeps as parts of a path: not the empty ones, which
    doubled and trailing slashes give, and not ["."]. *)
Definition is_path_part (x : string) : bool :=
  negb (str_is_empty x) && negb (String.eqb x ".").

(** [Path(p).name] on POSIX: the last part of the path, or [""] when the
    path has none (as for ["."] and ["/"]).  It differs from
    [os.path.basename(p)] on a path that ends with a slash or with
    ["/."]. *)
Definition path_name (p : string) : string :=
  default EmptyString (last (filter (λ x, is_path_part x = true) (split_slash p))).

(** [os.path.splitext(p)[0]] on POSIX: the extension starts at the last dot
    of the last component, unless only dots precede it there. *)
Definition splitext_root (p : string) : string :=
  let sep_succ := rfind_succ is_slash p in
  let dot_succ := rfind_succ is_dot p in
  if (sep_succ <? dot_succ)%nat then
    let dot_index := (dot_succ - 1)%nat in
    let leading := str_take (dot_index - sep_succ) (str_drop sep_succ p) in
    if str_forallb is_dot leading then p else str_take dot_index p
  else p.

Fixpoint ends_with (suffix s : string) : bool :=
  String.eqb s suffix
  || match s with
     | EmptyString => false
     | String _ s' => ends_with suffix s'
     end.

(** [sorted(...)] on strings, which Python orders by code points. *)
Fixpoint insert_sorted (x : string) (l : list string) : list string :=
  match l with
  | [] => [x]
  | y :: l' => if String.leb x y then x :: l else y :: insert_sorted x l'
  end.

Definition sorted (l : list string) : list string :=
  foldr insert_sorted [] l.

(** ** The [csv] module, default dialect *)

(** The reader is the state machine of CPython's [_csv] module for the
    ["excel"] dialect: the comma as delimiter, the double quote as quote
    character, doubled quotes, no escape character, not strict.  The states
    that need an escape character are left out. *)
Inductive ParserState : Type :=
  | START_RECORD
  | START_FIELD
  | IN_FIELD
  | IN_QUOTED_FIELD
  | QUOTE_IN_QUOTED_FIELD
  | EAT_CRNL.

Record ReaderObj : Type := mkReader {
  state : ParserState;
  field : string;
  fields : list string
}.

(** [csv.field_size_limit()] *)
Definition field_limit : N := 131072.

Definition set_state (st : ParserState) (self : ReaderObj) : ReaderObj :=
  mkReader st (field self) (fields self).

Definition parse_reset : ReaderObj := mkReader START_RECORD "" [].

Definition parse_save_field (self : ReaderObj) : ReaderObj :=
  mkReader (state self) "" (fields self ++ [field self]).

Definition parse_add_char (self : ReaderObj) (c : ascii) : outcome ReaderObj :=
  if field_limit <=? len (field self) then Raise CsvError
  else Return (mkReader (state self) (field self +:+ String c "") (fields self)).

Definition is_newline (c : ascii) : bool := is_LF c || is_CR c.
Definition is_quotechar (c : ascii) : bool := code c =? 34.
Definition is_delimiter (c : ascii) : bool := code c =? 44.

(** The case [START_FIELD], which [START_RECORD] falls through to. *)
Definition process_start_field (self : ReaderObj) (c : option ascii)
  : outcome ReaderObj :=
  match c with
  | None => Return (set_state START_RECORD (parse_save_field self))
  | Some ch =>
      if is_newline ch then Return (set_state EAT_CRNL (parse_save_field self))
      else if is_quotechar ch then Return (set_state IN_QUOTED_FIELD self)
      else if is_delimiter ch then Return (parse_save_field self)
      else let! self := parse_add_char self ch in
           Return (set_state IN_FIELD self)
  end.

(** [parse_process_char]; [None] is the end-of-line mark fed after every
    line. *)
Definition parse_process_char (self : ReaderObj) (c : option ascii)
  : outcome ReaderObj :=
  match state self with
  | START_RECORD =>
      match c with
      | None => Return self
      | Some ch =>
          if is_newline ch then Return (set_state EAT_CRNL self)
          else process_start_field (set_state START_FIELD self) c
      end
  | START_FIELD => process_start_field self c
  | IN_FIELD =>
      match c with
      | None => Return (set_state START_RECORD (parse_save_field self))
      | Some ch =>
          if is_newline ch then
            Return (set_state EAT_CRNL (parse_save_field self))
          else if is_delimiter ch then
            Return (set_state START_FIELD (parse_save_field self))
          else parse_add_char self ch
      end
  | IN_QUOTED_FIELD =>
      match c with
      | None => Return self
      | Some ch =>
          if is_quotechar ch then Return (set_state QUOTE_IN_QUOTED_FIELD self)
          else parse_add_char self ch
      end
  | QUOTE_IN_QUOTED_FIELD =>
      match c with
      | None => Return (set_state START_RECORD (parse_save_field self))
      | Some ch =>
          if is_quotechar ch then
            let! self := parse_add_char self ch in
            Return (set_state IN_QUOTED_FIELD self)
          else if is_delimiter ch then
            Return (set_state START_FIELD (parse_save_field self))
          else if is_newline ch then
            Return (set_state EAT_CRNL (parse_save_field self))
          else let! self := parse_add_char self ch in
               Return (set_state IN_FIELD self)
      end
  | EAT_CRNL =>
      match c with
      | None => Return (set_state START_RECORD self)
      | Some ch => if is_newline ch then Return self else Raise CsvError
      end
  end.

Fixpoint process_line (self : ReaderObj) (line : string) : outcome ReaderObj :=
  match line with
  | EmptyString => Return self
  | String c line' =>
      let! self := parse_process_char self (Some c) in
      process_line self line'
  end.

Definition is_START_RECORD (st : ParserState) : bool :=
  match st with START_RECORD => true | _ => false end.

Definition is_IN_QUOTED_FIELD (st : ParserState) : bool :=
  match st with IN_QUOTED_FIELD => true | _ => false end.

(** [list(csv.reader(lines))]: the successive calls of [Reader_iternext] in
    one loop.  A record is complete when the state is [START_RECORD] after
    the end-of-line mark; at the end of the input a pending field is saved
    and the record returned. *)
Fixpoint reader_loop (self : ReaderObj) (rows : list (list string))
    (lines : list string) : outcome (list (list string)) :=
  match lines with
  | [] =>
      if negb (str_is_empty (field self)) || is_IN_QUOTED_FIELD (state self)
      then Return (rows ++ [fields (parse_save_field self)])
      else Return rows
  | line :: rest =>
      let! self := process_line self line in
      let! self := parse_process_char self None in
      if is_START_RECORD (state self)
      then reader_loop parse_reset (rows ++ [fields self]) rest
      else reader_loop self rows rest
  end.

Definition csv_reader (lines : list string) : outcome (list (list string)) :=
  reader_loop parse_reset [] lines.

(** The writer with [quoting=csv.QUOTE_ALL]: every field is quoted, a quote
    inside a field is doubled, fields are joined by the delimiter and the
    record ends with ["\r\n"]. *)
Fixpoint join_append_data (fld : string) : string :=
  match fld with
  | EmptyString => EmptyString
  | String c fld' =>
      if is_quotechar c then String DQUOTE (String c (join_append_data fld'))
      else String c (join_append_data fld')
  end.

Definition join_append (fld : string) : string :=
  String DQUOTE (join_append_data fld +:+ String DQUOTE "").

Fixpoint join_fields (flds : list string) : string :=
  match flds with
  | [] => EmptyString
  | [f] => join_append f
  | f :: flds' => join_append f +:+ String COMMA (join_fields flds')
  end.

Definition lineterminator : string := String CR (String LF "").

Definition writerow (flds : list string) : string :=
  join_fields flds +:+ lineterminator.

(** ** [pdf2words.py]: the classification store *)

(** The files the program can reach, by their path relative to the working
    directory, with their content.  Text files are written on a POSIX
    system, where ["\n"] is stored as it is. *)
Abbreviation file_system := (gmap string string).

(** The value of an unknown-words entry. *)
Record details : Type := mkDetails { translation : string; sentence : string }.

Definition PDF_FILE : string :=
  "Geronimo Stilton Spacemice - Book 3 - Ice Planet Adventure.pdf".
Definition KNOWN_WORDS_FILE : string := ".KNOWN_WORDS.txt".
Definition UNKNOWN_WORDS_FILE : string :=
  splitext_root (basename PDF_FILE) +:+ ".csv".

Definition NL : string := String LF "".

(** The words of a newline-delimited file: [line.strip() for line in file]. *)
Definition stripped_lines (content : string) : list string :=
  strip <$> text_lines content.

Definition load_known_words (fs : file_system) (file_path : string)
  : gset string :=
  let known_words := ∅ in
  match fs !! file_path with
  | Some content => known_words ∪ list_to_set (stripped_lines content)
  | None => known_words
  end.

(** A file directly in the working directory: its path has no slash. *)
Definition in_working_directory (path : string) : bool :=
  str_forallb (λ c, negb (is_slash c)) path.

(** The files matched by [Path(".").glob("*.words")] whose name differs
    from [Path(file_path).name]. *)
Definition is_other_words_file (file_path : string) (entry : string * string)
  : Prop :=
  (in_working_directory entry.1 = true ∧ ends_with ".words" entry.1 = true)
  ∧ entry.1 ≠ path_name file_path.

Global Instance is_other_words_file_dec file_path entry :
  Decision (is_other_words_file file_path entry).
Proof. unfold is_other_words_file. apply _. Defined.

Definition load_otherbook_words (fs : file_system) (file_path : string)
  : gset string :=
  ⋃ ((λ entry : string * string, list_to_set (stripped_lines entry.2))
       <$> map_to_list (filter (is_other_words_file file_path) fs)).

(** One word per line, each followed by ["\n"]. *)
Definition write_words (ws : list string) : string :=
  str_concat ((λ word, word +:+ NL) <$> ws).

Definition save_known_words (fs : file_system) (file_path : string)
    (known_words : gset string) : file_system :=
  let sorted_known_words := sorted (elements known_words) in
  <[file_path := write_words sorted_known_words]> fs.

(** The body of [for row in reader] in [load_unknown_words]. *)
Definition load_row (unknown_words : list (string * details))
    (row : list string) : list (string * details) :=
  match row with
  | word :: translation :: sentence :: _ =>
      dict_set unknown_words word (mkDetails translation sentence)
  | _ => unknown_words
  end.

Definition load_unknown_words (fs : file_system) (file_path : string)
  : outcome (list (string * details)) :=
  let unknown_words := [] in
  match fs !! file_path with
  | Some content =>
      let! rows := csv_reader (raw_lines content) in
      Return (fold_left load_row rows unknown_words)
  | None => Return unknown_words
  end.

Definition csv_row (entry : string * details) : list string :=
  [entry.1; translation entry.2; sentence entry.2].

Definition write_csv (unknown_words : list (string * details)) : string :=
  str_concat (writerow ∘ csv_row <$> unknown_words).

(** The name of the sidecar file written next to [file_path]. *)
Definition words_file (file_path : string) : string :=
  splitext_root (basename file_path) +:+ ".words".

Definition save_unknown_words (fs : file_system) (file_path : string)
    (unknown_words : list (string * details)) : file_system :=
  let fs := <[file_path := write_csv unknown_words]> fs in
  let sorted_unknown_words := sorted (dict_keys unknown_words) in
  <[words_file file_path := write_words sorted_unknown_words]> fs.

(** ** [pdf2words.py]: the interactive classifier *)

(** What [stdscr.getch()] delivers: a key code, or the interruption of the
    blocking read by the user. *)
Inductive key_event : Type :=
  | Key (k : Z)
  | KeyboardInterrupt.

Definition KEY_LEFT : Z := 260.
Definition KEY_RIGHT : Z := 261.

(** A decision of the user: LEFT marks the word known, RIGHT marks it
    unknown with the sentence shown. *)
Inductive decision : Type :=
  | MarkedKnown (word : string)
  | MarkedUnknown (word sentence : string).

(** The two accumulators of the review loop, with the list of the words
    shown on the screen and of the decisions taken, in order. *)
Record session : Type := mkSession {
  known_words : gset string;
  unknown_words : list (string * details);
  presented : list string;
  decisions : list decision
}.

(** [while True: key = stdscr.getch() ...] for one word: the first LEFT or
    RIGHT key decides, other keys are read and dropped. *)
Inductive wait_result : Type :=
  | PressedLeft (rest : list key_event)
  | PressedRight (rest : list key_event)
  | Interrupted
  | NoMoreInput.

Fixpoint wait_for_key (keys : list key_event) : wait_result :=
  match keys with
  | [] => NoMoreInput
  | KeyboardInterrupt :: _ => Interrupted
  | Key k :: rest =>
      if (k =? KEY_LEFT)%Z then PressedLeft rest
      else if (k =? KEY_RIGHT)%Z then PressedRight rest
      else wait_for_key rest
  end.

(** How the [try] block is left: the loop ran to its end, the interruption
    was caught, or the read blocks for ever because no input is left. *)
Inductive loop_end : Type :=
  | LoopCompleted
  | LoopInterrupted
  | LoopBlocked.

Definition present (word : string) (st : session) : session :=
  mkSession (known_words st) (unknown_words st) (presented st ++ [word])
    (decisions st).

Definition mark_known (word : string) (st : session) : session :=
  mkSession ({[word]} ∪ known_words st) (unknown_words st) (presented st)
    (decisions st ++ [MarkedKnown word]).

Definition mark_unknown (word sentence : string) (st : session) : session :=
  mkSession (known_words st)
    (dict_set (unknown_words st) word (mkDetails "" sentence)) (presented st)
    (decisions st ++ [MarkedUnknown word sentence]).

Fixpoint review_loop (st : session) (newlist : list (string * string))
    (keys : list key_event) : session * loop_end :=
  match newlist with
  | [] => (st, LoopCompleted)
  | (word, sentence) :: rest =>
      let st := present word st in
      match wait_for_key keys with
      | PressedLeft keys => review_loop (mark_known word st) rest keys
      | PressedRight keys =>
          review_loop (mark_unknown word sentence st) rest keys
      | Interrupted => (st, LoopInterrupted)
      | NoMoreInput => (st, LoopBlocked)
      end
  end.

(** "remove already proccessed words": the loop that builds [newlist]. *)
Definition already_processed (known : gset string)
    (unknown : list (string * details)) (otherbook : gset string)
    (word : string) : bool :=
  bool_decide (word ∈ known) || dict_contains unknown word
  || bool_decide (word ∈ otherbook).

Definition build_newlist (known : gset string)
    (unknown : list (string * details)) (otherbook : gset string)
    (wordlist : list (string * string)) : list (string * string) :=
  fold_left
    (λ newlist entry,
       if already_processed known unknown otherbook entry.1 then newlist
       else dict_set newlist entry.1 entry.2)
    wordlist [].

(** The outcome of a call of [classify_words]. *)
Inductive classified : Type :=
  | Returned (fs : file_system) (unknown : list (string * details))
      (st : session) (how : loop_end)
  | Raised (e : exn)
  | Blocked (st : session).

(** [wordlist] is the mapping built by [extract_unique_words]; its values
    are the sentences read by [details.get("sentence", "")]. *)
Definition classify_words (fs : file_system)
    (wordlist : list (string * string)) (keys : list key_event) : classified :=
  let known := load_known_words fs KNOWN_WORDS_FILE in
  match load_unknown_words fs UNKNOWN_WORDS_FILE with
  | Raise e => Raised e
  | Return unknown =>
      let otherbook := load_otherbook_words fs UNKNOWN_WORDS_FILE in
      let newlist := build_newlist known unknown otherbook wordlist in
      match review_loop (mkSession known unknown [] []) newlist keys with
      | (st, LoopBlocked) => Blocked st
      | (st, how) =>
          (* finally: *)
          let fs := save_known_words fs KNOWN_WORDS_FILE (known_words st) in
          let fs :=
            save_unknown_words fs UNKNOWN_WORDS_FILE (unknown_words st) in
          Returned fs (unknown_words st) st how
      end
  end.

(** ** [pdf2words.py]: the translator *)

(** What the program does while translating, in order. *)
Inductive translate_event : Type :=
  | CallTranslator (word : string)
  | PrintTranslation (word translated : string)
  | PrintError (word : string)
  | SaveStore (unknown : list (string * details)).

Section Translator.
(** [GoogleTranslator(source='auto', target='ru').translate]; [None] is a
  call that raises an [Exception]. *)
Variable translate : string → option string.

(** The body of the loop over [unknown_words.items()]. *)
Definition translate_entry (entry : string * details)
: (string * details) * list translate_event :=
let (word, d) := entry in
if str_is_empty (translation d) then
  match translate word with
  | Some t =>
      ((word, mkDetails t (sentence d)),
       [CallTranslator word; PrintTranslation word t])
  | None => ((word, d), [CallTranslator word; PrintError word])
  end
else ((word, d), []).

Fixpoint translate_loop (unknown : list (string * details))
: list (string * details) * list translate_event :=
match unknown with
| [] => ([], [])
| entry :: rest =>
    let (entry', evs) := translate_entry entry in
    let (rest', evs') := translate_loop rest in
    (entry' :: rest', evs ++ evs')
end.

Definition translate_words (fs : file_system)
  (unknown : list (string * details))
: file_system * list (string * details) * list translate_event :=
let (unknown, evs) := translate_loop unknown in
(save_unknown_words fs UNKNOWN_WORDS_FILE unknown, unknown,
 evs ++ [SaveStore unknown]).
End Translator.

(** ** [hashlib.md5] *)

(** [name.encode()]: UTF-8, one byte below 128 and two bytes above. *)
Fixpoint encode_utf8 (s : string) : list N :=
  match s with
  | EmptyString => []
  | String c s' =>
      let n := code c in
      if n <? 128 then n :: encode_utf8 s'
      else (192 + n / 64) :: (128 + n mod 64) :: encode_utf8 s'
  end.

Definition md5_shift : list N :=
  [
     7; 12; 17; 22; 7; 12; 17; 22; 7; 12; 17; 22; 7; 12; 17; 22;
     5; 9; 14; 20; 5; 9; 14; 20; 5; 9; 14; 20; 5; 9; 14; 20;
     4; 11; 16; 23; 4; 11; 16; 23; 4; 11; 16; 23; 4; 11; 16; 23;
     6; 10; 15; 21; 6; 10; 15; 21; 6; 10; 15; 21; 6; 10; 15; 21
  ].

Definition md5_K : list N :=
  [
     3614090360; 3905402710; 606105819; 3250441966;
     4118548399; 1200080426; 2821735955; 4249261313;
     1770035416; 2336552879; 4294925233; 2304563134;
     1804603682; 4254626195; 2792965006; 1236535329;
     4129170786; 3225465664; 643717713; 3921069994;
     3593408605; 38016083; 3634488961; 3889429448;
     568446438; 3275163606; 4107603335; 1163531501;
     2850285829; 4243563512; 1735328473; 2368359562;
     4294588738; 2272392833; 1839030562; 4259657740;
     2763975236; 1272893353; 4139469664; 3200236656;
     681279174; 3936430074; 3572445317; 76029189;
     3654602809; 3873151461; 530742520; 3299628645;
     4096336452; 1126891415; 2878612391; 4237533241;
     1700485571; 2399980690; 4293915773; 2240044497;
     1873313359; 4264355552; 2734768916; 1309151649;
     4149444226; 3174756917; 718787259; 3951481745
  ].

Definition mask32 : N := 4294967295.
Definition add32 (a b : N) : N := N.land (a + b) mask32.
Definition not32 (a : N) : N := N.lxor a mask32.
Definition rotl32 (x c : N) : N :=
  N.land (N.lor (N.shiftl x c) (N.shiftr x (32 - c))) mask32.

(** Little-endian words and bytes. *)
Fixpoint words_of_bytes (bs : list N) : list N :=
  match bs with
  | b0 :: b1 :: b2 :: b3 :: bs' =>
      (b0 + 256 * (b1 + 256 * (b2 + 256 * b3))) :: words_of_bytes bs'
  | _ => []
  end.

Fixpoint bytes_of_int (count : nat) (x : N) : list N :=
  match count with
  | O => []
  | S count' => (x mod 256) :: bytes_of_int count' (x / 256)
  end.

(** The message followed by the bit [1], zeros up to 56 modulo 64 bytes and
    the length in bits on 64 bits. *)
Definition md5_pad (msg : list N) : list N :=
  let n := N.of_nat (length msg) in
  let zeros := (55 + 64 - n mod 64) mod 64 in
  msg ++ [128] ++ repeat 0 (N.to_nat zeros)
  ++ bytes_of_int 8 ((8 * n) mod 18446744073709551616).

Definition md5_step (M : list N) (st : N * N * N * N) (i : N)
  : N * N * N * N :=
  let '(a, b, c, d) := st in
  let '(f, g) :=
    if i <? 16 then (N.lor (N.land b c) (N.land (not32 b) d), i)
    else if i <? 32 then
      (N.lor (N.land d b) (N.land (not32 d) c), (5 * i + 1) mod 16)
    else if i <? 48 then (N.lxor b (N.lxor c d), (3 * i + 5) mod 16)
    else (N.lxor c (N.lor b (not32 d)), (7 * i) mod 16) in
  let f := add32 (add32 (add32 f a) (nth (N.to_nat i) md5_K 0))
             (nth (N.to_nat g) M 0) in
  (d, add32 b (rotl32 f (nth (N.to_nat i) md5_shift 0)), b, c).

Definition md5_block (st : N * N * N * N) (M : list N) : N * N * N * N :=
  let '(a0, b0, c0, d0) := st in
  let '(a, b, c, d) :=
    fold_left (md5_step M) (N.of_nat <$> seq 0 64) st in
  (add32 a0 a, add32 b0 b, add32 c0 c, add32 d0 d).

Fixpoint md5_blocks (fuel : nat) (st : N * N * N * N) (ws : list N)
  : N * N * N * N :=
  match fuel, ws with
  | S fuel', _ :: _ =>
      md5_blocks fuel' (md5_block st (firstn 16 ws)) (skipn 16 ws)
  | _, _ => st
  end.

(** [hashlib.md5(data).digest()] *)
Definition md5_digest (data : list N) : list N :=
  let ws := words_of_bytes (md5_pad data) in
  let '(a, b, c, d) :=
    md5_blocks (length ws) (1732584193, 4023233417, 2562383102, 271733878) ws
  in
  bytes_of_int 4 a ++ bytes_of_int 4 b ++ bytes_of_int 4 c ++ bytes_of_int 4 d.

Definition hex_digit (n : N) : ascii :=
  if n <? 10 then ascii_of_N (48 + n) else ascii_of_N (87 + n).

Fixpoint hex_of_bytes (bs : list N) : string :=
  match bs with
  | [] => EmptyString
  | b :: bs' =>
      String (hex_digit (b / 16)) (String (hex_digit (b mod 16))
        (hex_of_bytes bs'))
  end.

(** [hashlib.md5(data).hexdigest()] *)
Definition md5_hexdigest (data : list N) : string :=
  hex_of_bytes (md5_digest data).

(** ** [create_anki.py] *)

Definition hex_value (c : ascii) : option N :=
  if in_range 48 57 c then Some (code c - 48)
  else if in_range 97 102 c then Some (code c - 87)
  else if in_range 65 70 c then Some (code c - 55)
  else None.

Fixpoint int16_go (acc : N) (s : string) : option N :=
  match s with
  | EmptyString => Some acc
  | String c s' =>
      match hex_value c with
      | Some v => int16_go (16 * acc + v) s'
      | None => None
      end
  end.

(** [int(s, 16)] on a string of hexadecimal digits; anything else is
    rejected with [ValueError]. *)
Definition int16 (s : string) : outcome N :=
  match s with
  | EmptyString => Raise ValueError
  | _ => match int16_go 0 s with
         | Some n => Return n
         | None => Raise ValueError
         end
  end.

Definition generate_unique_id (name : string) : outcome N :=
  int16 (str_take 8 (md5_hexdigest (encode_utf8 name))).

(** [genanki.Note(model=model, fields=[...])] *)
Record Note : Type := mkNote { note_model : N; note_fields : list string }.

(** [genanki.Model]: identifier, name and field names (templates and style
    sheet are constants of no interest here). *)
Record Model : Type := mkModel {
  model_id : N;
  model_name : string;
  model_fields : list string
}.

(** [genanki.Deck] *)
Record Deck : Type := mkDeck {
  deck_id : N;
  deck_name : string;
  notes : list Note
}.

(** What [genanki.Package(deck).write_to_file(output_file)] is given. *)
Record Package : Type := mkPackage {
  output_file : string;
  package_model : Model;
  package_deck : Deck
}.

Definition add_note (deck : Deck) (note : Note) : Deck :=
  mkDeck (deck_id deck) (deck_name deck) (notes deck ++ [note]).

(** The body of [for row in reader] in [create_anki_deck_from_csv]. *)
Definition add_row (model : Model) (deck : Deck) (row : list string) : Deck :=
  match row with
  | word :: translation :: sentence :: _ =>
      add_note deck (mkNote (model_id model) [word; translation; sentence])
  | _ => deck
  end.

Definition create_anki_deck_from_csv (fs : file_system) (csv_file : string)
  : outcome Package :=
  let deck_name := splitext_root (basename csv_file) in
  let! deck_id := generate_unique_id (deck_name +:+ "deck") in
  let! model_id := generate_unique_id (deck_name +:+ "model") in
  let output_file := deck_name +:+ ".apkg" in
  let model :=
    mkModel model_id (deck_name +:+ " Model")
      ["Word"; "Translation"; "Sentence"] in
  let deck := mkDeck deck_id deck_name [] in
  match fs !! csv_file with
  | None => Raise FileNotFoundError
  | Some content =>
      let! rows := csv_reader (text_lines content) in
      Return (mkPackage output_file model (fold_left (add_row model) rows deck))
  end.

(** ** Notions used in the statements *)

(** [if is_valid_word(w):] takes the branch. *)
Definition accepts (english_words : gset string) (w : string) : Prop :=
  ∃ v, is_valid_word english_words w = Return v ∧ truthy v = true.

(** The string made of [n] copies of [c]. *)
Fixpoint str_repeat (c : ascii) (n : nat) : string :=
  match n with
  | O => EmptyString
  | S n' => String c (str_repeat c n')
  end.


(** The characters of a string. *)
Fixpoint chars (s : string) : list ascii :=
  match s with
  | EmptyString => []
  | String c s' => c :: chars s'
  end.


(** The page numbers of [images] that lie in at least one range. *)
Definition in_some_range (ranges : list py_range) (page : Z) : bool :=
  existsb (range_contains page) ranges.

Definition in_every_range (ranges : list py_range) (page : Z) : bool :=
  forallb (range_contains page) ranges.

(** The words some line of [content] holds, as the program reads them. *)
Definition file_words (content : string) : gset string :=
  list_to_set (stripped_lines content).

(** What a decision does to the known-words set and the unknown-words
    store. *)
Definition apply_decision (acc : gset string * list (string * details))
    (d : decision) : gset string * list (string * details) :=
  match d with
  | MarkedKnown word => ({[word]} ∪ acc.1, acc.2)
  | MarkedUnknown word sentence =>
      (acc.1, dict_set acc.2 word (mkDetails "" sentence))
  end.

(** The accumulators and lists of a call that got into the review loop. *)
Definition session_of (r : classified) : option session :=
  match r with
  | Returned _ _ st _ => Some st
  | Blocked st => Some st
  | Raised _ => None
  end.

(** The keys that decide a word. *)
Definition is_press (ev : key_event) : bool :=
  match ev with
  | Key k => (k =? KEY_LEFT)%Z || (k =? KEY_RIGHT)%Z
  | KeyboardInterrupt => false
  end.

Definition presses (keys : list key_event) : nat :=
  length (filter (λ ev, is_press ev = true) keys).

(** [word] is a line of a sidecar file of [fs] other than the one of the
    current document. *)
Definition in_other_sidecar (fs : file_system) (word : string) : Prop :=
  ∃ name content,
    fs !! name = Some content
    ∧ in_working_directory name = true ∧ ends_with ".words" name = true
    ∧ name ≠ words_file UNKNOWN_WORDS_FILE ∧ word ∈ file_words content.

(** The translator calls and the error reports of a trace. *)
Definition called (ev : translate_event) : option string :=
  match ev with CallTranslator w => Some w | _ => None end.

Definition reported (ev : translate_event) : option string :=
  match ev with PrintError w => Some w | _ => None end.

Definition saved (ev : translate_event) : option (list (string * details)) :=
  match ev with SaveStore d => Some d | _ => None end.

Definition lacks_translation (entry : string * details) : bool :=
  str_is_empty (translation entry.2).
(** How an entry of the store relates to the entry it becomes. *)
Definition translated_from (translate : string → option string)
    (e e' : string * details) : Prop :=
  e'.1 = e.1 ∧ sentence e'.2 = sentence e.2
  ∧ if lacks_translation e
    then translation e'.2 = default "" (translate e.1)
    else e' = e.

(** No character of [s] is a space. *)
Definition no_space (s : string) : bool :=
  str_forallb (λ c, negb (isspace c)) s.

(** A word that a newline-delimited file gives back as it is: no line
    break inside, no space at either end. *)
Definition no_newline (s : string) : bool :=
  str_forallb (λ c, negb (is_newline c)) s.

Definition clean_line (w : string) : Prop :=
  strip w = w ∧ no_newline w = true.

(** Every field of the entry is within [csv.field_size_limit()]. *)
Definition within_limit (s : string) : Prop := len s <= field_limit.

Definition entry_within_limit (entry : string * details) : Prop :=
  Forall within_limit (csv_row entry).

(** The candidate words of a text in reading order, each with the cleaned
    sentence it stands in. *)
Definition occurrences (text : string) : list (string * string) :=
  cleaned_sentence ← clean_sentence <$> re_split_terminators text;
  (λ word, (clean_word word, cleaned_sentence))
    <$> str_split cleaned_sentence.

Definition accepted (english_words : gset string) (w : string) : bool :=
  match is_valid_word english_words w with
  | Return v => truthy v
  | Raise _ => false
  end.

(** "First occurrence wins": an occurrence is recorded under its lowercase
    form unless that key is already there. *)
Fixpoint first_wins (d : list (string * string))
    (occs : list (string * string)) : list (string * string) :=
  match occs with
  | [] => d
  | (w, s) :: rest =>
      first_wins
        (if dict_contains d (lower w) then d else dict_set d (lower w) s) rest
  end.

(** ** [pdf2words.py]: the text cache *)

Definition read_cached_text (fs : file_system) (cache_file : string)
  : option string :=
  match fs !! cache_file with
  | Some content => Some (universal_newlines content)
  | None => None
  end.

Definition save_text_to_cache (fs : file_system) (text cache_file : string)
  : file_system :=
  <[cache_file := text]> fs.

(** [if cached_text:] neither [None] nor the empty string passes. *)
Definition text_truthy (cached_text : option string) : bool :=
  match cached_text with
  | Some text => negb (str_is_empty text)
  | None => false
  end.

(** Where the text returned by [extract_text] comes from; for the OCR the
    page numbers that were processed. *)
Inductive text_source : Type :=
  | FromCache
  | FromOCR (pages : list Z).

Section ExtractText.
Context {image : Type}.
(** [pdf2image.convert_from_path] *)
Variable convert_from_path : string → list image.
Variable ocr_page : image → string.
Variable PAGES_RANGES : list py_range.

Definition cache_file_of (pdf_file : string) : string :=
splitext_root (basename pdf_file) +:+ ".txt".

Definition extract_text (fs : file_system) (pdf_file : string)
: file_system * string * text_source :=
let cache_file := cache_file_of pdf_file in
let cached_text := read_cached_text fs cache_file in
if text_truthy cached_text then (fs, default "" cached_text, FromCache)
else
let (pages, text) :=
extract_text_with_pytesseract ocr_page PAGES_RANGES
  (convert_from_path pdf_file) in
(save_text_to_cache fs text cache_file, text, FromOCR pages).
End ExtractText.

(** The pages of a document, numbered from [first], that lie in every
    range. *)
Definition selected_pages {image : Type} (ranges : list py_range) (first : Z)
    (images : list image) : list (Z * image) :=
  filter (λ p, in_every_range ranges p.1 = true)
    (zip (seqZ first (Z.of_nat (length images))) images).

(** What holds of a key and its sentence in the mapping built from [text]. *)
Definition entry_of_text (english_words : gset string) (text : string)
    (e : string * string) : Prop :=
  (4 ≤ String.length e.1)%nat
  ∧ Forall (λ c, in_range 97 122 c = true) (chars e.1)
  ∧ ∃ piece token,
      piece ∈ re_split_terminators text ∧ e.2 = clean_sentence piece
      ∧ token ∈ str_split e.2 ∧ clean_word token ∈ english_words
      ∧ e.1 = lower (clean_word token).

(** A key event the review loop reacts to: LEFT, RIGHT or the
    interruption. *)
Definition is_relevant (ev : key_event) : bool :=
  match ev with
  | Key _ => is_press ev
  | KeyboardInterrupt => true
  end.

Definition decided_word (d : decision) : string :=
  match d with
  | MarkedKnown word => word
  | MarkedUnknown word _ => word
  end.

(** The words marked known and the entries marked unknown by a list of
    decisions, in order. *)
Definition known_of (ds : list decision) : list string :=
  omap (λ d, match d with MarkedKnown w => Some w | _ => None end) ds.

Definition unknown_of (ds : list decision) : list (string * details) :=
  omap (λ d, match d with
             | MarkedUnknown w s => Some (w, mkDetails "" s)
             | _ => None
             end) ds.

(** The entry a CSV row stands for, if it has three fields or more. *)
Definition entry_of_row (row : list string) : option (string * details) :=
  match row with
  | word :: translation :: sentence :: _ =>
      Some (word, mkDetails translation sentence)
  | _ => None
  end.

(** The details of the rows that stand for the word [w], in file order. *)
Definition rows_for (w : string) (rows : list (list string)) : list details :=
  omap (λ row, match entry_of_row row with
               | Some (w', d) => if String.eqb w w' then Some d else None
               | None => None
               end) rows.

(** The field in progress and the fields saved are within the limit. *)
Definition reader_within_limit (self : ReaderObj) : Prop :=
  within_limit (field self) ∧ Forall within_limit (fields self).

(** [" ".join(ws)] *)
Fixpoint join_spaces (ws : list string) : string :=
  match ws with
  | [] => EmptyString
  | w :: ws' =>
      match ws' with
      | [] => w
      | _ :: _ => w +:+ String SPACE (join_spaces ws')
      end
  end.

(** ** [pdf2words.py]: the program *)

Definition PAGES_RANGES : list py_range := [range2 16 242].

(** How [main] ends: all four steps done, an exception of the program's own
    computations left it, or the classifier waits for a key that never
    comes.  The files are texts that can be read and written and the
    external calls return: a file that cannot be opened or decoded, and a
    failure of the OCR or of the terminal, have no counterpart here, so
    [Failed] does not list every way the program can stop. *)
Inductive main_end : Type :=
  | Finished (fs : file_system) (st : session) (how : loop_end)
      (unknown : list (string * details)) (evs : list translate_event)
  | Failed (fs : file_system) (e : exn)
  | Waiting (fs : file_system) (st : session).

Section Main.
Context {image : Type}.
Variable convert_from_path : string → list image.
Variable ocr_page : image → string.
Variable english_words : gset string.
Variable translate : string → option string.

Definition main (fs : file_system) (keys : list key_event) : main_end :=
let '(fs, text, _) :=
extract_text convert_from_path ocr_page PAGES_RANGES fs PDF_FILE in
match extract_unique_words english_words text with
| Raise e => Failed fs e
| Return unique_words =>
match classify_words fs unique_words keys with
| Raised e => Failed fs e
| Blocked st => Waiting fs st
| Returned fs unknown st how =>
let '(fs, unknown, evs) := translate_words translate fs unknown in
Finished fs st how unknown evs
end
end.
End Main.


(** * Properties *)

(** ** The library models on known values *)

Example md5_of_empty :
  md5_hexdigest (encode_utf8 "") = "d41d8cd98f00b204e9800998ecf8427e".
Proof. vm_compute. reflexivity. Qed.

Example md5_of_abc :
  md5_hexdigest (encode_utf8 "abc") = "900150983cd24fb0d6963f7d28e17f72".
Proof. vm_compute. reflexivity. Qed.

Example generate_unique_id_testdeck :
  generate_unique_id "testdeck" = Return 3917022266.
Proof. vm_compute. reflexivity. Qed.

(** Quoted fields with doubled quotes and a line break, a blank line and a
    last line without terminator. *)
Example csv_reader_sample :
  let q := String DQUOTE "" in
  let text :=
    "a," +:+ q +:+ "b " +:+ q +:+ q +:+ "q" +:+ q +:+ q +:+ " c" +:+ q +:+ ",d"
    +:+ lineterminator +:+ lineterminator
    +:+ q +:+ "x" +:+ NL +:+ "y" +:+ q +:+ ",z" in
  csv_reader (raw_lines text)
  = Return [["a"; "b " +:+ q +:+ "q" +:+ q +:+ " c"; "d"]; [];
            ["x" +:+ NL +:+ "y"; "z"]].
Proof. vm_compute. reflexivity. Qed.

Example istitle_samples :
  istitle "Hello" = true ∧ istitle "McDonald" = false
  ∧ istitle "HELLO" = false ∧ istitle "hello" = false.
Proof. repeat split. Qed.

Example splitext_samples :
  splitext_root (basename "books/My.Book.v2.pdf") = "My.Book.v2"
  ∧ splitext_root ".hidden" = ".hidden".
Proof. split; reflexivity. Qed.

(** [Path(p).name] and [os.path.basename(p)] agree on the name of the CSV
    file and differ after a trailing slash. *)
Example path_name_samples :
  path_name UNKNOWN_WORDS_FILE = basename UNKNOWN_WORDS_FILE
  ∧ path_name "books/first.csv" = "first.csv"
  ∧ path_name "x.words/" = "x.words" ∧ basename "x.words/" = ""
  ∧ path_name "a/b/." = "b" ∧ path_name "a//b" = "b"
  ∧ path_name ".." = ".." ∧ path_name "." = "" ∧ path_name "/" = "".
Proof. repeat split; reflexivity. Qed.

(** The example of the specification: with a dictionary that holds
    "quick", "brown" and "jumps" but not "fox", the sentence yields these
    three words; "The" is too short and title-cased. *)
Example extract_unique_words_quick_brown_fox :
  extract_unique_words (list_to_set ["quick"; "brown"; "jumps"])
    "The quick brown fox jumps."
  = Return [("quick", "The quick brown fox jumps");
            ("brown", "The quick brown fox jumps");
            ("jumps", "The quick brown fox jumps")].
Proof. vm_compute. reflexivity. Qed.

(** ** The OCR extractor's page filter *)

Section PageFilter.
Context {image : Type}.
Variable ocr_page : image → string.
Variable PAGES_RANGES : list py_range.

Lemma skip_fold_true (l : list py_range) (cnt : Z) :
fold_left
  (fun skip PAGE_RANGE =>
     if negb (range_contains cnt PAGE_RANGE) then true else skip) l true
= true.
Proof. induction l as [|r l IH]; simpl; [done|]. by destruct (range_contains cnt r). Qed.

Lemma skip_flag_every (cnt : Z) :
skip_flag PAGES_RANGES cnt = negb (in_every_range PAGES_RANGES cnt).
Proof.
unfold skip_flag, in_every_range.
destruct PAGES_RANGES as [|r0 l0] eqn:E; [done|].
rewrite bool_decide_eq_false_2 by done. simpl negb at 1. cbv iota.
clear E. generalize (r0 :: l0). intros l.
induction l as [|r l IH]; simpl; [done|].
destruct (range_contains cnt r); simpl; [exact IH|apply skip_fold_true].
Qed.

Lemma pages_loop_pages (images : list image) (cnt : Z) (pages : list Z)
  (text : string) (page : Z) :
page ∈ (pages_loop ocr_page PAGES_RANGES cnt pages text images).1 ↔
page ∈ pages
∨ ((cnt < page ≤ cnt + Z.of_nat (length images))%Z
   ∧ in_every_range PAGES_RANGES page = true).
Proof.
revert cnt pages text.
induction images as [|img rest IH]; intros cnt pages text; simpl.
- split; [auto|]. intros [?|[? _]]; [done|lia].
- rewrite skip_flag_every.
  destruct (in_every_range PAGES_RANGES (cnt + 1)) eqn:E; simpl;
    rewrite IH; [rewrite elem_of_app, list_elem_of_singleton|].
  + split.
    * intros [[?| ->]|[? ?]]; [by left|right; split; [lia|done]|right; split; [lia|done]].
    * intros [?|[? ?]]; [by left; left|].
      destruct (decide (page = (cnt + 1)%Z)) as [->|]; [by left; right|].
      right. split; [lia|done].
  + split.
    * intros [?|[? ?]]; [by left|right; split; [lia|done]].
    * intros [?|[? ?]]; [by left|].
      destruct (decide (page = (cnt + 1)%Z)) as [->|]; [congruence|].
      right. split; [lia|done].
Qed.

(** What the loop does: a page is processed exactly when its number lies
  in every range of the list. *)
Lemma processed_iff_in_every_range (images : list image) (page : Z) :
page ∈ (extract_text_with_pytesseract ocr_page PAGES_RANGES images).1 ↔
(1 ≤ page ≤ Z.of_nat (length images))%Z
∧ in_every_range PAGES_RANGES page = true.
Proof.
unfold extract_text_with_pytesseract. rewrite pages_loop_pages.
split.
- intros [H|[? ?]]; [by apply elem_of_nil in H|split; [lia|done]].
- intros [? ?]. right. split; [lia|done].
Qed.
End PageFilter.

(** C2: with the two ranges [range(1, 3)] and [range(5, 7)] and a document
    of six pages, page 1 lies inside one of the ranges, yet the extractor
    processes no page at all: a page outside any one range is skipped. *)
Theorem page_inside_one_range_is_skipped :
  in_some_range [range2 1 3; range2 5 7] 1 = true
  ∧ extract_text_with_pytesseract (λ img : string, img)
      [range2 1 3; range2 5 7] ["p1"; "p2"; "p3"; "p4"; "p5"; "p6"]
    = ([], "").
Proof. split; reflexivity. Qed.

(** ** The validity filter *)

Lemma last_char_cons (c : ascii) (s : string) :
  ∃ c', last_char (String c s) = Some c'.
Proof.
  revert c. induction s as [|d s IH]; intros c; simpl; [eauto|].
  destruct (IH d) as [c' Hc']. exists c'. exact Hc'.
Qed.

(** C10 (amended): for every dictionary and every string, [is_valid_word]
    raises nothing and returns [True], [False] or [None]; when the string
    has fewer than four characters, the empty string included, the length
    test alone decides and the result is [False]. *)
Theorem is_valid_word_never_raises (english_words : gset string) (w : string) :
  ∃ v, is_valid_word english_words w = Return v
       ∧ (v = PyBool true ∨ v = PyBool false ∨ v = PyNone)
       ∧ ((4 <=? len w) = true ∨ v = PyBool false).
Proof.
  unfold is_valid_word.
  destruct (4 <=? len w) eqn:Hlen.
  2: { exists (PyBool false). cbn. auto. }
  destruct w as [|c w]; [done|].
  destruct (last_char_cons c w) as [c' ->]. cbn [first_char isdigit_at].
  generalize (isdigit c) (isdigit c') (bool_decide (String c w ∉ number_words))
    (re_search_run4 (String c w)) (re_match_letters (String c w))
    (istitle (String c w)) (bool_decide (String c w ∈ english_words)).
  intros b1 b2 b3 b4 b5 b6 b7.
  destruct b1, b2, b3, b4, b5, b6, b7; cbn;
    (eexists; split; [reflexivity|]; split; auto).
Qed.

(** C10 (as stated) fails: on ["ab1c"] the chain stops at the failed match
    and returns [None], which is no boolean. *)
Lemma is_valid_word_returns_None :
  ¬ (∀ (english_words : gset string) (w : string),
       ∃ b : bool, is_valid_word english_words w = Return (PyBool b)).
Proof.
  intros H. destruct (H ∅ "ab1c") as [b Hb].
  vm_compute in Hb. discriminate Hb.
Qed.

(** ** The word extractor *)

(** C3: with a dictionary that holds ["world"] and the spelling ["woRLd"],
    the second sentence replaces the first one under the key ["world"]:
    the membership test looks up the spelling as found, not its lowercase
    form. *)
Theorem later_case_variant_replaces_first_sentence :
  extract_unique_words (list_to_set ["world"; "woRLd"; "said"])
    "She said world. He said woRLd again."
  = Return [("said", "She said world"); ("world", "He said woRLd again")].
Proof. vm_compute. reflexivity. Qed.

(** ** The word extractor when no accepted spelling has an uppercase letter *)

Lemma is_valid_word_returns (english_words : gset string) (w : string) :
  ∃ v, is_valid_word english_words w = Return v.
Proof.
  unfold is_valid_word.
  destruct w as [|c w]; [by eexists|].
  destruct (last_char_cons c w) as [c' ->]. cbn [first_char isdigit_at].
  generalize (4 <=? len (String c w)) (isdigit c) (isdigit c')
    (bool_decide (String c w ∉ number_words))
    (re_search_run4 (String c w)) (re_match_letters (String c w))
    (istitle (String c w)) (bool_decide (String c w ∈ english_words)).
  intros b0 b1 b2 b3 b4 b5 b6 b7.
  destruct b0, b1, b2, b3, b4, b5, b6, b7; cbn; by eexists.
Qed.

Section FirstOccurrence.
Variable english_words : gset string.
Hypothesis accepted_lowercase :
  ∀ w, accepted english_words w = true → lower w = w.

Lemma add_word_first_wins (cleaned_sentence : string)
    (d : list (string * string)) (word : string) :
  add_word english_words cleaned_sentence d word
  = Return
      (first_wins d
         (filter (λ o, accepted english_words o.1 = true)
            [(clean_word word, cleaned_sentence)])).
Proof.
  unfold add_word. pose proof (accepted_lowercase (clean_word word)) as Hlow.
  destruct (is_valid_word_returns english_words (clean_word word)) as [v Hv].
  assert (accepted english_words (clean_word word) = truthy v) as Hacc
    by (unfold accepted; by rewrite Hv).
  rewrite Hv. cbn [bind]. destruct (truthy v) eqn:Ht.
  - rewrite filter_cons_True by done. rewrite filter_nil. cbn [first_wins].
    rewrite (Hlow Hacc). by destruct (dict_contains d (clean_word word)).
  - rewrite filter_cons_False by (cbn; congruence). done.
Qed.

Lemma first_wins_app (d : list (string * string))
    (o1 o2 : list (string * string)) :
  first_wins d (o1 ++ o2) = first_wins (first_wins d o1) o2.
Proof.
  revert d. induction o1 as [|[w s] o1 IH]; intros d; [done|].
  cbn [app first_wins]. apply IH.
Qed.

Lemma words_loop_first_wins (cleaned_sentence : string) (ws : list string)
    (d : list (string * string)) :
  words_loop english_words cleaned_sentence d ws
  = Return
      (first_wins d
         (filter (λ o, accepted english_words o.1 = true)
            ((λ word, (clean_word word, cleaned_sentence)) <$> ws))).
Proof.
  revert d. induction ws as [|word ws IH]; intros d; [done|].
  cbn [words_loop]. rewrite add_word_first_wins. cbn [bind]. rewrite IH.
  f_equal. rewrite fmap_cons.
  change (?x :: ?l) with ([x] ++ l) at 2.
  by rewrite filter_app, first_wins_app.
Qed.

Lemma sentences_loop_first_wins (sentences : list string)
    (d : list (string * string)) :
  sentences_loop english_words d sentences
  = Return
      (first_wins d
         (filter (λ o, accepted english_words o.1 = true)
            (cleaned_sentence ← clean_sentence <$> sentences;
             (λ word, (clean_word word, cleaned_sentence))
               <$> str_split cleaned_sentence))).
Proof.
  revert d. induction sentences as [|sentence rest IH]; intros d; [done|].
  cbn [sentences_loop]. rewrite words_loop_first_wins. cbn [bind].
  rewrite IH. f_equal. rewrite fmap_cons, bind_cons.
  by rewrite filter_app, first_wins_app.
Qed.

(** When every accepted spelling is lowercase the extractor does keep, for
    every word, the sentence of its first accepted occurrence. *)
Lemma extract_unique_words_first_wins (text : string) :
  extract_unique_words english_words text
  = Return
      (first_wins []
         (filter (λ o, accepted english_words o.1 = true) (occurrences text))).
Proof. apply sentences_loop_first_wins. Qed.
End FirstOccurrence.

(** ** The flashcard exporter *)

Lemma hex_value_hex_digit (n : N) : n < 16 → hex_value (hex_digit n) = Some n.
Proof.
  intros H.
  assert (n = 0 ∨ n = 1 ∨ n = 2 ∨ n = 3 ∨ n = 4 ∨ n = 5 ∨ n = 6 ∨ n = 7
          ∨ n = 8 ∨ n = 9 ∨ n = 10 ∨ n = 11 ∨ n = 12 ∨ n = 13 ∨ n = 14
          ∨ n = 15) as Hn by lia.
  repeat destruct Hn as [->|Hn]; try subst n; reflexivity.
Qed.

Lemma int16_go_byte (acc b : N) (s : string) :
  b < 256 →
  int16_go acc (String (hex_digit (b / 16)) (String (hex_digit (b mod 16)) s))
  = int16_go (256 * acc + b) s.
Proof.
  intros Hb. simpl.
  rewrite hex_value_hex_digit by (apply N.Div0.div_lt_upper_bound; lia).
  rewrite hex_value_hex_digit by (apply N.mod_lt; lia).
  f_equal. pose proof (N.div_mod b 16). lia.
Qed.

Lemma str_take_8_hex (b0 b1 b2 b3 : N) (bs : list N) :
  str_take 8 (hex_of_bytes (b0 :: b1 :: b2 :: b3 :: bs))
  = hex_of_bytes [b0; b1; b2; b3].
Proof. reflexivity. Qed.

(** The identifier is always defined, and it fits in 32 bits. *)
Lemma generate_unique_id_total (name : string) :
  ∃ n, generate_unique_id name = Return n ∧ n < 4294967296.
Proof.
  unfold generate_unique_id, md5_hexdigest, md5_digest.
  destruct (md5_blocks _ _ _) as [[[a b] c] d].
  cbn [bytes_of_int app]. rewrite str_take_8_hex.
  set (b0 := a mod 256). set (b1 := a / 256 mod 256).
  set (b2 := a / 256 / 256 mod 256). set (b3 := a / 256 / 256 / 256 mod 256).
  assert (b0 < 256 ∧ b1 < 256 ∧ b2 < 256 ∧ b3 < 256) as (H0 & H1 & H2 & H3)
    by (repeat split; apply N.mod_lt; lia).
  unfold int16. cbn [hex_of_bytes].
  rewrite !int16_go_byte by assumption. cbn [int16_go].
  eexists. split; [reflexivity|]. lia.
Qed.

(** C8: two runs of the exporter on CSV files with the same base name, in
    any two file systems, give packages with the same deck identifier and
    the same model identifier; the identifiers are [generate_unique_id] of
    the name followed by ["deck"] and by ["model"], which are distinct
    strings. *)
Theorem identifiers_depend_on_deck_name_only
    (fs1 fs2 : file_system) (csv1 csv2 : string) (p1 p2 : Package) :
  splitext_root (basename csv1) = splitext_root (basename csv2) →
  create_anki_deck_from_csv fs1 csv1 = Return p1 →
  create_anki_deck_from_csv fs2 csv2 = Return p2 →
  let name := splitext_root (basename csv1) in
  deck_id (package_deck p1) = deck_id (package_deck p2)
  ∧ model_id (package_model p1) = model_id (package_model p2)
  ∧ generate_unique_id (name +:+ "deck") = Return (deck_id (package_deck p1))
  ∧ generate_unique_id (name +:+ "model")
    = Return (model_id (package_model p1))
  ∧ name +:+ "deck" ≠ name +:+ "model".
Proof.
  intros Hname H1 H2 name.
  unfold create_anki_deck_from_csv in H1, H2. rewrite <- Hname in H2.
  fold name in H1, H2.
  destruct (generate_unique_id (name +:+ "deck")) as [d|] eqn:Hd; [|done].
  destruct (generate_unique_id (name +:+ "model")) as [m|] eqn:Hm; [|done].
  cbn [bind] in H1, H2.
  destruct (fs1 !! csv1) as [content1|]; [|done].
  destruct (fs2 !! csv2) as [content2|]; [|done].
  destruct (csv_reader (text_lines content1)) as [rows1|]; [|done].
  destruct (csv_reader (text_lines content2)) as [rows2|]; [|done].
  cbn [bind] in H1, H2. injection H1 as <-. injection H2 as <-.
  cbn [package_deck package_model model_id].
  assert (∀ rows md dk, deck_id (fold_left (add_row md) rows dk) = deck_id dk)
    as Hfold.
  { intros rows md. induction rows as [|r rows IH]; intros dk; [done|].
    cbn [fold_left]. rewrite IH. unfold add_row.
    by destruct r as [|? [|? [|? ?]]]. }
  rewrite !Hfold. cbn [deck_id].
  repeat split; [done..|].
  intros Heq. apply (inj (String.app name)) in Heq. discriminate Heq.
Qed.

(** C8, witness *)
Lemma identifiers_depend_on_deck_name_only_witness :
  let fs1 : file_system := {["a/book.csv" := "x,y,z"]} in
  let fs2 : file_system := {["book.csv" := ""]} in
  ∃ p1 p2,
    deck_id (package_deck p1) = deck_id (package_deck p2)
    ∧ model_id (package_model p1) = model_id (package_model p2)
    ∧ generate_unique_id ("book" +:+ "deck")
      = Return (deck_id (package_deck p1))
    ∧ generate_unique_id ("book" +:+ "model")
      = Return (model_id (package_model p1))
    ∧ "book" +:+ "deck" ≠ "book" +:+ "model".
Proof.
  intros fs1 fs2.
  destruct (create_anki_deck_from_csv fs1 "a/book.csv") as [p1|] eqn:H1;
    [|vm_compute in H1; discriminate H1].
  destruct (create_anki_deck_from_csv fs2 "book.csv") as [p2|] eqn:H2;
    [|vm_compute in H2; discriminate H2].
  exists p1, p2.
  apply (identifiers_depend_on_deck_name_only fs1 fs2 "a/book.csv" "book.csv"
           p1 p2); [reflexivity|exact H1|exact H2].
Defined.

(** The notes of a deck are appended in the order of the rows. *)
Lemma fold_add_row_notes (model : Model) (rows : list (list string))
    (deck : Deck) :
  notes (fold_left (add_row model) rows deck)
  = notes deck
    ++ ((λ row, mkNote (model_id model) (take 3 row))
          <$> filter (λ row, (3 ≤ length row)%nat) rows).
Proof.
  revert deck. induction rows as [|row rows IH]; intros deck.
  - cbn. by rewrite app_nil_r.
  - cbn [fold_left]. rewrite IH.
    destruct row as [|w [|t [|s row]]]; cbn [add_row].
    1-3: rewrite filter_cons_False by (cbn; lia); done.
    rewrite filter_cons_True by (cbn; lia).
    cbn. by rewrite <- app_assoc.
Qed.



(** ** The translator *)

Section TranslatorFacts.
Variable translate : string → option string.

Lemma translate_loop_spec (unknown : list (string * details)) :
let (unknown', evs) := translate_loop translate unknown in
omap saved evs = []
∧ omap called evs = (filter (λ e, lacks_translation e = true) unknown).*1
∧ omap reported evs
  = (filter (λ e, lacks_translation e = true ∧ translate e.1 = None)
       unknown).*1
∧ Forall2 (translated_from translate) unknown unknown'.
Proof.
induction unknown as [|[w d] rest IH]; [by repeat split; constructor|].
cbn [translate_loop translate_entry].
destruct (translate_loop translate rest) as [rest' evs'].
destruct IH as (IH1 & IH2 & IH3 & IH4).
destruct (str_is_empty (translation d)) eqn:He.
- destruct (translate w) as [t|] eqn:Ht.
  + rewrite !omap_app, IH1, IH2, IH3.
    rewrite filter_cons_True by done.
    rewrite filter_cons_False by (cbn; rewrite Ht; intros [_ ?]; done).
    cbn. repeat split; [].
    constructor; [|done].
    unfold translated_from, lacks_translation. cbn. rewrite He, Ht. done.
  + rewrite !omap_app, IH1, IH2, IH3.
    rewrite !filter_cons_True by done.
    cbn. repeat split; [].
    constructor; [|done].
    unfold translated_from, lacks_translation. cbn. rewrite He, Ht.
    by destruct (translation d).
- rewrite !filter_cons_False
    by (unfold lacks_translation; cbn; rewrite He; try intros [? _]; done).
  cbn. rewrite IH1, IH2, IH3. repeat split; [].
  constructor; [|done].
  unfold translated_from, lacks_translation. cbn. by rewrite He.
Qed.
End TranslatorFacts.

(** C7: in the trace of [translate_words] the translator is called exactly
    for the entries with an empty translation, in order; an error is
    reported exactly for those of them whose call fails; every entry keeps
    its word and sentence, an entry with a translation is unchanged, an
    entry without one gets the result of the call, or keeps the empty
    translation when the call fails, whatever happened to the entries
    before it; and the store is saved once, as the last event, with the
    resulting entries: in the file system the call leaves, the CSV file
    holds one quoted record for each resulting entry, in order, the
    sidecar file holds their words, sorted, and every other file is as it
    was. *)
Theorem translate_words_fills_missing_and_saves_once
    (translate : string → option string) (fs : file_system)
    (unknown : list (string * details)) :
  ∃ fs' unknown' evs,
    translate_words translate fs unknown
    = (fs', unknown', evs ++ [SaveStore unknown'])
    ∧ omap saved evs = []
    ∧ omap called evs = (filter (λ e, lacks_translation e = true) unknown).*1
    ∧ omap reported evs
      = (filter (λ e, lacks_translation e = true ∧ translate e.1 = None)
           unknown).*1
    ∧ Forall2 (translated_from translate) unknown unknown'
    ∧ fs' !! UNKNOWN_WORDS_FILE
      = Some (str_concat
                ((λ e, writerow [e.1; translation e.2; sentence e.2])
                   <$> unknown'))
    ∧ fs' !! words_file UNKNOWN_WORDS_FILE
      = Some (str_concat ((λ w, w +:+ NL) <$> sorted unknown'.*1))
    ∧ ∀ path,
        path ≠ UNKNOWN_WORDS_FILE → path ≠ words_file UNKNOWN_WORDS_FILE →
        fs' !! path = fs !! path.
Proof.
  unfold translate_words.
  pose proof (translate_loop_spec translate unknown) as H.
  destruct (translate_loop translate unknown) as [unknown' evs].
  exists (save_unknown_words fs UNKNOWN_WORDS_FILE unknown'), unknown', evs.
  split; [reflexivity|].
  destruct H as (H1 & H2 & H3 & H4). repeat (split; [assumption|]).
  assert (UNKNOWN_WORDS_FILE ≠ words_file UNKNOWN_WORDS_FILE) as Hne
    by (intros Heq; vm_compute in Heq; discriminate Heq).
  unfold save_unknown_words. repeat split.
  - rewrite lookup_insert_ne by done. by rewrite lookup_insert_eq.
  - by rewrite lookup_insert_eq.
  - intros path Hp1 Hp2. rewrite lookup_insert_ne by done.
    by rewrite lookup_insert_ne.
Qed.

(** C7, on a store of three entries: the first call succeeds, the second
    fails, the third entry has a translation. *)
Lemma translate_words_fills_missing_and_saves_once_witness :
  let translate :=
    λ w : string, if String.eqb w "planet" then Some "planeta" else None in
  let unknown := [("planet", mkDetails "" "The planet was icy");
                  ("mouse", mkDetails "" "A mouse ran");
                  ("cheese", mkDetails "syr" "No cheese")] in
  let fs : file_system := {[ "notes.txt" := "kept" ]} in
  ∃ fs' unknown' evs,
    translate_words translate fs unknown
    = (fs', unknown', evs ++ [SaveStore unknown'])
    ∧ unknown' = [("planet", mkDetails "planeta" "The planet was icy");
                  ("mouse", mkDetails "" "A mouse ran");
                  ("cheese", mkDetails "syr" "No cheese")]
    ∧ omap called evs = ["planet"; "mouse"]
    ∧ omap reported evs = ["mouse"]
    ∧ fs' !! UNKNOWN_WORDS_FILE
      = Some (str_concat
                ((λ e, writerow [e.1; translation e.2; sentence e.2])
                   <$> unknown'))
    ∧ fs' !! "notes.txt" = Some "kept".
Proof.
  intros translate unknown fs.
  destruct (translate_words_fills_missing_and_saves_once translate fs unknown)
    as (fs' & unknown' & evs & Hrun & _ & Hcalled & Hreported & _ & Hcsv & _
        & Hother).
  exists fs', unknown', evs. split; [exact Hrun|].
  assert (unknown' = [("planet", mkDetails "planeta" "The planet was icy");
                      ("mouse", mkDetails "" "A mouse ran");
                      ("cheese", mkDetails "syr" "No cheese")]) as Hu.
  { unfold translate_words in Hrun. cbn in Hrun.
    injection Hrun as _ Hu _. symmetry. exact Hu. }
  split; [exact Hu|]. split; [rewrite Hcalled; reflexivity|].
  split; [rewrite Hreported; reflexivity|]. split; [exact Hcsv|].
  rewrite (Hother "notes.txt").
  - reflexivity.
  - intros Heq. vm_compute in Heq. discriminate Heq.
  - intros Heq. vm_compute in Heq. discriminate Heq.
Defined.

(** ** The validity filter on cleaned tokens *)

Lemma str_app_nil (s : string) : "" +:+ s = s.
Proof. reflexivity. Qed.

Lemma str_app_cons (c : ascii) (s t : string) :
  String c s +:+ t = String c (s +:+ t).
Proof. reflexivity. Qed.

Lemma str_split_no_space (s token : string) :
  token ∈ str_split s → no_space token = true.
Proof.
  revert token. induction s as [|c s IH]; intros token; cbn [str_split].
  - intros H. by apply elem_of_nil in H.
  - destruct (isspace c) eqn:Hc; [apply IH|].
    destruct s as [|c' s'].
    + intros ->%list_elem_of_singleton. cbn. by rewrite Hc.
    + destruct (isspace c') eqn:Hc'.
      * intros [->|H]%elem_of_cons; [cbn; by rewrite Hc|by apply IH].
      * destruct (str_split (String c' s')) as [|w ws].
        -- intros ->%list_elem_of_singleton. cbn. by rewrite Hc.
        -- intros [->|H]%elem_of_cons.
           ++ cbn. rewrite Hc. cbn. apply IH. by left.
           ++ apply IH. by right.
Qed.

Lemma str_filter_no_space (p : ascii → bool) (s : string) :
  no_space s = true → no_space (str_filter p s) = true.
Proof.
  induction s as [|c s IH]; [done|]. cbn.
  intros [Hc Hs]%andb_true_iff. destruct (p c); cbn; [|by apply IH].
  rewrite Hc. by apply IH.
Qed.


Lemma isspace_LF (c : ascii) : is_LF c = true → isspace c = true.
Proof.
  unfold is_LF, isspace, in_range. intros ->%N.eqb_eq. reflexivity.
Qed.



Lemma letters_to_end_forallb (s : string) :
  no_space s = true → letters_to_end s = str_forallb is_ascii_letter s.
Proof.
  induction s as [|c s IH]; [done|].
  cbn [no_space str_forallb]. intros [Hc Hs]%andb_true_iff.
  destruct s as [|c' s'].
  - cbn. destruct (is_LF c) eqn:E.
    + apply isspace_LF in E. by rewrite E in Hc.
    + by rewrite orb_false_r, andb_true_r.
  - change (letters_to_end (String c (String c' s')))
      with (is_ascii_letter c && letters_to_end (String c' s')).
    by rewrite (IH Hs).
Qed.

Lemma str_forallb_Forall (p : ascii → bool) (s : string) :
  str_forallb p s = true ↔ Forall (λ c, p c = true) (chars s).
Proof.
  induction s as [|c s IH]; cbn; [by split; [constructor|]|].
  rewrite andb_true_iff, Forall_cons, IH. done.
Qed.

Lemma re_match_letters_Forall (w : string) :
  no_space w = true →
  re_match_letters w = true ↔
  w ≠ "" ∧ Forall (λ c, is_ascii_letter c = true) (chars w).
Proof.
  intros Hw. destruct w as [|c w]; [by split; [|intros [? _]]|].
  cbn [re_match_letters]. cbn in Hw. apply andb_true_iff in Hw as [_ Hw].
  rewrite (letters_to_end_forallb _ Hw).
  change (is_ascii_letter c && str_forallb is_ascii_letter w)
    with (str_forallb is_ascii_letter (String c w)).
  rewrite str_forallb_Forall. by split; [|intros [_ ?]].
Qed.

(** The truth value of the chain is the conjunction of its eight tests. *)
Lemma accepts_iff_tests (english_words : gset string) (c : ascii) (w : string) :
  accepts english_words (String c w) ↔
  (4 <=? len (String c w)) = true
  ∧ isdigit c = false
  ∧ (∀ c', last_char (String c w) = Some c' → isdigit c' = false)
  ∧ bool_decide (String c w ∉ number_words) = true
  ∧ re_search_run4 (String c w) = false
  ∧ re_match_letters (String c w) = true
  ∧ istitle (String c w) = false
  ∧ bool_decide (String c w ∈ english_words) = true.
Proof.
  unfold accepts, is_valid_word.
  destruct (last_char_cons c w) as [c' ->]. cbn [first_char isdigit_at].
  assert ((∀ c'0, Some c' = Some c'0 → isdigit c'0 = false)
          ↔ isdigit c' = false) as ->.
  { split; [intros H; by apply H|intros H ? [= <-]; done]. }
  generalize (4 <=? len (String c w)) (isdigit c) (isdigit c')
    (bool_decide (String c w ∉ number_words))
    (re_search_run4 (String c w)) (re_match_letters (String c w))
    (istitle (String c w)) (bool_decide (String c w ∈ english_words)).
  intros b0 b1 b2 b3 b4 b5 b6 b7.
  destruct b0, b1, b2, b3, b4, b5, b6, b7; cbn;
    (split;
     [intros (v & [= <-] & Hv); cbn in Hv; try discriminate Hv; by repeat split
     |intros (? & ? & ? & ? & ? & ? & ? & ?); try discriminate;
      (eexists; split; [reflexivity|reflexivity])]).
Qed.



(** ** Dictionaries *)

Lemma dict_keys_set {V : Type} (d : list (string * V)) (k : string) (v : V)
    (k' : string) :
  k' ∈ dict_keys (dict_set d k v) ↔ k' = k ∨ k' ∈ dict_keys d.
Proof.
  unfold dict_keys. induction d as [|[k0 v0] d IH]; cbn.
  - rewrite list_elem_of_singleton. split; [auto|]. intros [?|H]; [done|].
    by apply elem_of_nil in H.
  - destruct (String.eqb k k0) eqn:E; cbn.
    + apply String.eqb_eq in E as <-. rewrite !elem_of_cons. tauto.
    + rewrite !elem_of_cons, IH. tauto.
Qed.

Lemma dict_contains_keys {V : Type} (d : list (string * V)) (k : string) :
  dict_contains d k = true ↔ k ∈ dict_keys d.
Proof.
  unfold dict_contains, dict_keys. induction d as [|[k0 v0] d IH]; cbn.
  - split; [done|]. intros H. by apply elem_of_nil in H.
  - rewrite elem_of_cons. destruct (String.eqb k k0) eqn:E.
    + apply String.eqb_eq in E. tauto.
    + apply String.eqb_neq in E. tauto.
Qed.

Lemma dict_set_length {V : Type} (d : list (string * V)) (k : string) (v : V) :
  (length (dict_set d k v) ≤ S (length d))%nat.
Proof.
  induction d as [|[k0 v0] d IH]; cbn; [lia|].
  destruct (String.eqb k k0); cbn; lia.
Qed.

(** ** The interactive classifier *)

Lemma wait_for_key_left (keys rest : list key_event) :
  wait_for_key keys = PressedLeft rest →
  (KeyboardInterrupt ∈ keys → KeyboardInterrupt ∈ rest)
  ∧ presses keys = S (presses rest).
Proof.
  induction keys as [|[k|] keys IH]; cbn [wait_for_key]; [done| |done].
  unfold presses. rewrite elem_of_cons.
  destruct (k =? KEY_LEFT)%Z eqn:EL.
  - intros [= ->]. rewrite filter_cons_True by (cbn; by rewrite EL).
    split; [by intros [?|?]|done].
  - destruct (k =? KEY_RIGHT)%Z eqn:ER; [done|].
    intros H. destruct (IH H) as [IH1 IH2].
    rewrite filter_cons_False by (cbn; by rewrite EL, ER).
    split; [by intros [?|?]; auto|exact IH2].
Qed.

Lemma wait_for_key_right (keys rest : list key_event) :
  wait_for_key keys = PressedRight rest →
  (KeyboardInterrupt ∈ keys → KeyboardInterrupt ∈ rest)
  ∧ presses keys = S (presses rest).
Proof.
  induction keys as [|[k|] keys IH]; cbn [wait_for_key]; [done| |done].
  unfold presses. rewrite elem_of_cons.
  destruct (k =? KEY_LEFT)%Z eqn:EL; [done|].
  destruct (k =? KEY_RIGHT)%Z eqn:ER.
  - intros [= ->].
    rewrite filter_cons_True by (cbn; rewrite EL, ER; done).
    split; [by intros [?|?]|done].
  - intros H. destruct (IH H) as [IH1 IH2].
    rewrite filter_cons_False by (cbn; by rewrite EL, ER).
    split; [by intros [?|?]; auto|exact IH2].
Qed.

Lemma wait_for_key_no_input (keys : list key_event) :
  wait_for_key keys = NoMoreInput →
  (KeyboardInterrupt ∉ keys) ∧ presses keys = 0%nat.
Proof.
  induction keys as [|[k|] keys IH]; cbn [wait_for_key]; [|  |done].
  - intros _. split; [apply not_elem_of_nil|done].
  - unfold presses. rewrite not_elem_of_cons.
    destruct (k =? KEY_LEFT)%Z eqn:EL; [done|].
    destruct (k =? KEY_RIGHT)%Z eqn:ER; [done|].
    intros H. destruct (IH H) as [IH1 IH2].
    rewrite filter_cons_False by (cbn; by rewrite EL, ER).
    split; [done|exact IH2].
Qed.

(** The loop blocks only when the input holds no interruption and fewer
    deciding keys than there are words left. *)
Lemma review_loop_blocked (newlist : list (string * string)) (st : session)
    (keys : list key_event) :
  (review_loop st newlist keys).2 = LoopBlocked →
  (KeyboardInterrupt ∉ keys) ∧ (presses keys < length newlist)%nat.
Proof.
  revert st keys. induction newlist as [|[word sentence] rest IH];
    intros st keys; cbn [review_loop]; [done|].
  destruct (wait_for_key keys) as [keys'|keys'| |] eqn:Hw; cbn; [| |done|].
  - intros [H1 H2]%IH. apply wait_for_key_left in Hw as [Hw1 Hw2].
    split; [by intros ?%Hw1|lia].
  - intros [H1 H2]%IH. apply wait_for_key_right in Hw as [Hw1 Hw2].
    split; [by intros ?%Hw1|lia].
  - intros _. apply wait_for_key_no_input in Hw as [Hw1 Hw2].
    split; [done|lia].
Qed.

(** The accumulators are the loaded ones with the decisions applied. *)
Lemma review_loop_decisions (newlist : list (string * string)) (st : session)
    (keys : list key_event) (init : gset string * list (string * details)) :
  (known_words st, unknown_words st)
  = fold_left apply_decision (decisions st) init →
  let st' := (review_loop st newlist keys).1 in
  (known_words st', unknown_words st')
  = fold_left apply_decision (decisions st') init.
Proof.
  revert st keys. induction newlist as [|[word sentence] rest IH];
    intros st keys Hst; cbn [review_loop]; [done|].
  destruct (wait_for_key keys) as [keys'|keys'| |]; cbn zeta; [| |done..].
  - apply IH. cbn. rewrite fold_left_app, <- Hst. done.
  - apply IH. cbn. rewrite fold_left_app, <- Hst. done.
Qed.

(** The words shown are words of [newlist], and whatever enters one of the
    accumulators was shown. *)
Lemma review_loop_presented (newlist : list (string * string)) (st : session)
    (keys : list key_event) :
  let st' := (review_loop st newlist keys).1 in
  ∃ shown,
    presented st' = presented st ++ shown
    ∧ shown ⊆ dict_keys newlist
    ∧ (∀ w, w ∈ known_words st' → w ∈ known_words st ∨ w ∈ shown)
    ∧ (∀ w, w ∈ dict_keys (unknown_words st') →
            w ∈ dict_keys (unknown_words st) ∨ w ∈ shown).
Proof.
  revert st keys. induction newlist as [|[word sentence] rest IH];
    intros st keys; cbn [review_loop].
  { exists []. rewrite app_nil_r. repeat split; auto. }
  destruct (wait_for_key keys) as [keys'|keys'| |]; cbn zeta.
  - destruct (IH (mark_known word (present word st)) keys')
      as (shown & H1 & H2 & H3 & H4).
    exists (word :: shown). cbn in *. rewrite H1, <- app_assoc.
    repeat split; [set_solver| |].
    + intros w [Hw|Hw]%H3; [|set_solver]. set_solver.
    + intros w [Hw|Hw]%H4; set_solver.
  - destruct (IH (mark_unknown word sentence (present word st)) keys')
      as (shown & H1 & H2 & H3 & H4).
    exists (word :: shown). cbn in *. rewrite H1, <- app_assoc.
    repeat split; [set_solver| |].
    + intros w [Hw|Hw]%H3; set_solver.
    + intros w [Hw|Hw]%H4; [|set_solver].
      apply dict_keys_set in Hw. set_solver.
  - exists [word]. cbn. repeat split; [set_solver|auto..].
  - exists [word]. cbn. repeat split; [set_solver|auto..].
Qed.

Lemma build_newlist_spec (known : gset string)
    (unknown : list (string * details)) (otherbook : gset string)
    (wordlist : list (string * string)) :
  (length (build_newlist known unknown otherbook wordlist)
   ≤ length wordlist)%nat
  ∧ ∀ w, w ∈ dict_keys (build_newlist known unknown otherbook wordlist) →
         already_processed known unknown otherbook w = false.
Proof.
  unfold build_newlist.
  assert (∀ acc : list (string * string),
    let r := fold_left
      (λ newlist entry,
         if already_processed known unknown otherbook entry.1 then newlist
         else dict_set newlist entry.1 entry.2) wordlist acc in
    (length r ≤ length acc + length wordlist)%nat
    ∧ ∀ w, w ∈ dict_keys r →
           w ∈ dict_keys acc
           ∨ already_processed known unknown otherbook w = false) as H.
  { induction wordlist as [|[w0 s0] wordlist IH]; intros acc; cbn -[dict_keys].
    - split; [lia|auto].
    - destruct (already_processed known unknown otherbook w0) eqn:E.
      + destruct (IH acc) as [IH1 IH2]. split; [lia|exact IH2].
      + destruct (IH (dict_set acc w0 s0)) as [IH1 IH2].
        pose proof (dict_set_length acc w0 s0). split; [lia|].
        intros w [Hw|Hw]%IH2; [|by right].
        apply dict_keys_set in Hw as [->|Hw]; [by right|by left]. }
  destruct (H []) as [H1 H2]. split; [cbn in H1; lia|].
  intros w [Hw|Hw]%H2; [|done]. by apply elem_of_nil in Hw.
Qed.

Lemma store_files_distinct :
  KNOWN_WORDS_FILE ≠ UNKNOWN_WORDS_FILE
  ∧ KNOWN_WORDS_FILE ≠ words_file UNKNOWN_WORDS_FILE
  ∧ UNKNOWN_WORDS_FILE ≠ words_file UNKNOWN_WORDS_FILE.
Proof. repeat split; intros H; vm_compute in H; discriminate H. Qed.

(** What [save_known_words] followed by [save_unknown_words] leaves in the
    three files. *)
Lemma saved_files (fs : file_system) (known : gset string)
    (unknown : list (string * details)) :
  let fs' :=
    save_unknown_words (save_known_words fs KNOWN_WORDS_FILE known)
      UNKNOWN_WORDS_FILE unknown in
  fs' !! KNOWN_WORDS_FILE = Some (write_words (sorted (elements known)))
  ∧ fs' !! UNKNOWN_WORDS_FILE = Some (write_csv unknown)
  ∧ fs' !! words_file UNKNOWN_WORDS_FILE
    = Some (write_words (sorted (dict_keys unknown))).
Proof.
  destruct store_files_distinct as (H1 & H2 & H3).
  unfold save_unknown_words, save_known_words. cbn zeta.
  repeat split.
  - rewrite lookup_insert_ne by done. rewrite lookup_insert_ne by done.
    apply lookup_insert_eq.
  - rewrite lookup_insert_ne by done. apply lookup_insert_eq.
  - apply lookup_insert_eq.
Qed.

(** C1: when the unknown-words file can be read, (1) whenever the call
    returns, the review loop either ran to its end or was interrupted, the
    two accumulators hold the loaded collections with every decision taken
    so far applied in order, and the file system returned holds the sorted
    known words, the CSV of the unknown words and the sorted sidecar; and
    (2) the call does return when the input holds an interruption or a
    deciding key for every word. *)
Theorem classify_words_saves_on_every_exit
    (fs : file_system) (wordlist : list (string * string))
    (keys : list key_event) (unknown0 : list (string * details)) :
  load_unknown_words fs UNKNOWN_WORDS_FILE = Return unknown0 →
  (∀ fs' unknown st how,
     classify_words fs wordlist keys = Returned fs' unknown st how →
     (how = LoopCompleted ∨ how = LoopInterrupted)
     ∧ (known_words st, unknown_words st)
       = fold_left apply_decision (decisions st)
           (load_known_words fs KNOWN_WORDS_FILE, unknown0)
     ∧ unknown = unknown_words st
     ∧ fs' !! KNOWN_WORDS_FILE
       = Some (write_words (sorted (elements (known_words st))))
     ∧ fs' !! UNKNOWN_WORDS_FILE = Some (write_csv (unknown_words st))
     ∧ fs' !! words_file UNKNOWN_WORDS_FILE
       = Some (write_words (sorted (dict_keys (unknown_words st)))))
  ∧ (KeyboardInterrupt ∈ keys ∨ (length wordlist ≤ presses keys)%nat →
     ∃ fs' unknown st how,
       classify_words fs wordlist keys = Returned fs' unknown st how).
Proof.
  intros Hload. unfold classify_words. rewrite Hload.
  set (known0 := load_known_words fs KNOWN_WORDS_FILE).
  set (otherbook := load_otherbook_words fs UNKNOWN_WORDS_FILE).
  set (newlist := build_newlist known0 unknown0 otherbook wordlist).
  pose proof (review_loop_decisions newlist (mkSession known0 unknown0 [] [])
                keys (known0, unknown0) eq_refl) as Hdec.
  pose proof (review_loop_blocked newlist (mkSession known0 unknown0 [] [])
                keys) as Hblocked.
  destruct (review_loop _ newlist keys) as [st how]. cbn in Hdec, Hblocked.
  split.
  - intros fs' unknown st' how' Hret.
    pose proof (saved_files fs (known_words st) (unknown_words st))
      as (F1 & F2 & F3).
    destruct how; [| |done]; injection Hret as <- <- <- <-; auto 10.
  - intros Hkeys. destruct how; [by eauto|by eauto|].
    destruct (Hblocked eq_refl) as [Hno Hfew].
    destruct Hkeys as [?|Hmany]; [done|].
    pose proof (build_newlist_spec known0 unknown0 otherbook wordlist)
      as [Hlen _].
    fold newlist in Hlen. lia.
Qed.

(** C1, witness: one word is marked known, one unknown, and the user
    interrupts at the third. *)
Lemma classify_words_saves_on_every_exit_witness :
  let fs : file_system :=
    {[ KNOWN_WORDS_FILE := "alpha" +:+ NL; "other.words" := "beta" +:+ NL ]} in
  let wordlist :=
    [("alpha", "s0"); ("hello", "s1"); ("beta", "s2"); ("gamma", "s3");
     ("delta", "s4")] in
  let keys := [Key 10; Key KEY_LEFT; Key KEY_RIGHT; KeyboardInterrupt] in
  ∃ fs' unknown st how,
    classify_words fs wordlist keys = Returned fs' unknown st how
    ∧ how = LoopInterrupted
    ∧ decisions st = [MarkedKnown "hello"; MarkedUnknown "gamma" "s3"]
    ∧ fs' !! KNOWN_WORDS_FILE = Some ("alpha" +:+ NL +:+ "hello" +:+ NL)
    ∧ fs' !! UNKNOWN_WORDS_FILE
      = Some (writerow ["gamma"; ""; "s3"])
    ∧ fs' !! words_file UNKNOWN_WORDS_FILE = Some ("gamma" +:+ NL).
Proof.
  intros fs wordlist keys.
  destruct (classify_words_saves_on_every_exit fs wordlist keys [])
    as [Hsaved Hreturns]; [reflexivity|].
  destruct Hreturns as (fs' & unknown & st & how & Hret);
    [left; apply list_elem_of_In; cbn; tauto|].
  exists fs', unknown, st, how. split; [exact Hret|].
  destruct (Hsaved _ _ _ _ Hret) as (_ & _ & _ & F1 & F2 & F3).
  rewrite F1, F2, F3.
  vm_compute in Hret. injection Hret as <- <- <- <-.
  repeat split; vm_compute; reflexivity.
Defined.

(** Every sidecar file of the directory is read by
    [load_otherbook_words]: the name it leaves out is the one of the CSV
    file, which no sidecar has. *)
Lemma otherbook_covers_sidecars (fs : file_system) (name content word : string) :
  fs !! name = Some content →
  in_working_directory name = true →
  ends_with ".words" name = true →
  word ∈ file_words content →
  word ∈ load_otherbook_words fs UNKNOWN_WORDS_FILE.
Proof.
  intros Hfile Hcwd Hname Hword. unfold load_otherbook_words.
  apply elem_of_union_list. exists (file_words content). split; [|done].
  apply list_elem_of_fmap. exists (name, content). split; [done|].
  apply elem_of_map_to_list, map_lookup_filter_Some. split; [done|].
  split; [done|]. cbn. intros ->. vm_compute in Hname. discriminate Hname.
Qed.

(** C5 (amended): in every call that gets into the review loop, a word
    shown to the user is neither in the loaded known words, nor a key of
    the loaded unknown words, nor a line of any other document's sidecar
    file; and a word of another document's sidecar file that is in the
    known words or among the unknown keys afterwards was already in the
    loaded known words or unknown keys. *)
Theorem classify_words_presents_only_new_words
    (fs : file_system) (wordlist : list (string * string))
    (keys : list key_event) (st : session) :
  session_of (classify_words fs wordlist keys) = Some st →
  ∃ unknown0,
    load_unknown_words fs UNKNOWN_WORDS_FILE = Return unknown0
    ∧ (∀ w, w ∈ presented st →
            (w ∉ load_known_words fs KNOWN_WORDS_FILE)
            ∧ (w ∉ dict_keys unknown0)
            ∧ ¬ in_other_sidecar fs w)
    ∧ (∀ w, w ∈ known_words st ∨ w ∈ dict_keys (unknown_words st) →
            in_other_sidecar fs w →
            w ∈ load_known_words fs KNOWN_WORDS_FILE ∨ w ∈ dict_keys unknown0).
Proof.
  unfold classify_words.
  destruct (load_unknown_words fs UNKNOWN_WORDS_FILE) as [unknown0|]; [|done].
  set (known0 := load_known_words fs KNOWN_WORDS_FILE).
  set (otherbook := load_otherbook_words fs UNKNOWN_WORDS_FILE).
  set (newlist := build_newlist known0 unknown0 otherbook wordlist).
  pose proof (review_loop_presented newlist (mkSession known0 unknown0 [] [])
                keys) as (shown & Hshown & Hsub & Hk & Hu).
  pose proof (build_newlist_spec known0 unknown0 otherbook wordlist)
    as [_ Hnew]. fold newlist in Hnew.
  destruct (review_loop _ newlist keys) as [st' how]. cbn in Hshown, Hk, Hu.
  intros Hst. assert (st' = st) as -> by (destruct how; by injection Hst).
  clear Hst. exists unknown0. split; [done|].
  assert (∀ w, w ∈ shown →
               (w ∉ known0) ∧ (w ∉ dict_keys unknown0)
               ∧ ¬ in_other_sidecar fs w) as Hfresh.
  { intros w Hw%Hsub%Hnew. unfold already_processed in Hw.
    apply orb_false_iff in Hw as [[H1 H2]%orb_false_iff H3].
    apply bool_decide_eq_false in H1, H3.
    repeat split; [done| |].
    - rewrite <- dict_contains_keys. by rewrite H2.
    - intros (name & content & Hfile & Hcwd & Hname & _ & Hword).
      apply H3. by eapply otherbook_covers_sidecars. }
  split.
  - intros w Hw. apply Hfresh. by rewrite Hshown in Hw.
  - intros w [[?|Hw]%Hk|[?|Hw]%Hu] Hside; auto;
      by destruct (Hfresh w Hw) as (_ & _ & ?).
Qed.

(** C5, witness: the word of the other document's sidecar file is not
    shown. *)
Lemma classify_words_presents_only_new_words_witness :
  let fs : file_system := {[ "other.words" := "beta" +:+ NL ]} in
  let wordlist := [("beta", "s0"); ("hello", "s1")] in
  ∃ st, session_of (classify_words fs wordlist [Key KEY_RIGHT]) = Some st
        ∧ presented st = ["hello"]
        ∧ ¬ in_other_sidecar fs "hello".
Proof.
  intros fs wordlist.
  destruct (session_of (classify_words fs wordlist [Key KEY_RIGHT]))
    as [st|] eqn:Hst; [|vm_compute in Hst; discriminate Hst].
  exists st. split; [reflexivity|].
  destruct (classify_words_presents_only_new_words fs wordlist
              [Key KEY_RIGHT] st Hst) as (unknown0 & _ & Hshown & _).
  vm_compute in Hst. injection Hst as <-.
  split; [reflexivity|]. apply Hshown. cbn. left.
Defined.

(** C5 (as stated) fails: a word that the known-words file and another
    document's sidecar file both hold at the start is still a known word
    after classification. *)
Lemma loaded_known_word_of_other_sidecar_is_kept :
  ¬ (∀ (fs : file_system) (wordlist : list (string * string))
       (keys : list key_event) fs' unknown st how,
       classify_words fs wordlist keys = Returned fs' unknown st how →
       ∀ w, in_other_sidecar fs w →
            (w ∉ known_words st) ∧ (w ∉ dict_keys (unknown_words st))).
Proof.
  intros H.
  set (fs := ({[ KNOWN_WORDS_FILE := "word" +:+ NL;
                 "other.words" := "word" +:+ NL ]} : file_system)).
  destruct (classify_words fs [] []) as [fs' unknown st how|e|st] eqn:Hret.
  2, 3: vm_compute in Hret; discriminate Hret.
  destruct (H fs [] [] fs' unknown st how Hret "word") as [Hk _].
  - exists "other.words", ("word" +:+ NL).
    split; [reflexivity|]. split; [reflexivity|]. split; [reflexivity|].
    split; [intros E; vm_compute in E; discriminate E|].
    apply elem_of_list_to_set. vm_compute. left.
  - apply Hk. vm_compute in Hret. injection Hret as <- <- <- <-.
    cbn. set_solver.
Qed.

(** ** Newline-delimited files *)

Lemma is_LF_eq (c : ascii) : is_LF c = true → c = LF.
Proof.
  unfold is_LF, code. intros H%N.eqb_eq.
  rewrite <- (ascii_N_embedding c), H. reflexivity.
Qed.

Lemma str_app_assoc (s t u : string) : (s +:+ t) +:+ u = s +:+ t +:+ u.
Proof. induction s as [|c s IH]; [done|]. rewrite !str_app_cons. by f_equal. Qed.

Lemma str_app_nil_r (s : string) : s +:+ "" = s.
Proof. induction s as [|c s IH]; [done|]. rewrite str_app_cons. by f_equal. Qed.

Lemma str_forallb_app (p : ascii → bool) (s t : string) :
  str_forallb p (s +:+ t) = str_forallb p s && str_forallb p t.
Proof.
  induction s as [|c s IH]; [done|].
  rewrite str_app_cons. cbn. by rewrite IH, andb_assoc.
Qed.

Lemma universal_newlines_no_CR (s : string) :
  str_forallb (λ c, negb (is_CR c)) s = true → universal_newlines s = s.
Proof.
  unfold universal_newlines. induction s as [|c s IH]; [done|].
  cbn. intros [Hc Hs]%andb_true_iff. apply negb_true_iff in Hc.
  rewrite Hc. destruct (is_LF c) eqn:E.
  - apply is_LF_eq in E as ->. by rewrite IH.
  - by rewrite IH.
Qed.

Lemma lines_keepends_line (w rest : string) :
  no_newline w = true →
  lines_keepends (w +:+ NL +:+ rest) = (w +:+ NL) :: lines_keepends rest.
Proof.
  induction w as [|c w IH]; [done|].
  cbn [no_newline str_forallb]. intros [Hc Hw]%andb_true_iff.
  apply negb_true_iff, orb_false_iff in Hc as [Hlf Hcr].
  rewrite !str_app_cons. cbn [lines_keepends].
  unfold line_ends. rewrite Hlf, Hcr. cbn. by rewrite (IH Hw).
Qed.

Lemma lstrip_length (s : string) :
  (String.length (lstrip s) ≤ String.length s)%nat.
Proof. induction s as [|c s IH]; cbn; [lia|]. destruct (isspace c); cbn; lia. Qed.

Lemma rstrip_length (s : string) :
  (String.length (rstrip s) ≤ String.length s)%nat.
Proof.
  induction s as [|c s IH]; cbn; [lia|].
  destruct (str_is_empty (rstrip s) && isspace c); cbn; lia.
Qed.

Lemma rstrip_app_NL (s : string) : rstrip (s +:+ NL) = rstrip s.
Proof.
  induction s as [|c s IH]; [done|].
  rewrite str_app_cons. cbn [rstrip]. by rewrite IH.
Qed.

Lemma strip_line (w : string) : strip w = w → strip (w +:+ NL) = w.
Proof.
  unfold strip. destruct w as [|c w]; [done|].
  intros H. rewrite str_app_cons. cbn [lstrip] in *.
  destruct (isspace c).
  - pose proof (rstrip_length (lstrip w)). pose proof (lstrip_length w).
    apply (f_equal String.length) in H. cbn in H. lia.
  - rewrite <- str_app_cons. by rewrite rstrip_app_NL.
Qed.

Lemma write_words_no_CR (l : list string) :
  Forall clean_line l →
  str_forallb (λ c, negb (is_CR c)) (write_words l) = true.
Proof.
  induction 1 as [|w l [_ Hw] _ IH]; [done|].
  unfold write_words. cbn. rewrite str_app_assoc, !str_forallb_app.
  fold (write_words l). rewrite IH, andb_true_r.
  clear -Hw. induction w as [|c w IHw]; [done|].
  cbn in *. apply andb_true_iff in Hw as [Hc Hw].
  apply negb_true_iff, orb_false_iff in Hc as [_ ->]. by apply IHw.
Qed.

(** Reading a written word list gives the list back. *)
Lemma stripped_lines_write_words (l : list string) :
  Forall clean_line l → stripped_lines (write_words l) = l.
Proof.
  intros Hl. unfold stripped_lines, text_lines.
  rewrite universal_newlines_no_CR by by apply write_words_no_CR.
  induction Hl as [|w l [Hs Hn] _ IH]; [done|].
  unfold write_words. cbn [fmap list_fmap str_concat].
  rewrite str_app_assoc, lines_keepends_line by done.
  cbn [fmap list_fmap]. rewrite strip_line by done. f_equal. exact IH.
Qed.

Lemma elem_of_insert_sorted (x y : string) (l : list string) :
  y ∈ insert_sorted x l ↔ y = x ∨ y ∈ l.
Proof.
  induction l as [|z l IH]; cbn.
  - rewrite list_elem_of_singleton. split; [auto|]. intros [?|H]; [done|].
    by apply elem_of_nil in H.
  - destruct (String.leb x z); rewrite !elem_of_cons; [done|].
    rewrite IH. tauto.
Qed.

Lemma elem_of_sorted (y : string) (l : list string) : y ∈ sorted l ↔ y ∈ l.
Proof.
  unfold sorted. induction l as [|x l IH]; [done|].
  cbn. rewrite elem_of_insert_sorted, elem_of_cons, IH. done.
Qed.

(** The known words come back when every word is a clean line. *)
Lemma known_words_round_trip (fs : file_system) (file_path : string)
    (known : gset string) :
  (∀ w, w ∈ known → clean_line w) →
  load_known_words (save_known_words fs file_path known) file_path = known.
Proof.
  intros Hclean. unfold load_known_words, save_known_words.
  rewrite lookup_insert_eq.
  rewrite stripped_lines_write_words.
  - apply set_eq. intros w.
    rewrite elem_of_union, elem_of_list_to_set, elem_of_sorted, elem_of_elements.
    set_solver.
  - apply Forall_forall. intros w Hw%elem_of_sorted%elem_of_elements. auto.
Qed.

(** ** The CSV writer and reader *)

Ltac reader_simpl :=
  repeat progress
    (try unfold set_state, parse_save_field;
     cbn [parse_process_char process_start_field bind state field fields]).

Lemma len_app (s t : string) : len (s +:+ t) = len s + len t.
Proof.
  unfold len. induction s as [|c s IH].
  - rewrite str_app_nil. cbn. lia.
  - rewrite str_app_cons. cbn [String.length]. lia.
Qed.

Lemma parse_add_char_ok (st : ParserState) (f : string) (flds : list string)
    (c : ascii) :
  len f < field_limit →
  parse_add_char (mkReader st f flds) c
  = Return (mkReader st (f +:+ String c "") flds).
Proof.
  intros H. unfold parse_add_char. cbn [field state fields].
  by apply N.leb_gt in H as ->.
Qed.

Lemma lines_keepends_nonempty (s : string) : s ≠ "" → lines_keepends s ≠ [].
Proof.
  destruct s as [|c s]; [done|]. intros _. cbn.
  destruct (line_ends c s); [done|]. by destruct (lines_keepends s).
Qed.

Lemma reader_loop_cons_char (self : ReaderObj) (rows : list (list string))
    (c : ascii) (line : string) (rest : list string) :
  reader_loop self rows (String c line :: rest)
  = (let! self := parse_process_char self (Some c) in
     reader_loop self rows (line :: rest)).
Proof. cbn. by destruct (parse_process_char self (Some c)). Qed.

(** A character that ends no line is fed and the text goes on. *)
Lemma reader_step_plain (self : ReaderObj) (rows : list (list string))
    (c : ascii) (s : string) :
  line_ends c s = false → s ≠ "" →
  reader_loop self rows (lines_keepends (String c s))
  = (let! self := parse_process_char self (Some c) in
     reader_loop self rows (lines_keepends s)).
Proof.
  intros Hc Hs. cbn [lines_keepends]. rewrite Hc.
  pose proof (lines_keepends_nonempty s Hs).
  destruct (lines_keepends s) as [|l ls]; [done|].
  apply reader_loop_cons_char.
Qed.

(** Inside quotes the end-of-line mark changes nothing. *)
Lemma reader_eol_in_quotes (f : string) (flds : list string)
    (rows : list (list string)) (ls : list string) :
  reader_loop (mkReader IN_QUOTED_FIELD f flds) rows ("" :: ls)
  = reader_loop (mkReader IN_QUOTED_FIELD f flds) rows ls.
Proof. reflexivity. Qed.

Lemma reader_step_in_quotes (f : string) (flds : list string)
    (rows : list (list string)) (c : ascii) (s : string) :
  is_quotechar c = false → len f < field_limit → s ≠ "" →
  reader_loop (mkReader IN_QUOTED_FIELD f flds) rows
    (lines_keepends (String c s))
  = reader_loop (mkReader IN_QUOTED_FIELD (f +:+ String c "") flds) rows
      (lines_keepends s).
Proof.
  intros Hq Hf Hs. destruct (line_ends c s) eqn:Hc.
  - cbn [lines_keepends]. rewrite Hc, reader_loop_cons_char.
    reader_simpl. rewrite Hq, parse_add_char_ok by done.
    reader_simpl. apply reader_eol_in_quotes.
  - rewrite reader_step_plain by done.
    reader_simpl. rewrite Hq, parse_add_char_ok by done. done.
Qed.

Lemma line_ends_not_newline (c : ascii) (s : string) :
  is_newline c = false → line_ends c s = false.
Proof.
  unfold is_newline, line_ends. intros [-> ->]%orb_false_iff. done.
Qed.

Lemma is_quotechar_not_newline (c : ascii) :
  is_quotechar c = true → is_newline c = false.
Proof.
  unfold is_quotechar, is_newline, is_LF, is_CR. intros ->%N.eqb_eq. done.
Qed.

Lemma str_app_not_nil (s t : string) : t ≠ "" → s +:+ t ≠ "".
Proof. destruct s; [done|]. by rewrite str_app_cons. Qed.

(** The quoted data of a field is read back into the field. *)
Lemma reader_quoted_data (f2 f1 : string) (flds : list string)
    (rows : list (list string)) (tail : string) :
  tail ≠ "" → len (f1 +:+ f2) <= field_limit →
  reader_loop (mkReader IN_QUOTED_FIELD f1 flds) rows
    (lines_keepends (join_append_data f2 +:+ tail))
  = reader_loop (mkReader IN_QUOTED_FIELD (f1 +:+ f2) flds) rows
      (lines_keepends tail).
Proof.
  intros Htail. revert f1.
  induction f2 as [|c f2 IH]; intros f1 Hlen.
  { by rewrite str_app_nil_r. }
  assert (len f1 < field_limit) as Hf1.
  { rewrite len_app in Hlen. unfold len in *. cbn in Hlen. lia. }
  assert (f1 +:+ String c f2 = (f1 +:+ String c "") +:+ f2) as Hassoc
    by by rewrite str_app_assoc.
  rewrite Hassoc in *.
  cbn [join_append_data]. destruct (is_quotechar c) eqn:Hq.
  - rewrite !str_app_cons.
    rewrite reader_step_plain; [|by apply line_ends_not_newline|done].
    reader_simpl. change (is_quotechar DQUOTE) with true. reader_simpl.
    rewrite reader_step_plain;
      [|by apply line_ends_not_newline, is_quotechar_not_newline
       |by apply str_app_not_nil].
    reader_simpl. rewrite Hq, parse_add_char_ok by done. reader_simpl.
    by apply IH.
  - rewrite str_app_cons.
    rewrite reader_step_in_quotes; [|done|done|by apply str_app_not_nil].
    by apply IH.
Qed.

Lemma start_field_quote (st : ParserState) (flds : list string) :
  st = START_RECORD ∨ st = START_FIELD →
  parse_process_char (mkReader st "" flds) (Some DQUOTE)
  = Return (mkReader IN_QUOTED_FIELD "" flds).
Proof. by intros [-> | ->]. Qed.

Lemma is_newline_DQUOTE : is_newline DQUOTE = false.
Proof. reflexivity. Qed.
Lemma is_newline_COMMA : is_newline COMMA = false.
Proof. reflexivity. Qed.
Lemma is_quotechar_DQUOTE : is_quotechar DQUOTE = true.
Proof. reflexivity. Qed.
Lemma is_quotechar_COMMA : is_quotechar COMMA = false.
Proof. reflexivity. Qed.
Lemma is_quotechar_CR : is_quotechar CR = false.
Proof. reflexivity. Qed.
Lemma is_delimiter_COMMA : is_delimiter COMMA = true.
Proof. reflexivity. Qed.
Lemma is_delimiter_CR : is_delimiter CR = false.
Proof. reflexivity. Qed.
Lemma is_newline_CR : is_newline CR = true.
Proof. reflexivity. Qed.
Lemma is_newline_LF : is_newline LF = true.
Proof. reflexivity. Qed.

Create Rewrite HintDb csv_chars.
#[local] Hint Rewrite is_newline_DQUOTE is_newline_COMMA is_quotechar_DQUOTE
  is_quotechar_COMMA is_quotechar_CR is_delimiter_COMMA is_delimiter_CR
  is_newline_CR is_newline_LF : csv_chars.

Ltac reader_step :=
  rewrite reader_step_plain;
  [reader_simpl; autorewrite with csv_chars; reader_simpl
  |first [by apply line_ends_not_newline|reflexivity]
  |first [done|by apply str_app_not_nil]].

(** The closing quote of a record's last field, the line terminator and
    the end-of-line mark complete the row. *)
Lemma reader_end_of_record (f : string) (flds : list string)
    (rows : list (list string)) (more : string) :
  reader_loop (mkReader IN_QUOTED_FIELD f flds) rows
    (lines_keepends (String DQUOTE (String CR (String LF more))))
  = reader_loop parse_reset (rows ++ [flds ++ [f]]) (lines_keepends more).
Proof.
  reader_step. reader_step.
  cbn [lines_keepends]. change (line_ends LF more) with true. cbv iota.
  reflexivity.
Qed.

(** A written record with at least one field is read back as one row. *)
Lemma reader_fields (flds' : list string) :
  ∀ (f : string) (flds : list string) (st : ParserState)
    (rows : list (list string)) (more : string),
  st = START_RECORD ∨ st = START_FIELD →
  Forall within_limit (f :: flds') →
  reader_loop (mkReader st "" flds) rows
    (lines_keepends (join_fields (f :: flds') +:+ lineterminator +:+ more))
  = reader_loop parse_reset (rows ++ [flds ++ f :: flds'])
      (lines_keepends more).
Proof.
  induction flds' as [|f' flds' IH]; intros f flds st rows more Hst Hlim;
    apply Forall_cons in Hlim as [Hf Hlim].
  - cbn [join_fields]. unfold join_append, lineterminator.
    rewrite !str_app_cons, !str_app_assoc, !str_app_cons, !str_app_nil.
    rewrite reader_step_plain;
      [|by apply line_ends_not_newline|by apply str_app_not_nil].
    rewrite (start_field_quote _ _ Hst). reader_simpl.
    rewrite reader_quoted_data by done. rewrite str_app_nil.
    apply reader_end_of_record.
  - change (join_fields (f :: f' :: flds'))
      with (join_append f +:+ String COMMA (join_fields (f' :: flds'))).
    unfold join_append at 1.
    set (tail := lineterminator +:+ more).
    rewrite !str_app_cons, !str_app_assoc, !str_app_cons, !str_app_nil.
    rewrite reader_step_plain;
      [|by apply line_ends_not_newline|by apply str_app_not_nil].
    rewrite (start_field_quote _ _ Hst). reader_simpl.
    rewrite reader_quoted_data by done. rewrite str_app_nil.
    reader_step. reader_step.
    unfold tail. rewrite (IH f' (flds ++ [f]) START_FIELD) by auto.
    by rewrite <- app_assoc.
Qed.

Lemma reader_record (f : string) (flds' : list string)
    (rows : list (list string)) (more : string) :
  Forall within_limit (f :: flds') →
  reader_loop parse_reset rows
    (lines_keepends (writerow (f :: flds') +:+ more))
  = reader_loop parse_reset (rows ++ [f :: flds']) (lines_keepends more).
Proof.
  intros H. unfold writerow. rewrite str_app_assoc.
  unfold parse_reset at 1. by rewrite reader_fields by auto.
Qed.

(** The empty record is a blank line, which is read back as the empty
    row. *)
Lemma reader_empty_record (rows : list (list string)) (more : string) :
  reader_loop parse_reset rows (lines_keepends (writerow [] +:+ more))
  = reader_loop parse_reset (rows ++ [[]]) (lines_keepends more).
Proof.
  unfold writerow, lineterminator. cbn [join_fields].
  rewrite str_app_nil, !str_app_cons, str_app_nil.
  unfold parse_reset. reader_step.
  cbn [lines_keepends]. change (line_ends LF more) with true. cbv iota.
  reflexivity.
Qed.

(** What was written with [QUOTE_ALL] is read back row by row. *)
Lemma reader_written_rows (written : list (list string))
    (rows : list (list string)) :
  Forall (Forall within_limit) written →
  reader_loop parse_reset rows
    (lines_keepends (str_concat (writerow <$> written)))
  = Return (rows ++ written).
Proof.
  intros H. revert rows.
  induction H as [|row written Hrow _ IH]; intros rows.
  - cbn. by rewrite app_nil_r.
  - cbn [fmap list_fmap str_concat]. destruct row as [|f flds'].
    + rewrite reader_empty_record, IH. by rewrite <- app_assoc.
    + rewrite reader_record by auto. rewrite IH. by rewrite <- app_assoc.
Qed.

Lemma csv_reader_writer (written : list (list string)) :
  Forall (Forall within_limit) written →
  csv_reader (raw_lines (str_concat (writerow <$> written))) = Return written.
Proof. intros H. unfold csv_reader, raw_lines. by rewrite reader_written_rows. Qed.

(** ** Saving and reloading the store *)

Lemma dict_set_fresh {V : Type} (d : list (string * V)) (k : string) (v : V) :
  k ∉ dict_keys d → dict_set d k v = d ++ [(k, v)].
Proof.
  unfold dict_keys. induction d as [|[k0 v0] d IH]; [done|]. cbn.
  intros [Hne Hk]%not_elem_of_cons.
  apply String.eqb_neq in Hne as ->. by rewrite IH.
Qed.

Lemma load_rows_of_entries (d2 d1 : list (string * details)) :
  NoDup (dict_keys (d1 ++ d2)) →
  fold_left load_row (csv_row <$> d2) d1 = d1 ++ d2.
Proof.
  revert d1. induction d2 as [|[w [t s]] d2 IH]; intros d1 Hnd.
  - cbn. by rewrite app_nil_r.
  - cbn [fmap list_fmap fold_left csv_row load_row fst snd translation
         sentence].
    rewrite dict_set_fresh.
    + rewrite IH; rewrite <- app_assoc; done.
    + unfold dict_keys in *. rewrite fmap_app in Hnd.
      apply NoDup_app in Hnd as (_ & Hnd & _).
      intros Hw. apply (Hnd _ Hw). cbn. left.
Qed.

Lemma unknown_words_round_trip (fs : file_system)
    (unknown : list (string * details)) :
  NoDup (dict_keys unknown) →
  Forall entry_within_limit unknown →
  load_unknown_words (save_unknown_words fs UNKNOWN_WORDS_FILE unknown)
    UNKNOWN_WORDS_FILE
  = Return unknown.
Proof.
  intros Hnd Hlim. destruct store_files_distinct as (_ & _ & Hne).
  unfold load_unknown_words, save_unknown_words. cbn zeta.
  rewrite lookup_insert_ne by done. rewrite lookup_insert_eq.
  unfold write_csv. rewrite list_fmap_compose.
  rewrite csv_reader_writer.
  - cbn [bind]. by rewrite load_rows_of_entries.
  - apply Forall_fmap. exact Hlim.
Qed.

(** C6 (amended): a set of known words none of which contains a line break
    or starts or ends with a space is the set loaded back after saving it;
    and a store of unknown words whose fields are no longer than the field
    size limit of the [csv] module is the mapping loaded back from the CSV
    file after saving it. *)
Theorem store_round_trip (fs : file_system) (file_path : string)
    (known : gset string) (unknown : list (string * details)) :
  (∀ w, w ∈ known → clean_line w) →
  NoDup (dict_keys unknown) →
  Forall entry_within_limit unknown →
  load_known_words (save_known_words fs file_path known) file_path = known
  ∧ load_unknown_words (save_unknown_words fs UNKNOWN_WORDS_FILE unknown)
      UNKNOWN_WORDS_FILE
    = Return unknown.
Proof.
  intros Hclean Hnd Hlim. split.
  - by apply known_words_round_trip.
  - by apply unknown_words_round_trip.
Qed.

(** C6, witness: a word with an inner space; sentences with a comma,
    quotes and a line break. *)
Lemma store_round_trip_witness :
  let known : gset string := {["alpha"; "two words"]} in
  let unknown :=
    [("gamma", mkDetails "" ("He said " +:+ String DQUOTE "hi"
                             +:+ String DQUOTE (String CR (String LF "twice, ok"))));
     ("delta", mkDetails "d" "")] in
  load_known_words (save_known_words ∅ KNOWN_WORDS_FILE known)
    KNOWN_WORDS_FILE = known
  ∧ load_unknown_words (save_unknown_words ∅ UNKNOWN_WORDS_FILE unknown)
      UNKNOWN_WORDS_FILE
    = Return unknown.
Proof.
  intros known unknown.
  apply (store_round_trip ∅ KNOWN_WORDS_FILE known unknown).
  - intros w [->%elem_of_singleton| ->%elem_of_singleton]%elem_of_union;
      split; reflexivity.
  - cbn. repeat constructor; set_solver.
  - repeat constructor; vm_compute; discriminate.
Defined.

(** A field longer than the limit makes the reader raise. *)
Lemma join_append_data_repeat (n : nat) :
  join_append_data (str_repeat "a" n) = str_repeat "a" n.
Proof. induction n as [|n IH]; [done|]. cbn. by rewrite IH. Qed.

Lemma reader_long_field (n : nat) :
  ∀ (f : string) (flds : list string) (rows : list (list string))
    (tail : string),
  tail ≠ "" → len f <= field_limit → field_limit < len f + N.of_nat n →
  reader_loop (mkReader IN_QUOTED_FIELD f flds) rows
    (lines_keepends (str_repeat "a" n +:+ tail))
  = Raise CsvError.
Proof.
  induction n as [|n IH]; intros f flds rows tail Htail Hle Hgt; [lia|].
  cbn [str_repeat]. rewrite str_app_cons.
  destruct (decide (len f < field_limit)) as [Hlt|Hge].
  - rewrite reader_step_in_quotes; [|done|done|by apply str_app_not_nil].
    apply IH; [done| |]; rewrite len_app; unfold len in *; cbn; lia.
  - rewrite reader_step_plain; [|done|by apply str_app_not_nil].
    reader_simpl. change (is_quotechar "a") with false. cbv iota.
    unfold parse_add_char. cbn [field].
    assert ((field_limit <=? len f) = true) as -> by (apply N.leb_le; lia).
    reflexivity.
Qed.

Lemma over_long_word_is_not_read_back (fs : file_system) (n : nat) :
  field_limit < N.of_nat n →
  load_unknown_words
    (save_unknown_words fs UNKNOWN_WORDS_FILE
       [(str_repeat "a" n, mkDetails "" "")])
    UNKNOWN_WORDS_FILE
  = Raise CsvError.
Proof.
  intros Hn. destruct store_files_distinct as (_ & _ & Hne).
  unfold load_unknown_words, save_unknown_words. cbn zeta.
  rewrite lookup_insert_ne by done. rewrite lookup_insert_eq.
  unfold write_csv, csv_reader, raw_lines.
  cbn [fmap list_fmap str_concat compose].
  unfold writerow, csv_row. cbn [fst snd translation sentence join_fields].
  unfold join_append at 1. rewrite join_append_data_repeat.
  rewrite !str_app_cons, !str_app_assoc.
  unfold parse_reset.
  rewrite reader_step_plain;
    [|by apply line_ends_not_newline|by apply str_app_not_nil].
  rewrite start_field_quote by auto. reader_simpl.
  rewrite reader_long_field; [done|done|done|].
  change (len "") with 0. lia.
Qed.

(** C6 (as stated) fails: the word [" a"] comes back as ["a"], because
    every line is stripped on loading; and a word of 131073 characters
    makes the reader raise instead of returning the mapping. *)
Lemma store_round_trip_fails :
  ¬ (∀ (fs : file_system) (file_path : string) (known : gset string),
       load_known_words (save_known_words fs file_path known) file_path
       = known)
  ∧ ¬ (∀ (fs : file_system) (unknown : list (string * details)),
         NoDup (dict_keys unknown) →
         load_unknown_words
           (save_unknown_words fs UNKNOWN_WORDS_FILE unknown)
           UNKNOWN_WORDS_FILE
         = Return unknown).
Proof.
  split.
  - intros H. specialize (H ∅ KNOWN_WORDS_FILE {[" a"]}).
    apply (f_equal (λ S : gset string, bool_decide ("a" ∈ S))) in H.
    vm_compute in H. discriminate H.
  - intros H. set (n := N.to_nat 131073).
    assert (field_limit < N.of_nat n) as Hn
      by (subst n; rewrite N2Nat.id; reflexivity).
    clearbody n.
    specialize (H ∅ [(str_repeat "a" n, mkDetails "" "")]).
    rewrite over_long_word_is_not_read_back in H by done.
    assert (Raise CsvError = Return [(str_repeat "a" n, mkDetails "" "")])
      as Hbad by (apply H, NoDup_singleton).
    discriminate Hbad.
Qed.

(** ** The exporter and the field size limit *)




(** * Further properties *)

(** ** The OCR extractor *)

Lemma selected_pages_cons {image : Type} (ranges : list py_range) (first : Z)
    (img : image) (images : list image) :
  selected_pages ranges first (img :: images)
  = (if in_every_range ranges first then [(first, img)] else [])
    ++ selected_pages ranges (first + 1) images.
Proof.
  unfold selected_pages. cbn [length].
  rewrite Nat2Z.inj_succ, seqZ_cons by lia.
  rewrite Z.pred_succ. cbn [zip zip_with].
  replace (Z.succ first) with (first + 1)%Z by lia.
  destruct (in_every_range ranges first) eqn:E.
  - by rewrite filter_cons_True by done.
  - by rewrite filter_cons_False by (cbn; congruence).
Qed.

Lemma pages_loop_selected {image : Type} (ocr_page : image → string)
    (ranges : list py_range) (images : list image) (cnt : Z)
    (pages : list Z) (text : string) :
  pages_loop ocr_page ranges cnt pages text images
  = (pages ++ (selected_pages ranges (cnt + 1) images).*1,
     text +:+ str_concat (ocr_page <$> (selected_pages ranges (cnt + 1) images).*2)).
Proof.
  revert cnt pages text.
  induction images as [|img images IH]; intros cnt pages text.
  - cbn. by rewrite app_nil_r, str_app_nil_r.
  - cbn [pages_loop]. rewrite skip_flag_every, selected_pages_cons.
    destruct (in_every_range ranges (cnt + 1)); cbn [negb]; rewrite IH.
    + rewrite !fmap_app, <- app_assoc. cbn [fmap list_fmap fst snd app].
      cbn [str_concat]. by rewrite str_app_assoc.
    + done.
Qed.

(** X1: the extractor processes, in order, exactly the pages whose 1-based
    number lies in every range of the list, and the text it returns is the
    concatenation of the OCR results of these pages in page order. *)
Theorem extract_text_with_pytesseract_selected {image : Type}
    (ocr_page : image → string) (ranges : list py_range)
    (images : list image) :
  extract_text_with_pytesseract ocr_page ranges images
  = ((selected_pages ranges 1 images).*1,
     str_concat (ocr_page <$> (selected_pages ranges 1 images).*2)).
Proof.
  unfold extract_text_with_pytesseract.
  rewrite pages_loop_selected. cbn [app]. by rewrite str_app_nil.
Qed.

(** X2: with an empty list of ranges nothing is skipped: the text is the
    concatenation of the OCR results of all pages. *)
Theorem extract_text_with_pytesseract_no_ranges {image : Type}
    (ocr_page : image → string) (images : list image) :
  extract_text_with_pytesseract ocr_page [] images
  = (seqZ 1 (Z.of_nat (length images)), str_concat (ocr_page <$> images)).
Proof.
  unfold extract_text_with_pytesseract. rewrite pages_loop_selected.
  cbn [app]. rewrite str_app_nil. change (0 + 1)%Z with 1%Z.
  assert (selected_pages [] 1 images
          = zip (seqZ 1 (Z.of_nat (length images))) images) as ->.
  { unfold selected_pages.
    generalize (zip (seqZ 1 (Z.of_nat (length images))) images). intros l. induction l as [|p l IH]; [done|].
    rewrite filter_cons_True by done. by rewrite IH. }
  rewrite fst_zip, snd_zip; [done|rewrite length_seqZ; lia..].
Qed.

(** ** The text cache *)

Lemma is_CR_eq (c : ascii) : is_CR c = true → c = CR.
Proof.
  unfold is_CR, code. intros H%N.eqb_eq.
  rewrite <- (ascii_N_embedding c), H. reflexivity.
Qed.

Lemma re_sub_spaces_go_universal (s : string) (in_run after_cr : bool) :
  (after_cr = true → in_run = true) →
  re_sub_spaces_go in_run (universal_newlines_go after_cr s)
  = re_sub_spaces_go in_run s.
Proof.
  revert in_run after_cr.
  induction s as [|c s IH]; intros in_run after_cr Hflags; [done|].
  cbn [universal_newlines_go].
  destruct (is_CR c) eqn:Hcr.
  - apply is_CR_eq in Hcr as ->. cbn [re_sub_spaces_go].
    change (isspace LF) with true. change (isspace CR) with true. cbv iota.
    destruct in_run; rewrite IH by done; done.
  - destruct (is_LF c) eqn:Hlf.
    + apply is_LF_eq in Hlf as ->. destruct after_cr.
      * rewrite (Hflags eq_refl). cbn [re_sub_spaces_go].
        change (isspace LF) with true. cbv iota. by apply IH.
      * cbn [re_sub_spaces_go]. change (isspace LF) with true. cbv iota.
        destruct in_run; rewrite IH by done; done.
    + cbn [re_sub_spaces_go]. destruct (isspace c).
      * destruct in_run; rewrite IH by done; done.
      * rewrite IH by done. done.
Qed.

Lemma clean_sentence_universal (s : string) :
  clean_sentence (universal_newlines s) = clean_sentence s.
Proof.
  unfold clean_sentence, re_sub_spaces, universal_newlines.
  by rewrite re_sub_spaces_go_universal.
Qed.

Lemma is_terminator_not_newline (c : ascii) :
  is_terminator c = true → is_CR c = false ∧ is_LF c = false.
Proof.
  unfold is_terminator, is_CR, is_LF.
  intros [[H|H]%orb_true_iff|H]%orb_true_iff; apply N.eqb_eq in H;
    rewrite H; done.
Qed.

Lemma re_split_terminators_nonempty (s : string) :
  re_split_terminators s ≠ [].
Proof.
  destruct s as [|c s]; [done|]. cbn.
  destruct (is_terminator c); [done|].
  by destruct (re_split_terminators s).
Qed.

Lemma re_split_terminators_universal (s : string) (after_cr : bool) :
  re_split_terminators (universal_newlines_go after_cr s)
  = match re_split_terminators s with
    | p :: ps => universal_newlines_go after_cr p :: (universal_newlines <$> ps)
    | [] => []
    end.
Proof.
  revert after_cr. induction s as [|c s IH]; intros after_cr; [done|].
  pose proof (re_split_terminators_nonempty s) as Hne.
  cbn [universal_newlines_go re_split_terminators].
  destruct (is_terminator c) eqn:Ht.
  - destruct (is_terminator_not_newline c Ht) as [-> ->].
    cbn [re_split_terminators]. rewrite Ht, IH.
    destruct (re_split_terminators s); done.
  - destruct (is_CR c) eqn:Hcr.
    + cbn [re_split_terminators]. change (is_terminator LF) with false.
      cbv iota. rewrite IH. destruct (re_split_terminators s) as [|p ps]; [done|].
      cbn [universal_newlines_go]. by rewrite Hcr.
    + destruct (is_LF c) eqn:Hlf.
      * destruct after_cr.
        -- rewrite IH. destruct (re_split_terminators s) as [|p ps]; [done|].
           cbn [universal_newlines_go]. by rewrite Hcr, Hlf.
        -- cbn [re_split_terminators]. change (is_terminator LF) with false.
           cbv iota. rewrite IH.
           destruct (re_split_terminators s) as [|p ps]; [done|].
           cbn [universal_newlines_go]. by rewrite Hcr, Hlf.
      * cbn [re_split_terminators]. rewrite Ht, IH.
        destruct (re_split_terminators s) as [|p ps]; [done|].
        cbn [universal_newlines_go]. by rewrite Hcr, Hlf.
Qed.

Lemma sentences_loop_universal (english_words : gset string)
    (sentences : list string) (d : list (string * string)) :
  sentences_loop english_words d (universal_newlines <$> sentences)
  = sentences_loop english_words d sentences.
Proof.
  revert d. induction sentences as [|s rest IH]; intros d; [done|].
  cbn [fmap list_fmap sentences_loop]. rewrite clean_sentence_universal.
  destruct (words_loop english_words (clean_sentence s) d
              (str_split (clean_sentence s))); cbn [bind]; [apply IH|done].
Qed.

Lemma extract_unique_words_universal (english_words : gset string)
    (text : string) :
  extract_unique_words english_words (universal_newlines text)
  = extract_unique_words english_words text.
Proof.
  unfold extract_unique_words, universal_newlines.
  rewrite re_split_terminators_universal.
  pose proof (re_split_terminators_nonempty text) as Hne.
  destruct (re_split_terminators text) as [|p ps]; [done|].
  change (universal_newlines_go false p :: (universal_newlines <$> ps))
    with (universal_newlines <$> (p :: ps)).
  apply sentences_loop_universal.
Qed.

(** X3: reading a text back through a text file, where every ["\r\n"] and
    every lone ["\r"] arrives as ["\n"], does not change the words the
    extractor finds nor the sentences it keeps for them. *)
Theorem extract_unique_words_universal_newlines
    (english_words : gset string) (text : string) :
  extract_unique_words english_words (universal_newlines text)
  = extract_unique_words english_words text.
Proof. apply extract_unique_words_universal. Qed.

Lemma universal_newlines_go_no_CR (s : string) (after_cr : bool) :
  str_forallb (λ c, negb (is_CR c)) (universal_newlines_go after_cr s) = true.
Proof.
  revert after_cr. induction s as [|c s IH]; intros after_cr; [done|].
  cbn [universal_newlines_go]. destruct (is_CR c) eqn:Hcr.
  - cbn. apply IH.
  - destruct (is_LF c); [destruct after_cr|]; cbn; rewrite ?Hcr; cbn;
      apply IH.
Qed.

Lemma universal_newlines_idempotent (s : string) :
  universal_newlines (universal_newlines s) = universal_newlines s.
Proof. apply universal_newlines_no_CR, universal_newlines_go_no_CR. Qed.

Lemma universal_newlines_is_empty (s : string) :
  str_is_empty (universal_newlines s) = str_is_empty s.
Proof.
  destruct s as [|c s]; [done|]. unfold universal_newlines. cbn.
  destruct (is_CR c); [done|]. by destruct (is_LF c).
Qed.

Section TextCache.
Context {image : Type}.
Variable convert_from_path : string → list image.
Variable ocr_page : image → string.
Variable PAGES_RANGES : list py_range.

(** X4: when [extract_text] returns a text that is not empty, calling it
again on the resulting files takes the text from the cache file: no
page goes through OCR, no file changes, the text is the first one with
its line breaks read as ["\n"], and the words extracted from it are the
same. *)
Theorem extract_text_second_run (english_words : gset string)
(fs fs1 : file_system) (pdf_file text1 : string) (source1 : text_source) :
extract_text convert_from_path ocr_page PAGES_RANGES fs pdf_file
= (fs1, text1, source1) →
text1 ≠ "" →
extract_text convert_from_path ocr_page PAGES_RANGES fs1 pdf_file
= (fs1, universal_newlines text1, FromCache)
∧ extract_unique_words english_words (universal_newlines text1)
= extract_unique_words english_words text1.
Proof.
intros Hrun Hne. split; [|apply extract_unique_words_universal].
unfold extract_text, read_cached_text in *.
destruct (fs !! cache_file_of pdf_file) as [content|] eqn:Hfile;
cbn [text_truthy] in Hrun.
- destruct (str_is_empty (universal_newlines content)) eqn:He;
  cbn [negb] in Hrun.
+ destruct (extract_text_with_pytesseract _ _ _) as [pages text].
  injection Hrun as <- <- <-. unfold save_text_to_cache.
  rewrite lookup_insert_eq. cbn [text_truthy].
  rewrite universal_newlines_is_empty.
  destruct text; [done|]. reflexivity.
+ injection Hrun as <- <- <-. rewrite Hfile. cbn [text_truthy default].
  rewrite He. cbn [negb default]. by rewrite universal_newlines_idempotent.
- destruct (extract_text_with_pytesseract _ _ _) as [pages text].
injection Hrun as <- <- <-. unfold save_text_to_cache.
rewrite lookup_insert_eq. cbn [text_truthy].
rewrite universal_newlines_is_empty.
destruct text; [done|]. reflexivity.
Qed.

(** X5: an empty text is never taken from the cache: when the cache file
is missing or empty, the pages go through OCR and the result replaces
the cache file, and when that result is empty the next call does the
same again. *)
Theorem extract_text_empty_cache (fs : file_system) (pdf_file : string) :
(fs !! cache_file_of pdf_file = None
 ∨ fs !! cache_file_of pdf_file = Some "") →
let run := extract_text_with_pytesseract ocr_page PAGES_RANGES
           (convert_from_path pdf_file) in
extract_text convert_from_path ocr_page PAGES_RANGES fs pdf_file
= (<[cache_file_of pdf_file := run.2]> fs, run.2, FromOCR run.1)
∧ (run.2 = "" →
 extract_text convert_from_path ocr_page PAGES_RANGES
   (<[cache_file_of pdf_file := run.2]> fs) pdf_file
 = (<[cache_file_of pdf_file := run.2]> fs, run.2, FromOCR run.1)).
Proof.
intros Hfile run. unfold extract_text, read_cached_text.
fold run. destruct run as [pages text] eqn:Hrun. cbn [fst snd].
split.
- destruct Hfile as [-> | ->]; done.
- intros ->. rewrite lookup_insert_eq. cbn.
unfold save_text_to_cache. by rewrite insert_insert_eq.
Qed.
End TextCache.

(** X4, witness *)
Lemma extract_text_second_run_witness :
  let convert := λ _ : string, ["one. "; "two"] in
  extract_text convert (λ img : string, img) [] {["book.txt" := "cached"]}
    "dir/book.pdf"
  = ({["book.txt" := "cached"]}, "cached", FromCache)
  ∧ extract_unique_words ∅ (universal_newlines "cached")
    = extract_unique_words ∅ "cached".
Proof.
  intros convert.
  apply (extract_text_second_run convert (λ img : string, img) [] ∅
           {["book.txt" := "cached"]} {["book.txt" := "cached"]}
           "dir/book.pdf" "cached" FromCache); [reflexivity|discriminate].
Defined.

(** X5, witness *)
Lemma extract_text_empty_cache_witness :
  let convert := λ _ : string, ["one. "; "two"] in
  extract_text convert (λ img : string, img) [range2 1 2]
    {["book.txt" := ""]} "book.pdf"
  = ({["book.txt" := "one. "]}, "one. ", FromOCR [1%Z]).
Proof.
  intros convert.
  destruct (extract_text_empty_cache convert (λ img : string, img)
              [range2 1 2] {["book.txt" := ""]} "book.pdf") as [H _];
    [right; reflexivity|].
  rewrite H. vm_compute. reflexivity.
Defined.

(** ** The entries of the word extractor *)

Lemma dict_set_elem_of {V : Type} (d : list (string * V)) (k : string) (v : V)
    (e : string * V) :
  e ∈ dict_set d k v → e = (k, v) ∨ e ∈ d.
Proof.
  induction d as [|[k0 v0] d IH]; cbn.
  - intros ->%list_elem_of_singleton. by left.
  - destruct (String.eqb k k0).
    + intros [->|H]%elem_of_cons; [by left|right; by right].
    + intros [->|H]%elem_of_cons; [right; by left|].
      destruct (IH H) as [->|H']; [by left|right; by right].
Qed.

Lemma dict_set_NoDup {V : Type} (d : list (string * V)) (k : string) (v : V) :
  NoDup (dict_keys d) → NoDup (dict_keys (dict_set d k v)).
Proof.
  unfold dict_keys. induction d as [|[k0 v0] d IH]; cbn.
  - intros _. apply NoDup_singleton.
  - intros [Hk0 Hd]%NoDup_cons. destruct (String.eqb k k0) eqn:E; cbn.
    + apply String.eqb_eq in E as ->. by apply NoDup_cons.
    + apply NoDup_cons. split; [|by apply IH].
      intros [Heq|Hin]%(dict_keys_set d k v k0); [|done].
      apply String.eqb_neq in E. congruence.
Qed.

Lemma lower_char_letter (c : ascii) :
  is_ascii_letter c = true → in_range 97 122 (lower_char c) = true.
Proof. destruct c as [[] [] [] [] [] [] [] []]; vm_compute; done. Qed.

Lemma lower_letters (w : string) :
  str_forallb is_ascii_letter w = true →
  Forall (λ c, in_range 97 122 c = true) (chars (lower w)).
Proof.
  induction w as [|c w IH]; cbn; [constructor|].
  intros [Hc Hw]%andb_true_iff. constructor; [by apply lower_char_letter|auto].
Qed.

Lemma lower_length (w : string) : String.length (lower w) = String.length w.
Proof. unfold lower. induction w as [|c w IH]; cbn; [done|]. by rewrite IH. Qed.

Section Entries.
Variable english_words : gset string.
Variable text : string.

Let good (d : list (string * string)) : Prop :=
NoDup (dict_keys d) ∧ ∀ e, e ∈ d → entry_of_text english_words text e.

Lemma add_word_good (piece token : string) (d : list (string * string)) :
piece ∈ re_split_terminators text →
token ∈ str_split (clean_sentence piece) →
good d →
∃ d', add_word english_words (clean_sentence piece) d token = Return d'
      ∧ good d'.
Proof.
intros Hpiece Htoken Hgood. pose proof Hgood as [Hnd Hd]. unfold add_word.
destruct (is_valid_word_returns english_words (clean_word token)) as [v Hv].
rewrite Hv. cbn [bind].
destruct (truthy v) eqn:Ht; [|by exists d].
destruct (negb (dict_contains d (clean_word token))); [|by exists d].
eexists. split; [reflexivity|]. split; [by apply dict_set_NoDup|].
intros e [->|He]%dict_set_elem_of; [|by apply Hd].
assert (accepts english_words (clean_word token)) as Hacc by by exists v.
assert (no_space (clean_word token) = true) as Hns.
{ apply str_filter_no_space. by eapply str_split_no_space. }
destruct (clean_word token) as [|c w] eqn:Hw.
{ vm_compute in Hv. injection Hv as <-. discriminate Ht. }
apply accepts_iff_tests in Hacc
  as (Hlen & _ & _ & _ & _ & Hletters & _ & Hdict).
rewrite <- Hw in *.
apply (re_match_letters_Forall _ Hns) in Hletters as [_ Hletters].
apply str_forallb_Forall in Hletters.
repeat split; cbn [fst snd].
- rewrite lower_length. apply N.leb_le in Hlen. unfold len in Hlen. lia.
- by apply lower_letters.
- exists piece, token. apply bool_decide_eq_true in Hdict.
  repeat split; done.
Qed.

Lemma words_loop_good (piece : string) (tokens : list string)
  (d : list (string * string)) :
piece ∈ re_split_terminators text →
(∀ token, token ∈ tokens → token ∈ str_split (clean_sentence piece)) →
good d →
∃ d', words_loop english_words (clean_sentence piece) d tokens = Return d'
      ∧ good d'.
Proof.
intros Hpiece. revert d.
induction tokens as [|token tokens IH]; intros d Htokens Hd;
  [exists d; split; [reflexivity|exact Hd]|].
cbn [words_loop].
destruct (add_word_good piece token d) as (d1 & -> & Hd1);
  [done|apply Htokens; by left|done|].
cbn [bind]. apply IH; [|done]. intros t Ht. apply Htokens. by right.
Qed.

Lemma sentences_loop_good (pieces : list string) (d : list (string * string)) :
(∀ piece, piece ∈ pieces → piece ∈ re_split_terminators text) →
good d →
∃ d', sentences_loop english_words d pieces = Return d' ∧ good d'.
Proof.
revert d. induction pieces as [|piece pieces IH]; intros d Hpieces Hd;
  [exists d; split; [reflexivity|exact Hd]|].
cbn [sentences_loop].
destruct (words_loop_good piece (str_split (clean_sentence piece)) d)
  as (d1 & -> & Hd1); [apply Hpieces; by left|done|done|].
cbn [bind]. apply IH; [|done]. intros p Hp. apply Hpieces. by right.
Qed.

(** X6: the extractor always returns a mapping; its keys are distinct, each
  key has at least four characters, all of them lowercase ASCII letters,
  and is the lowercase form of a dictionary word that stands, as a cleaned
  token, in the cleaned sentence stored with it, which is a sentence of
  the text. *)
Theorem extract_unique_words_entries :
∃ d, extract_unique_words english_words text = Return d
     ∧ NoDup (dict_keys d)
     ∧ ∀ e, e ∈ d → entry_of_text english_words text e.
Proof.
unfold extract_unique_words.
destruct (sentences_loop_good (re_split_terminators text) [])
  as (d & Hd & Hnd & He); [done| |by exists d].
split; [apply NoDup_nil_2|]. intros e H. by apply elem_of_nil in H.
Qed.
End Entries.

(** ** The review loop *)

Lemma wait_for_key_relevant (keys : list key_event) :
  wait_for_key (filter (λ ev, is_relevant ev = true) keys)
  = match wait_for_key keys with
    | PressedLeft rest =>
        PressedLeft (filter (λ ev, is_relevant ev = true) rest)
    | PressedRight rest =>
        PressedRight (filter (λ ev, is_relevant ev = true) rest)
    | Interrupted => Interrupted
    | NoMoreInput => NoMoreInput
    end.
Proof.
  induction keys as [|[k|] keys IH]; [done| |].
  - cbn [wait_for_key].
    destruct (k =? KEY_LEFT)%Z eqn:EL.
    + rewrite filter_cons_True by (cbn; by rewrite EL).
      cbn [wait_for_key]. by rewrite EL.
    + destruct (k =? KEY_RIGHT)%Z eqn:ER.
      * rewrite filter_cons_True by (cbn; rewrite EL, ER; done).
        cbn [wait_for_key]. by rewrite EL, ER.
      * rewrite filter_cons_False by (cbn; by rewrite EL, ER). exact IH.
  - by rewrite filter_cons_True by done.
Qed.

Lemma review_loop_relevant (newlist : list (string * string)) (st : session)
    (keys : list key_event) :
  review_loop st newlist (filter (λ ev, is_relevant ev = true) keys)
  = review_loop st newlist keys.
Proof.
  revert st keys. induction newlist as [|[word sentence] rest IH];
    intros st keys; [done|].
  cbn [review_loop]. rewrite wait_for_key_relevant.
  destruct (wait_for_key keys); [apply IH|apply IH|done|done].
Qed.

(** X7: keys other than LEFT and RIGHT change nothing: the call behaves as
    on the input with these keys removed. *)
Theorem classify_words_ignores_other_keys (fs : file_system)
    (wordlist : list (string * string)) (keys : list key_event) :
  classify_words fs wordlist (filter (λ ev, is_relevant ev = true) keys)
  = classify_words fs wordlist keys.
Proof.
  unfold classify_words.
  destruct (load_unknown_words fs UNKNOWN_WORDS_FILE) as [unknown0|]; [|done].
  by rewrite review_loop_relevant.
Qed.

Lemma build_newlist_keys (known : gset string)
    (unknown : list (string * details)) (otherbook : gset string)
    (wordlist : list (string * string)) :
  NoDup (dict_keys (build_newlist known unknown otherbook wordlist))
  ∧ ∀ w, w ∈ dict_keys (build_newlist known unknown otherbook wordlist) ↔
         w ∈ dict_keys wordlist
         ∧ already_processed known unknown otherbook w = false.
Proof.
  unfold build_newlist.
  assert (∀ acc : list (string * string),
    let r := fold_left
      (λ newlist entry,
         if already_processed known unknown otherbook entry.1 then newlist
         else dict_set newlist entry.1 entry.2) wordlist acc in
    (NoDup (dict_keys acc) → NoDup (dict_keys r))
    ∧ ∀ w, w ∈ dict_keys r ↔
           w ∈ dict_keys acc
           ∨ (w ∈ dict_keys wordlist
              ∧ already_processed known unknown otherbook w = false)) as H.
  { induction wordlist as [|[w0 s0] wordlist IH]; intros acc;
      cbn -[dict_keys].
    - split; [done|]. intros w. split; [by left|].
      intros [?|[Hw _]]; [done|]. by apply elem_of_nil in Hw.
    - destruct (already_processed known unknown otherbook w0) eqn:E.
      + destruct (IH acc) as [IH1 IH2]. split; [done|].
        intros w. rewrite IH2. unfold dict_keys at 3. cbn.
        rewrite elem_of_cons. split; [intros [?|[? ?]]; auto|].
        intros [?|[[->|?] ?]]; [auto|congruence|auto].
      + destruct (IH (dict_set acc w0 s0)) as [IH1 IH2]. split.
        * intros Hnd. by apply IH1, dict_set_NoDup.
        * intros w. rewrite IH2, dict_keys_set. unfold dict_keys at 4. cbn.
          rewrite elem_of_cons. split.
          -- intros [[->|?]|[? ?]]; auto.
          -- intros [?|[[->|?] ?]]; auto. }
  destruct (H []) as [H1 H2]. split; [apply H1, NoDup_nil_2|].
  intros w. rewrite H2. split; [|by right].
  intros [Hw|?]; [by apply elem_of_nil in Hw|done].
Qed.

(** What a run of the review loop over fresh words leaves: the decided
    words are a prefix of [newlist]; unless the loop completed, the next
    word was shown and left undecided. *)
Lemma review_loop_run (newlist : list (string * string)) (st : session)
    (keys : list key_event) :
  NoDup (dict_keys newlist) →
  (∀ w, w ∈ dict_keys newlist → w ∉ dict_keys (unknown_words st)) →
  ∃ ds shown tail,
    let (st', how) := review_loop st newlist keys in
    decisions st' = decisions st ++ ds
    ∧ known_words st' = list_to_set (known_of ds) ∪ known_words st
    ∧ unknown_words st' = unknown_words st ++ unknown_of ds
    ∧ presented st' = presented st ++ (decided_word <$> ds) ++ shown
    ∧ dict_keys newlist = (decided_word <$> ds) ++ shown ++ tail
    ∧ unknown_of ds ⊆ (λ e, (e.1, mkDetails "" e.2)) <$> newlist
    ∧ match how with
      | LoopCompleted => shown = [] ∧ tail = []
      | _ => ∃ w, shown = [w]
      end.
Proof.
  revert st keys. induction newlist as [|[word sentence] rest IH];
    intros st keys Hnd Hfresh.
  { exists [], [], []. cbn. rewrite !app_nil_r. repeat split; set_solver. }
  unfold dict_keys in Hnd. cbn in Hnd. apply NoDup_cons in Hnd as [Hword Hnd].
  cbn [review_loop].
  destruct (wait_for_key keys) as [keys'|keys'| |].
  - destruct (IH (mark_known word (present word st)) keys' Hnd)
      as (ds & shown & tail & H).
    { intros w Hw. apply Hfresh. unfold dict_keys. cbn. by right. }
    exists (MarkedKnown word :: ds), shown, tail.
    destruct (review_loop _ rest keys') as [st' how].
    destruct H as (H1 & H2 & H3 & H4 & H5 & H6 & H7). cbn in *.
    rewrite H1, H2, H3, H4. unfold dict_keys in *. rewrite H5.
    repeat split; [by rewrite <- app_assoc|set_solver|
                   by rewrite <- app_assoc|set_solver|done].
  - destruct (IH (mark_unknown word sentence (present word st)) keys' Hnd)
      as (ds & shown & tail & H).
    { intros w Hw. unfold mark_unknown, present. cbn [unknown_words].
      rewrite dict_keys_set. intros [->|Hin].
      - by apply Hword.
      - revert Hin. apply Hfresh. unfold dict_keys. cbn. by right. }
    exists (MarkedUnknown word sentence :: ds), shown, tail.
    destruct (review_loop _ rest keys') as [st' how].
    destruct H as (H1 & H2 & H3 & H4 & H5 & H6 & H7). cbn in *.
    rewrite H1, H2, H3, H4. unfold dict_keys in *. rewrite H5.
    rewrite dict_set_fresh by (apply Hfresh; cbn; by left).
    repeat split; [by rewrite <- app_assoc|by rewrite <- app_assoc|
                   by rewrite <- app_assoc|set_solver|done].
  - exists [], [word], (dict_keys rest). cbn. rewrite !app_nil_r.
    repeat split; [set_solver|set_solver|by exists word].
  - exists [], [word], (dict_keys rest). cbn. rewrite !app_nil_r.
    repeat split; [set_solver|set_solver|by exists word].
Qed.

(** The same for a call of [classify_words]. *)
Lemma classify_words_run (fs : file_system)
    (wordlist : list (string * string)) (keys : list key_event)
    (unknown0 : list (string * details)) :
  load_unknown_words fs UNKNOWN_WORDS_FILE = Return unknown0 →
  let known0 := load_known_words fs KNOWN_WORDS_FILE in
  let otherbook := load_otherbook_words fs UNKNOWN_WORDS_FILE in
  let newlist := build_newlist known0 unknown0 otherbook wordlist in
  ∃ st how ds shown tail,
    classify_words fs wordlist keys
    = match how with
      | LoopBlocked => Blocked st
      | _ => Returned
               (save_unknown_words
                  (save_known_words fs KNOWN_WORDS_FILE (known_words st))
                  UNKNOWN_WORDS_FILE (unknown_words st))
               (unknown_words st) st how
      end
    ∧ decisions st = ds
    ∧ known_words st = list_to_set (known_of ds) ∪ known0
    ∧ unknown_words st = unknown0 ++ unknown_of ds
    ∧ presented st = (decided_word <$> ds) ++ shown
    ∧ dict_keys newlist = (decided_word <$> ds) ++ shown ++ tail
    ∧ unknown_of ds ⊆ (λ e, (e.1, mkDetails "" e.2)) <$> newlist
    ∧ match how with
      | LoopCompleted => shown = [] ∧ tail = []
      | _ => ∃ w, shown = [w]
      end.
Proof.
  intros Hload known0 otherbook newlist. unfold classify_words.
  rewrite Hload. fold known0 otherbook newlist.
  destruct (build_newlist_keys known0 unknown0 otherbook wordlist)
    as [Hnd Hkeys]. fold newlist in Hnd, Hkeys.
  destruct (review_loop_run newlist (mkSession known0 unknown0 [] []) keys Hnd)
    as (ds & shown & tail & H).
  { intros w [_ Hw]%Hkeys. cbn [unknown_words].
    unfold already_processed in Hw.
    apply orb_false_iff in Hw as [[_ Hw]%orb_false_iff _].
    rewrite <- dict_contains_keys. by rewrite Hw. }
  destruct (review_loop _ newlist keys) as [st how].
  exists st, how, ds, shown, tail. cbn in H.
  destruct H as (H1 & H2 & H3 & H4 & H5 & H6 & H7).
  split; [by destruct how|done].
Qed.

(** ** Invariants of the interactive classifier *)

Lemma classify_words_run_session (fs : file_system)
    (wordlist : list (string * string)) (keys : list key_event)
    (st st' : session) (how : loop_end) :
  classify_words fs wordlist keys
  = match how with
    | LoopBlocked => Blocked st
    | _ => Returned
             (save_unknown_words
                (save_known_words fs KNOWN_WORDS_FILE (known_words st))
                UNKNOWN_WORDS_FILE (unknown_words st))
             (unknown_words st) st how
    end →
  session_of (classify_words fs wordlist keys) = Some st' → st' = st.
Proof. intros ->. destruct how; by intros [= <-]. Qed.

Lemma session_of_loads (fs : file_system)
    (wordlist : list (string * string)) (keys : list key_event)
    (st : session) :
  session_of (classify_words fs wordlist keys) = Some st →
  ∃ unknown0, load_unknown_words fs UNKNOWN_WORDS_FILE = Return unknown0.
Proof.
  unfold classify_words.
  destruct (load_unknown_words fs UNKNOWN_WORDS_FILE); [by eexists|done].
Qed.

Lemma known_of_decided (ds : list decision) (w : string) :
  w ∈ known_of ds → w ∈ decided_word <$> ds.
Proof.
  unfold known_of. rewrite list_elem_of_omap, list_elem_of_fmap.
  intros (d & Hd & Hw). exists d. split; [|done].
  destruct d; by simplify_eq/=.
Qed.

Lemma unknown_of_decided (ds : list decision) (w : string) :
  w ∈ dict_keys (unknown_of ds) → w ∈ decided_word <$> ds.
Proof.
  unfold dict_keys, unknown_of. rewrite !list_elem_of_fmap.
  intros ([w' d'] & -> & (d & Hd & Hw)%list_elem_of_omap).
  exists d. split; [|done]. destruct d; by simplify_eq/=.
Qed.

Lemma decided_known_or_unknown (ds : list decision) (w : string) :
  w ∈ decided_word <$> ds → w ∈ known_of ds ∨ w ∈ dict_keys (unknown_of ds).
Proof.
  induction ds as [|d ds IH]; cbn; [by intros ?%elem_of_nil|].
  intros [->|Hw]%elem_of_cons.
  - destruct d; cbn; [left|right]; by left.
  - destruct (IH Hw) as [H|H]; [left|right]; destruct d; cbn; try done;
      by right.
Qed.

Lemma known_of_not_unknown_of (ds : list decision) (w : string) :
  NoDup (decided_word <$> ds) →
  w ∈ known_of ds → w ∉ dict_keys (unknown_of ds).
Proof.
  induction ds as [|d ds IH]; cbn; [by intros _ ?%elem_of_nil|].
  intros [Hd Hnd]%NoDup_cons. destruct d as [w0|w0 s0]; cbn.
  - intros [->|Hw]%elem_of_cons; [|by apply IH].
    by intros ?%unknown_of_decided.
  - intros Hw [->|Hin]%elem_of_cons; [|by apply (IH Hnd Hw)].
    by apply known_of_decided in Hw.
Qed.

(** X8: the classifier keeps the known words and the unknown words apart:
    when no loaded known word is a key of the loaded unknown words, no known
    word is a key of the unknown words afterwards, however the call ends. *)
Theorem classify_words_keeps_known_and_unknown_apart (fs : file_system)
    (wordlist : list (string * string)) (keys : list key_event)
    (unknown0 : list (string * details)) (st : session) :
  load_unknown_words fs UNKNOWN_WORDS_FILE = Return unknown0 →
  (∀ w, w ∈ load_known_words fs KNOWN_WORDS_FILE → w ∉ dict_keys unknown0) →
  session_of (classify_words fs wordlist keys) = Some st →
  ∀ w, w ∈ known_words st → w ∉ dict_keys (unknown_words st).
Proof.
  intros Hload Hapart Hst w.
  destruct (classify_words_run fs wordlist keys unknown0 Hload)
    as (st' & how & ds & shown & tail & Hrun & _ & Hk & Hu & _ & Hkeys & _).
  apply (classify_words_run_session _ _ _ _ _ _ Hrun) in Hst as ->.
  destruct (build_newlist_keys (load_known_words fs KNOWN_WORDS_FILE) unknown0
              (load_otherbook_words fs UNKNOWN_WORDS_FILE) wordlist)
    as [Hnd Hnew].
  rewrite Hkeys in Hnd. apply NoDup_app in Hnd as (Hnd & _ & _).
  assert (∀ w, w ∈ decided_word <$> ds →
               (w ∉ load_known_words fs KNOWN_WORDS_FILE)
               ∧ (w ∉ dict_keys unknown0)) as Hfresh.
  { intros w' Hw'.
    assert (w' ∈ dict_keys
              (build_newlist (load_known_words fs KNOWN_WORDS_FILE) unknown0
                 (load_otherbook_words fs UNKNOWN_WORDS_FILE) wordlist))
      as [_ Hp]%Hnew by (rewrite Hkeys; set_solver).
    unfold already_processed in Hp.
    apply orb_false_iff in Hp as [[H1 H2]%orb_false_iff _].
    apply bool_decide_eq_false in H1. split; [done|].
    rewrite <- dict_contains_keys. by rewrite H2. }
  rewrite Hk, Hu. unfold dict_keys. rewrite fmap_app.
  intros [Hw%elem_of_list_to_set|Hw]%elem_of_union
         [Hin|Hin]%elem_of_app.
  - destruct (Hfresh w) as [_ H]; [by apply known_of_decided|]. by apply H.
  - by apply (known_of_not_unknown_of ds w Hnd Hw).
  - by apply (Hapart w Hw).
  - destruct (Hfresh w) as [H _]; [by apply unknown_of_decided|]. by apply H.
Qed.

(** X8, witness *)
Lemma classify_words_keeps_known_and_unknown_apart_witness :
  let fs : file_system := {[ KNOWN_WORDS_FILE := "alpha" +:+ NL ]} in
  let wordlist := [("alpha", "s0"); ("hello", "s1"); ("gamma", "s2")] in
  let keys := [Key KEY_LEFT; Key KEY_RIGHT] in
  ∃ st, session_of (classify_words fs wordlist keys) = Some st
        ∧ ∀ w, w ∈ known_words st → w ∉ dict_keys (unknown_words st).
Proof.
  intros fs wordlist keys.
  destruct (session_of (classify_words fs wordlist keys)) as [st|] eqn:Hst;
    [|vm_compute in Hst; discriminate Hst].
  exists st. split; [reflexivity|].
  apply (classify_words_keeps_known_and_unknown_apart fs wordlist keys []);
    [reflexivity| |exact Hst].
  intros w _. apply not_elem_of_nil.
Defined.

Lemma build_newlist_entries (known : gset string)
    (unknown : list (string * details)) (otherbook : gset string)
    (wordlist : list (string * string)) :
  build_newlist known unknown otherbook wordlist ⊆ wordlist.
Proof.
  unfold build_newlist.
  assert (∀ acc : list (string * string),
    fold_left
      (λ newlist entry,
         if already_processed known unknown otherbook entry.1 then newlist
         else dict_set newlist entry.1 entry.2) wordlist acc
    ⊆ acc ++ wordlist) as H.
  { induction wordlist as [|[w0 s0] wordlist IH]; intros acc; cbn.
    - by rewrite app_nil_r.
    - destruct (already_processed known unknown otherbook w0).
      + intros e He%IH. set_solver.
      + intros e [He|He]%IH%elem_of_app; [|set_solver].
        apply dict_set_elem_of in He. set_solver. }
  intros e He%H. by rewrite app_nil_l in He.
Qed.

(** X9: the classifier never drops or changes what it loaded: the loaded
    unknown entries stay where they are, the entries it adds follow them,
    each with an empty translation and with a word and sentence of
    [wordlist], and every loaded known word is still known. *)
Theorem classify_words_keeps_loaded_entries (fs : file_system)
    (wordlist : list (string * string)) (keys : list key_event)
    (st : session) :
  session_of (classify_words fs wordlist keys) = Some st →
  ∃ unknown0 added,
    load_unknown_words fs UNKNOWN_WORDS_FILE = Return unknown0
    ∧ unknown_words st = unknown0 ++ added
    ∧ Forall (λ e, translation e.2 = ""
                   ∧ (e.1, sentence e.2) ∈ wordlist) added
    ∧ load_known_words fs KNOWN_WORDS_FILE ⊆ known_words st.
Proof.
  intros Hst. destruct (session_of_loads _ _ _ _ Hst) as [unknown0 Hload].
  destruct (classify_words_run fs wordlist keys unknown0 Hload)
    as (st' & how & ds & shown & tail & Hrun & _ & Hk & Hu & _ & _ & Hsub & _).
  apply (classify_words_run_session _ _ _ _ _ _ Hrun) in Hst as ->.
  exists unknown0, (unknown_of ds).
  repeat split; [done|done| |rewrite Hk; set_solver].
  apply Forall_forall. intros e He%Hsub.
  apply list_elem_of_fmap in He as ([w s] & -> & He). cbn.
  split; [done|]. by apply build_newlist_entries in He.
Qed.

(** X9, witness *)
Lemma classify_words_keeps_loaded_entries_witness :
  let fs : file_system :=
    {[ KNOWN_WORDS_FILE := "alpha" +:+ NL;
       UNKNOWN_WORDS_FILE := "beta,b,s" +:+ NL ]} in
  let wordlist := [("hello", "s1"); ("gamma", "s2")] in
  let keys := [Key KEY_RIGHT; KeyboardInterrupt] in
  ∃ st added,
    session_of (classify_words fs wordlist keys) = Some st
    ∧ unknown_words st = [("beta", mkDetails "b" "s")] ++ added
    ∧ load_known_words fs KNOWN_WORDS_FILE ⊆ known_words st.
Proof.
  intros fs wordlist keys.
  destruct (session_of (classify_words fs wordlist keys)) as [st|] eqn:Hst;
    [|vm_compute in Hst; discriminate Hst].
  destruct (classify_words_keeps_loaded_entries fs wordlist keys st Hst)
    as (unknown0 & added & Hload & Hu & _ & Hk).
  exists st, added. split; [reflexivity|].
  vm_compute in Hload. injection Hload as <-. by split.
Defined.

(** X10: after a session that ran to its end nothing is left to ask: with
    the known and unknown words it ends with, the filter that builds the
    list of words to present lets no word of [wordlist] through. *)
Theorem classify_words_completed_leaves_nothing (fs fs' : file_system)
    (wordlist : list (string * string)) (keys : list key_event)
    (unknown : list (string * details)) (st : session) :
  classify_words fs wordlist keys = Returned fs' unknown st LoopCompleted →
  build_newlist (known_words st) (unknown_words st)
    (load_otherbook_words fs UNKNOWN_WORDS_FILE) wordlist
  = [].
Proof.
  intros Hret.
  assert (session_of (classify_words fs wordlist keys) = Some st) as Hst
    by by rewrite Hret.
  destruct (session_of_loads _ _ _ _ Hst) as [unknown0 Hload].
  destruct (classify_words_run fs wordlist keys unknown0 Hload)
    as (st' & how & ds & shown & tail & Hrun & _ & Hk & Hu & _ & Hkeys & _
        & Hhow).
  pose proof (classify_words_run_session _ _ _ _ _ _ Hrun Hst) as <-.
  assert (how = LoopCompleted) as ->
    by (rewrite Hret in Hrun; destruct how; by simplify_eq).
  destruct Hhow as [-> ->]. rewrite !app_nil_r in Hkeys.
  set (otherbook := load_otherbook_words fs UNKNOWN_WORDS_FILE) in *.
  destruct (build_newlist_keys (load_known_words fs KNOWN_WORDS_FILE) unknown0
              otherbook wordlist) as [_ Hnew].
  destruct (build_newlist_keys (known_words st) (unknown_words st)
              otherbook wordlist) as [_ Hnew'].
  destruct (build_newlist (known_words st) (unknown_words st) otherbook
              wordlist) as [|[w s] l]; [done|].
  exfalso. destruct (Hnew' w) as [[Hw Hp] _]; [unfold dict_keys; cbn; by left|].
  unfold already_processed in Hp.
  apply orb_false_iff in Hp as [[H1 H2]%orb_false_iff H3].
  apply bool_decide_eq_false in H1.
  assert (w ∉ dict_keys (unknown_words st)) as H2'
    by (rewrite <- dict_contains_keys; by rewrite H2).
  rewrite Hk in H1. rewrite Hu in H2'. unfold dict_keys in H2'.
  rewrite fmap_app in H2'.
  assert (w ∈ decided_word <$> ds) as Hdec.
  { rewrite <- Hkeys. apply Hnew. split; [done|].
    unfold already_processed. rewrite H3, orb_false_r.
    apply orb_false_iff. split.
    - apply bool_decide_eq_false. set_solver.
    - apply not_true_iff_false. rewrite dict_contains_keys. set_solver. }
  apply decided_known_or_unknown in Hdec as [?|?]; set_solver.
Qed.

(** X10, witness *)
Lemma classify_words_completed_leaves_nothing_witness :
  let fs : file_system := {[ "other.words" := "beta" +:+ NL ]} in
  let wordlist := [("hello", "s1"); ("beta", "s0"); ("gamma", "s2")] in
  let keys := [Key KEY_RIGHT; Key 7; Key KEY_LEFT] in
  ∃ st, session_of (classify_words fs wordlist keys) = Some st
        ∧ build_newlist (known_words st) (unknown_words st)
            (load_otherbook_words fs UNKNOWN_WORDS_FILE) wordlist
          = [].
Proof.
  intros fs wordlist keys.
  destruct (classify_words fs wordlist keys) as [fs' unknown st how|e|st]
    eqn:Hret.
  2, 3: vm_compute in Hret; discriminate Hret.
  assert (how = LoopCompleted) as ->
    by (vm_compute in Hret; by injection Hret as _ _ _ <-).
  exists st. split; [reflexivity|].
  exact (classify_words_completed_leaves_nothing fs fs' wordlist keys unknown
           st Hret).
Defined.

(** X11: no word listed in a [.words] file of the working directory is
    presented, and this holds for the sidecar file of the current document
    as well: the name that [load_otherbook_words] leaves out is the name of
    the CSV file, which no [.words] file bears. *)
Theorem classify_words_skips_every_sidecar_word (fs : file_system)
    (wordlist : list (string * string)) (keys : list key_event)
    (st : session) (name content w : string) :
  session_of (classify_words fs wordlist keys) = Some st →
  fs !! name = Some content →
  in_working_directory name = true →
  ends_with ".words" name = true →
  w ∈ file_words content →
  w ∉ presented st.
Proof.
  intros Hst Hfile Hcwd Hname Hw Hshown.
  destruct (session_of_loads _ _ _ _ Hst) as [unknown0 Hload].
  destruct (classify_words_run fs wordlist keys unknown0 Hload)
    as (st' & how & ds & shown & tail & Hrun & _ & _ & _ & Hp & Hkeys & _).
  apply (classify_words_run_session _ _ _ _ _ _ Hrun) in Hst as ->.
  destruct (build_newlist_keys (load_known_words fs KNOWN_WORDS_FILE) unknown0
              (load_otherbook_words fs UNKNOWN_WORDS_FILE) wordlist)
    as [_ Hnew].
  destruct (Hnew w) as [[_ Hproc] _].
  { rewrite Hkeys. rewrite Hp in Hshown. set_solver. }
  unfold already_processed in Hproc.
  apply orb_false_iff in Hproc as [_ H3]. apply bool_decide_eq_false in H3.
  apply H3. by eapply otherbook_covers_sidecars.
Qed.

(** X11, witness: a word of the document's own sidecar file that the CSV
    file does not hold is not presented. *)
Lemma classify_words_skips_every_sidecar_word_witness :
  let fs : file_system :=
    {[ words_file UNKNOWN_WORDS_FILE := "hello" +:+ NL ]} in
  let wordlist := [("hello", "s1"); ("gamma", "s2")] in
  ∃ st, session_of (classify_words fs wordlist [Key KEY_LEFT]) = Some st
        ∧ presented st = ["gamma"] ∧ "hello" ∉ presented st.
Proof.
  intros fs wordlist.
  destruct (session_of (classify_words fs wordlist [Key KEY_LEFT]))
    as [st|] eqn:Hst; [|vm_compute in Hst; discriminate Hst].
  exists st. split; [reflexivity|]. split.
  - vm_compute in Hst. by injection Hst as <-.
  - apply (classify_words_skips_every_sidecar_word fs wordlist
             [Key KEY_LEFT] st (words_file UNKNOWN_WORDS_FILE)
             ("hello" +:+ NL) "hello" Hst); [reflexivity..|].
    apply elem_of_list_to_set. vm_compute. left.
Defined.

(** X12: a session that ran to its end decided every word it showed; a
    session that was interrupted (or waits for a key) decided every word it
    showed but the last one, which is neither known nor unknown
    afterwards. *)
Theorem classify_words_last_shown_word_undecided (fs : file_system)
    (wordlist : list (string * string)) (keys : list key_event)
    (st : session) :
  session_of (classify_words fs wordlist keys) = Some st →
  presented st = decided_word <$> decisions st
  ∨ ∃ w, presented st = (decided_word <$> decisions st) ++ [w]
         ∧ (w ∉ known_words st) ∧ (w ∉ dict_keys (unknown_words st)).
Proof.
  intros Hst. destruct (session_of_loads _ _ _ _ Hst) as [unknown0 Hload].
  destruct (classify_words_run fs wordlist keys unknown0 Hload)
    as (st' & how & ds & shown & tail & Hrun & Hds & Hk & Hu & Hp & Hkeys & _
        & Hhow).
  apply (classify_words_run_session _ _ _ _ _ _ Hrun) in Hst as ->.
  destruct (build_newlist_keys (load_known_words fs KNOWN_WORDS_FILE) unknown0
              (load_otherbook_words fs UNKNOWN_WORDS_FILE) wordlist)
    as [Hnd Hnew].
  rewrite Hds, Hp.
  assert (shown = [] ∨ ∃ w, shown = [w]) as [->|[w ->]]
    by (destruct how; [left; by destruct Hhow|by right..]).
  { left. by rewrite app_nil_r. }
  right. exists w. split; [done|].
  destruct (Hnew w) as [[_ Hproc] _]; [rewrite Hkeys; set_solver|].
  unfold already_processed in Hproc.
  apply orb_false_iff in Hproc as [[H1 H2]%orb_false_iff _].
  apply bool_decide_eq_false in H1.
  assert (w ∉ dict_keys unknown0) as H2'
    by (rewrite <- dict_contains_keys; by rewrite H2).
  rewrite Hkeys in Hnd. apply NoDup_app in Hnd as (_ & Hdisj & _).
  assert (w ∉ decided_word <$> ds) as Hnot
    by (intros Hin; apply (Hdisj w Hin); set_solver).
  rewrite Hk, Hu. unfold dict_keys in *. rewrite fmap_app. split.
  - intros [Hin%elem_of_list_to_set%known_of_decided|Hin]%elem_of_union; done.
  - intros [Hin|Hin%unknown_of_decided]%elem_of_app; done.
Qed.

(** X12, witness *)
Lemma classify_words_last_shown_word_undecided_witness :
  let wordlist := [("hello", "s1"); ("gamma", "s2"); ("delta", "s3")] in
  let keys := [Key KEY_LEFT; KeyboardInterrupt] in
  ∃ st, session_of (classify_words ∅ wordlist keys) = Some st
        ∧ presented st = (decided_word <$> decisions st) ++ ["gamma"]
        ∧ "gamma" ∉ known_words st.
Proof.
  intros wordlist keys.
  destruct (session_of (classify_words ∅ wordlist keys)) as [st|] eqn:Hst;
    [|vm_compute in Hst; discriminate Hst].
  exists st. split; [reflexivity|].
  destruct (classify_words_last_shown_word_undecided ∅ wordlist keys st Hst)
    as [H|(w & Hp & Hk & _)].
  - vm_compute in Hst. injection Hst as <-. vm_compute in H. discriminate H.
  - vm_compute in Hst. injection Hst as <-. cbn in *.
    injection Hp as <-. by split.
Defined.

(** ** The known-words file *)

Lemma lines_keepends_shape (s : string) :
  str_forallb (λ c, negb (is_CR c)) s = true →
  ∀ l, l ∈ lines_keepends s →
       ∃ body, no_newline body = true ∧ (l = body ∨ l = body +:+ NL).
Proof.
  induction s as [|c s IH]; cbn [lines_keepends str_forallb].
  { intros _ l Hl. by apply elem_of_nil in Hl. }
  intros [Hc Hs]%andb_true_iff l. apply negb_true_iff in Hc.
  unfold line_ends. rewrite Hc, andb_false_l, orb_false_r.
  destruct (is_LF c) eqn:Hlf.
  - intros [->|Hl]%elem_of_cons; [|by apply IH].
    apply is_LF_eq in Hlf as ->. exists "". split; [done|by right].
  - assert (no_newline (String c "") = true) as Hcn.
    { cbn. unfold is_newline. by rewrite Hlf, Hc. }
    destruct (lines_keepends s) as [|l0 ls].
    + intros ->%list_elem_of_singleton. exists (String c ""). by split; [|left].
    + intros [->|Hl]%elem_of_cons; [|apply (IH Hs); by right].
      destruct (IH Hs l0) as (body & Hbody & Hl0); [by left|].
      exists (String c body). split.
      * cbn in *. apply andb_true_iff in Hcn as [-> _]. done.
      * destruct Hl0 as [-> | ->]; [by left|by right].
Qed.

Lemma lstrip_head (s : string) :
  lstrip s = "" ∨ ∃ c r, lstrip s = String c r ∧ isspace c = false.
Proof.
  induction s as [|c s IH]; [by left|]. cbn.
  destruct (isspace c) eqn:E; [done|]. right. by exists c, s.
Qed.

Lemma lstrip_app_NL (s : string) :
  lstrip (s +:+ NL)
  = if str_is_empty (lstrip s) then "" else lstrip s +:+ NL.
Proof.
  induction s as [|c s IH]; [done|].
  rewrite str_app_cons. cbn [lstrip]. destruct (isspace c); [done|].
  by rewrite str_app_cons.
Qed.

Lemma strip_app_NL (s : string) : strip (s +:+ NL) = strip s.
Proof.
  unfold strip. rewrite lstrip_app_NL.
  destruct (lstrip s) eqn:E; [done|]. cbn [str_is_empty].
  apply rstrip_app_NL.
Qed.

Lemma rstrip_idempotent (s : string) : rstrip (rstrip s) = rstrip s.
Proof.
  induction s as [|c s IH]; [done|]. cbn [rstrip].
  destruct (str_is_empty (rstrip s) && isspace c) eqn:E; [done|].
  cbn [rstrip]. by rewrite IH, E.
Qed.

Lemma rstrip_cons_nonspace (c : ascii) (r : string) :
  isspace c = false → rstrip (String c r) = String c (rstrip r).
Proof. intros H. cbn [rstrip]. by rewrite H, andb_false_r. Qed.

Lemma strip_idempotent (s : string) : strip (strip s) = strip s.
Proof.
  unfold strip. destruct (lstrip_head s) as [->|(c & r & -> & Hc)]; [done|].
  rewrite (rstrip_cons_nonspace c r Hc). cbn [lstrip]. rewrite Hc.
  by rewrite (rstrip_cons_nonspace c _ Hc), rstrip_idempotent.
Qed.

Lemma lstrip_no_newline (s : string) :
  no_newline s = true → no_newline (lstrip s) = true.
Proof.
  induction s as [|c s IH]; [done|]. cbn.
  intros [Hc Hs]%andb_true_iff.
  destruct (isspace c); [by apply IH|]. cbn. by rewrite Hc.
Qed.

Lemma rstrip_no_newline (s : string) :
  no_newline s = true → no_newline (rstrip s) = true.
Proof.
  induction s as [|c s IH]; [done|]. cbn.
  intros [Hc Hs]%andb_true_iff.
  destruct (str_is_empty (rstrip s) && isspace c); [done|].
  cbn. rewrite Hc. by apply IH.
Qed.

(** Every word read from a newline-delimited file is a clean line. *)
Lemma stripped_lines_clean (content w : string) :
  w ∈ stripped_lines content → clean_line w.
Proof.
  unfold stripped_lines, text_lines.
  intros (l & -> & Hl)%list_elem_of_fmap.
  apply lines_keepends_shape in Hl as (body & Hbody & Hl);
    [|apply universal_newlines_go_no_CR].
  assert (strip l = strip body) as ->
    by (destruct Hl as [-> | ->]; [done|apply strip_app_NL]).
  split; [apply strip_idempotent|].
  by apply rstrip_no_newline, lstrip_no_newline.
Qed.

(** X13: whatever a known-words file holds, the set loaded from it is
    loaded again unchanged after it has been saved: loading strips every
    line, so every loaded word is written and read back as it is. *)
Theorem load_known_words_stable (fs fs' : file_system) (file_path : string) :
  load_known_words
    (save_known_words fs' file_path (load_known_words fs file_path)) file_path
  = load_known_words fs file_path.
Proof.
  apply known_words_round_trip. intros w. unfold load_known_words.
  destruct (fs !! file_path) as [content|]; [|set_solver].
  rewrite elem_of_union, elem_of_list_to_set.
  intros [Hw|Hw]; [set_solver|]. by eapply stripped_lines_clean.
Qed.

(** ** The unknown-words file *)

Lemma dict_get_set {V : Type} (d : list (string * V)) (k k' : string) (v : V) :
  dict_get (dict_set d k v) k'
  = if String.eqb k' k then Some v else dict_get d k'.
Proof.
  induction d as [|[k0 v0] d IH]; cbn; [done|].
  destruct (String.eqb k k0) eqn:E; cbn.
  - apply String.eqb_eq in E as <-. by destruct (String.eqb k' k).
  - rewrite IH. destruct (String.eqb k' k0) eqn:E0; [|done].
    apply String.eqb_eq in E0 as ->. rewrite String.eqb_sym in E.
    by rewrite E.
Qed.

Lemma load_rows_NoDup (rows : list (list string))
    (d : list (string * details)) :
  NoDup (dict_keys d) → NoDup (dict_keys (fold_left load_row rows d)).
Proof.
  revert d. induction rows as [|row rows IH]; intros d Hd; [done|].
  cbn [fold_left]. apply IH.
  destruct row as [|w [|t [|s row]]]; cbn [load_row]; try done.
  by apply dict_set_NoDup.
Qed.

Lemma load_rows_get (rows : list (list string)) (d : list (string * details))
    (w : string) :
  dict_get (fold_left load_row rows d) w
  = match last (rows_for w rows) with
    | Some x => Some x
    | None => dict_get d w
    end.
Proof.
  revert d. induction rows as [|row rows IH]; intros d; [done|].
  cbn [fold_left]. rewrite IH. unfold rows_for. cbn [omap list_omap].
  fold (rows_for w rows).
  destruct row as [|w0 [|t [|s row]]]; cbn [load_row entry_of_row]; try done.
  rewrite dict_get_set. destruct (String.eqb w w0); [|done].
  rewrite last_cons. by destruct (last (rows_for w rows)).
Qed.

(** X14: when the CSV file is read as [rows], the loaded mapping has
    distinct keys, and a word is mapped to the translation and sentence of
    the last row that holds it as first field among the rows with three
    fields or more; a word of no such row is not a key. *)
Theorem load_unknown_words_last_row_wins (fs : file_system)
    (file_path content : string) (rows : list (list string)) :
  fs !! file_path = Some content →
  csv_reader (raw_lines content) = Return rows →
  ∃ d, load_unknown_words fs file_path = Return d
       ∧ NoDup (dict_keys d)
       ∧ ∀ w, dict_get d w = last (rows_for w rows).
Proof.
  intros Hfile Hrows. unfold load_unknown_words. rewrite Hfile, Hrows.
  cbn [bind]. eexists. split; [reflexivity|]. split.
  - apply load_rows_NoDup, NoDup_nil_2.
  - intros w. rewrite load_rows_get. by destruct (last (rows_for w rows)).
Qed.

(** X14, witness: a word given twice, a short row and a row with a fourth
    field. *)
Lemma load_unknown_words_last_row_wins_witness :
  let content :=
    "cat,one,s1" +:+ NL +:+ "x,y" +:+ NL +:+ "dog,d,s2,extra" +:+ NL
    +:+ "cat,two,s3" +:+ NL in
  load_unknown_words {["book.csv" := content]} "book.csv"
  = Return [("cat", mkDetails "two" "s3"); ("dog", mkDetails "d" "s2")].
Proof.
  intros content.
  destruct (load_unknown_words_last_row_wins {["book.csv" := content]}
              "book.csv" content
              [["cat"; "one"; "s1"]; ["x"; "y"]; ["dog"; "d"; "s2"; "extra"];
               ["cat"; "two"; "s3"]])
    as (d & Hd & _); [reflexivity|vm_compute; reflexivity|].
  rewrite Hd. vm_compute in Hd. by injection Hd as <-.
Defined.

(** ** Running the translator again *)

Section TranslatorAgain.
Variables translate1 translate2 : string → option string.

(** An entry still lacks a translation after a pass of the translator when
it lacked one before and the call failed or gave the empty string. *)
Lemma translated_from_lacks (e e' : string * details) :
translated_from translate1 e e' →
lacks_translation e' = true
↔ lacks_translation e = true ∧ default "" (translate1 e.1) = "".
Proof.
unfold translated_from, lacks_translation.
intros (_ & _ & H).
destruct (str_is_empty (translation e.2)) eqn:He.
- rewrite H. split.
+ intros Ht. split; [done|]. by destruct (default "" (translate1 e.1)).
+ intros [_ ->]. done.
- subst e'. rewrite He. split; [done|]. by intros [? _].
Qed.

Lemma still_lacking (unknown unknown' : list (string * details)) :
Forall2 (translated_from translate1) unknown unknown' →
(filter (λ e, lacks_translation e = true) unknown').*1
= (filter (λ e, lacks_translation e = true
 ∧ default "" (translate1 e.1) = "") unknown).*1.
Proof.
induction 1 as [|e e' l l' He Hl IH]; [done|].
pose proof (translated_from_lacks e e' He) as Hiff.
destruct He as (Hw & _ & _).
destruct (decide (lacks_translation e' = true)) as [Hy|Hn].
- rewrite (filter_cons_True _ e') by done.
rewrite (filter_cons_True _ e) by (by apply Hiff).
cbn. by rewrite IH, Hw.
- rewrite (filter_cons_False _ e') by done.
rewrite (filter_cons_False _ e) by (by rewrite <- Hiff).
done.
Qed.

Lemma translate_loop_translated (unknown : list (string * details)) :
Forall (λ e, lacks_translation e = false) unknown →
translate_loop translate2 unknown = (unknown, []).
Proof.
induction 1 as [|[w d] l He Hl IH]; [done|].
cbn [translate_loop translate_entry].
unfold lacks_translation in He. cbn in He. rewrite He, IH. done.
Qed.
End TranslatorAgain.

Lemma save_unknown_words_again (fs : file_system) (file_path : string)
(unknown : list (string * details)) :
save_unknown_words (save_unknown_words fs file_path unknown) file_path unknown
= save_unknown_words fs file_path unknown.
Proof.
unfold save_unknown_words. apply map_eq. intros k.
destruct (decide (k = words_file file_path)) as [->|Hk].
{ by rewrite !lookup_insert_eq. }
rewrite !(lookup_insert_ne _ (words_file file_path)) by done.
destruct (decide (k = file_path)) as [->|Hk'].
{ by rewrite !lookup_insert_eq. }
by repeat (rewrite lookup_insert_ne by done).
Qed.

(** X15: when [translate_words] runs a second time on what the first run
left, the translator is called exactly for the words that had no
translation before the first run and whose first call failed or returned
the empty string, in the order of the store; a word that got a translation
is never sent again, whatever the translator of the second run is. *)
Theorem translate_words_retries_failures
(translate1 translate2 : string → option string) (fs : file_system)
(unknown : list (string * details)) :
let '(fs1, unknown1, _) := translate_words translate1 fs unknown in
let '(_, _, evs2) := translate_words translate2 fs1 unknown1 in
omap called evs2
= (filter (λ e, lacks_translation e = true
 ∧ default "" (translate1 e.1) = "") unknown).*1.
Proof.
unfold translate_words.
pose proof (translate_loop_spec translate1 unknown) as H1.
destruct (translate_loop translate1 unknown) as [unknown1 evs1].
destruct H1 as (_ & _ & _ & H1).
pose proof (translate_loop_spec translate2 unknown1) as H2.
destruct (translate_loop translate2 unknown1) as [unknown2 evs2].
destruct H2 as (_ & H2 & _ & _).
rewrite omap_app, H2. cbn. rewrite app_nil_r.
by apply still_lacking.
Qed.

(** X16: if the translator gave a non-empty translation for every word
that lacked one, a second run of [translate_words] calls no translator and
prints nothing, returns the same entries and writes the two files with the
content they have. *)
Theorem translate_words_second_run_changes_nothing
(translate1 translate2 : string → option string) (fs : file_system)
(unknown : list (string * details)) :
(∀ e, e ∈ unknown → lacks_translation e = true →
 default "" (translate1 e.1) ≠ "") →
let '(fs1, unknown1, _) := translate_words translate1 fs unknown in
translate_words translate2 fs1 unknown1
= (fs1, unknown1, [SaveStore unknown1]).
Proof.
intros Hall. unfold translate_words.
pose proof (translate_loop_spec translate1 unknown) as H1.
destruct (translate_loop translate1 unknown) as [unknown1 evs1].
destruct H1 as (_ & _ & _ & H1).
assert (Forall (λ e, lacks_translation e = false) unknown1) as Hdone.
{ clear evs1. induction H1 as [|e e' l l' He Hl IH]; [done|].
constructor.
- pose proof (translated_from_lacks translate1 e e' He) as Hiff.
destruct (lacks_translation e') eqn:Hy; [|done].
destruct Hiff as [Hiff _]. destruct (Hiff eq_refl) as [Hl1 Hl2].
exfalso. apply (Hall e); [left|done|done].
- apply IH. intros e0 He0. apply Hall. by right. }
rewrite (translate_loop_translated translate2 unknown1 Hdone).
by rewrite save_unknown_words_again.
Qed.

Lemma translate_words_second_run_changes_nothing_witness :
let translate1 := λ w : string, Some ("ru-" +:+ w) in
let translate2 := λ _ : string, None in
let unknown := [("planet", mkDetails "" "The planet was icy");
 ("mouse", mkDetails "mysh" "A mouse ran")] in
let '(fs1, unknown1, _) := translate_words translate1 ∅ unknown in
translate_words translate2 fs1 unknown1 = (fs1, unknown1, [SaveStore unknown1]).
Proof.
apply (translate_words_second_run_changes_nothing
 (λ w : string, Some ("ru-" +:+ w)) (λ _ : string, None) ∅
 [("planet", mkDetails "" "The planet was icy");
 ("mouse", mkDetails "mysh" "A mouse ran")]).
intros e He _. cbn.
apply elem_of_cons in He as [->|He]; [done|].
apply elem_of_cons in He as [->|He]; [done|].
by apply elem_of_nil in He.
Defined.

(** ** The exporter script *)

Lemma parse_process_char_raises (self : ReaderObj) (c : option ascii)
(e : exn) :
parse_process_char self c = Raise e → e = CsvError.
Proof.
unfold parse_process_char, process_start_field, parse_add_char.
destruct (state self), c as [ch|]; cbn;
repeat (match goal with
 | |- context [if ?b then _ else _] => destruct b
 end; cbn);
congruence.
Qed.

Lemma process_line_raises (line : string) :
∀ (self : ReaderObj) (e : exn),
process_line self line = Raise e → e = CsvError.
Proof.
induction line as [|c line IH]; intros self e; cbn; [done|].
destruct (parse_process_char self (Some c)) as [self'|e'] eqn:Hc; cbn.
- apply IH.
- intros [= <-]. by apply parse_process_char_raises in Hc.
Qed.

Lemma reader_loop_raises (lines : list string) :
∀ (self : ReaderObj) (rows : list (list string)) (e : exn),
reader_loop self rows lines = Raise e → e = CsvError.
Proof.
induction lines as [|line rest IH]; intros self rows e; cbn.
- by destruct (negb (str_is_empty (field self))
 || is_IN_QUOTED_FIELD (state self)).
- destruct (process_line self line) as [self1|e1] eqn:H1; cbn.
+ destruct (parse_process_char self1 None) as [self2|e2] eqn:H2; cbn.
* destruct (is_START_RECORD (state self2)); apply IH.
* intros [= <-]. by apply parse_process_char_raises in H2.
+ intros [= <-]. by apply process_line_raises in H1.
Qed.

Lemma str_forallb_drop (p : ascii → bool) (s : string) :
∀ n, str_forallb p s = true → str_forallb p (str_drop n s) = true.
Proof.
induction s as [|c s IH]; intros [|n]; cbn; try done.
intros [_ H]%andb_prop. by apply IH.
Qed.

Lemma str_forallb_take (p : ascii → bool) (s : string) :
∀ n, str_forallb p s = true → str_forallb p (str_take n s) = true.
Proof.
induction s as [|c s IH]; intros [|n]; cbn; try done.
intros [Hc H]%andb_prop. rewrite Hc. by apply IH.
Qed.

(** Nothing that satisfies [p] is left after the last character that
satisfies it. *)
Lemma str_drop_rfind_succ (p : ascii → bool) (s : string) :
str_forallb (λ c, negb (p c)) (str_drop (rfind_succ p s) s) = true.
Proof.
induction s as [|c s IH]; [done|].
cbn [rfind_succ].
destruct (rfind_succ p s) as [|n] eqn:Hn.
- destruct (p c) eqn:Hc; cbn.
+ exact IH.
+ rewrite Hc. exact IH.
- exact IH.
Qed.

Lemma basename_no_slash (path : string) :
in_working_directory (basename path) = true.
Proof. apply str_drop_rfind_succ. Qed.

Lemma splitext_root_no_slash (path : string) :
in_working_directory path = true →
in_working_directory (splitext_root path) = true.
Proof.
unfold splitext_root, in_working_directory. intros H.
destruct (_ <? _)%nat; [|done].
destruct (str_forallb is_dot _); [done|].
by apply str_forallb_take.
Qed.

Lemma ends_with_app (suffix s : string) : ends_with suffix (s +:+ suffix) = true.
Proof.
induction s as [|c s IH].
- rewrite str_app_nil. destruct suffix; cbn [ends_with]; by rewrite String.eqb_refl.
- rewrite str_app_cons. cbn [ends_with]. rewrite IH. apply orb_true_r.
Qed.

Lemma create_anki_deck_from_csv_outcome (fs : file_system)
(csv_file : string) :
let deck_name := splitext_root (basename csv_file) in
∃ deck_id model_id,
generate_unique_id (deck_name +:+ "deck") = Return deck_id
∧ generate_unique_id (deck_name +:+ "model") = Return model_id
∧ deck_id < 4294967296 ∧ model_id < 4294967296
∧ create_anki_deck_from_csv fs csv_file
= match fs !! csv_file with
 | None => Raise FileNotFoundError
 | Some content =>
 match csv_reader (text_lines content) with
 | Raise _ => Raise CsvError
 | Return rows =>
 let model :=
 mkModel model_id (deck_name +:+ " Model")
 ["Word"; "Translation"; "Sentence"] in
 Return (mkPackage (deck_name +:+ ".apkg") model
 (fold_left (add_row model) rows (mkDeck deck_id deck_name [])))
 end
 end.
Proof.
intros deck_name.
destruct (generate_unique_id_total (deck_name +:+ "deck")) as (n1 & H1 & Hn1).
destruct (generate_unique_id_total (deck_name +:+ "model")) as (n2 & H2 & Hn2).
exists n1, n2. repeat (split; [done|]).
unfold create_anki_deck_from_csv. fold deck_name. rewrite H1, H2. cbn.
destruct (fs !! csv_file) as [content|]; [|done].
destruct (csv_reader (text_lines content)) as [rows|e] eqn:Hr; cbn; [done|].
by rewrite (reader_loop_raises _ _ _ _ Hr).
Qed.

(** X17: a package that [create_anki_deck_from_csv] builds is named after
the last component of the CSV path without its extension: the deck bears
that name, the model that name followed by [" Model"], and the output file
is that name followed by [".apkg"], a file of the working directory
whatever directory the CSV file is in; both identifiers are below 2^32. *)
Theorem create_anki_deck_from_csv_package (fs : file_system)
(csv_file : string) (p : Package) :
create_anki_deck_from_csv fs csv_file = Return p →
let name := splitext_root (basename csv_file) in
deck_name (package_deck p) = name
∧ model_name (package_model p) = name +:+ " Model"
∧ output_file p = name +:+ ".apkg"
∧ in_working_directory (output_file p) = true
∧ ends_with ".apkg" (output_file p) = true
∧ deck_id (package_deck p) < 4294967296
∧ model_id (package_model p) < 4294967296.
Proof.
intros Hp name.
destruct (create_anki_deck_from_csv_outcome fs csv_file)
as (n1 & n2 & _ & _ & Hn1 & Hn2 & H).
rewrite H in Hp. clear H. fold name in Hp.
destruct (fs !! csv_file) as [content|]; [|done].
destruct (csv_reader (text_lines content)) as [rows|e]; [|done].
injection Hp as <-. cbn [package_deck package_model output_file model_name
 model_id].
assert (∀ rows d, deck_name (fold_left (add_row (mkModel n2 (name +:+ " Model")
 ["Word"; "Translation"; "Sentence"])) rows d) = deck_name d
 ∧ deck_id (fold_left (add_row (mkModel n2 (name +:+ " Model")
 ["Word"; "Translation"; "Sentence"])) rows d) = deck_id d) as Hfold.
{ clear. induction rows as [|row rows IH]; intros d; [done|].
cbn [fold_left]. destruct (IH (add_row (mkModel n2 (name +:+ " Model")
 ["Word"; "Translation"; "Sentence"]) d row)) as [-> ->].
by destruct row as [|? [|? [|? ?]]]. }
destruct (Hfold rows (mkDeck n1 name [])) as [-> ->]. cbn.
repeat split; try done.
- unfold in_working_directory. rewrite str_forallb_app.
apply andb_true_intro. split; [|done].
apply splitext_root_no_slash, basename_no_slash.
- apply ends_with_app.
Qed.

Lemma create_anki_deck_from_csv_package_witness :
let fs : file_system :=
 {["books/ice planet.csv" := "planet,planeta,The planet was icy" +:+ NL]} in
∃ p, create_anki_deck_from_csv fs "books/ice planet.csv" = Return p
∧ deck_name (package_deck p) = "ice planet"
∧ output_file p = "ice planet.apkg"
∧ deck_id (package_deck p) < 4294967296.
Proof.
intros fs.
destruct (create_anki_deck_from_csv fs "books/ice planet.csv") as [p|e] eqn:Hp;
[|by vm_compute in Hp].
exists p. split; [done|].
destruct (create_anki_deck_from_csv_package fs "books/ice planet.csv" p Hp)
as (H1 & _ & H3 & _ & _ & H6 & _).
repeat split; [exact H1|exact H3|exact H6].
Defined.


(** ** What the reader returns is within the field limit *)

Lemma parse_process_char_within_limit (self self' : ReaderObj)
    (c : option ascii) :
  reader_within_limit self →
  parse_process_char self c = Return self' →
  reader_within_limit self'.
Proof.
  unfold reader_within_limit, within_limit.
  intros [Hf Hfs].
  assert (len "" <= field_limit) as H0 by done.
  assert (Forall (λ s, len s <= field_limit) (fields self ++ [field self]))
    as Hsave by (apply Forall_app; split; [done|by constructor]).
  assert (∀ ch, (field_limit <=? len (field self)) = false →
                len (field self +:+ String ch "") <= field_limit) as Hadd.
  { intros ch Hlt. apply N.leb_gt in Hlt. rewrite len_app.
    change (len (String ch "")) with 1. lia. }
  unfold parse_process_char, process_start_field, parse_add_char.
  destruct (state self), c as [ch|]; cbn;
    repeat (match goal with
            | |- context [if ?b then _ else _] => destruct b eqn:?
            end; cbn);
    intros [= <-]; cbn; auto.
Qed.

Lemma process_line_within_limit (line : string) :
  ∀ self self' : ReaderObj,
    reader_within_limit self →
    process_line self line = Return self' →
    reader_within_limit self'.
Proof.
  induction line as [|c line IH]; intros self self' Hself; cbn.
  - by intros [= <-].
  - destruct (parse_process_char self (Some c)) as [self1|e] eqn:Hc; cbn;
      [|done].
    apply IH. by apply (parse_process_char_within_limit self _ (Some c)).
Qed.

Lemma reader_loop_within_limit (lines : list string) :
  ∀ (self : ReaderObj) (rows rows' : list (list string)),
    reader_within_limit self →
    Forall (Forall within_limit) rows →
    reader_loop self rows lines = Return rows' →
    Forall (Forall within_limit) rows'.
Proof.
  induction lines as [|line rest IH]; intros self rows rows' Hself Hrows; cbn.
  - destruct Hself as [Hf Hfs].
    destruct (negb (str_is_empty (field self))
              || is_IN_QUOTED_FIELD (state self)); intros [= <-]; [|done].
    apply Forall_app. split; [done|]. constructor; [|done].
    apply Forall_app. split; [done|by constructor].
  - destruct (process_line self line) as [self1|e1] eqn:H1; cbn; [|done].
    destruct (parse_process_char self1 None) as [self2|e2] eqn:H2; cbn;
      [|done].
    pose proof (process_line_within_limit _ _ _ Hself H1) as Hself1.
    pose proof (parse_process_char_within_limit _ _ _ Hself1 H2) as Hself2.
    destruct (is_START_RECORD (state self2)).
    + apply IH.
      * split; [done|constructor].
      * apply Forall_app. split; [done|]. constructor; [|done].
        apply Hself2.
    + by apply IH.
Qed.

Lemma csv_reader_within_limit (lines : list string)
    (rows : list (list string)) :
  csv_reader lines = Return rows → Forall (Forall within_limit) rows.
Proof.
  apply reader_loop_within_limit; [|constructor].
  split; [done|constructor].
Qed.

Lemma dict_set_Forall {V : Type} (P : string * V → Prop)
    (d : list (string * V)) (k : string) (v : V) :
  Forall P d → P (k, v) → Forall P (dict_set d k v).
Proof.
  intros Hd Hkv. apply Forall_forall. intros e He.
  apply dict_set_elem_of in He as [->|He]; [done|].
  by apply (proj1 (Forall_forall _ _) Hd).
Qed.

Lemma load_rows_within_limit (rows : list (list string)) :
  ∀ d : list (string * details),
    Forall (Forall within_limit) rows →
    Forall entry_within_limit d →
    Forall entry_within_limit (fold_left load_row rows d).
Proof.
  induction rows as [|row rows IH]; intros d Hrows Hd; [done|].
  apply Forall_cons in Hrows as [Hrow Hrows].
  cbn [fold_left]. apply IH; [done|].
  destruct row as [|w [|t [|s more]]]; try done.
  cbn [load_row]. apply dict_set_Forall; [done|].
  apply Forall_cons in Hrow as [Hw Hrow].
  apply Forall_cons in Hrow as [Ht Hrow].
  apply Forall_cons in Hrow as [Hs _].
  unfold entry_within_limit, csv_row. cbn. by repeat constructor.
Qed.

Lemma load_unknown_words_entries (fs : file_system) (file_path : string)
    (unknown : list (string * details)) :
  load_unknown_words fs file_path = Return unknown →
  NoDup (dict_keys unknown) ∧ Forall entry_within_limit unknown.
Proof.
  unfold load_unknown_words.
  destruct (fs !! file_path) as [content|].
  - destruct (csv_reader (raw_lines content)) as [rows|e] eqn:Hr; cbn; [|done].
    intros [= <-]. split.
    + apply load_rows_NoDup. constructor.
    + apply load_rows_within_limit; [|constructor].
      by apply (csv_reader_within_limit (raw_lines content)).
  - intros [= <-]. split; constructor.
Qed.

(** ** The unknown-words file, saved and loaded again *)

(** X19: whatever file [load_unknown_words] accepts, the mapping it returns
is loaded again unchanged after [save_unknown_words] has written it: the
reader returns no field above its size limit, and no key twice. *)
Theorem load_unknown_words_stable (fs fs' : file_system) (file_path : string)
    (unknown : list (string * details)) :
  load_unknown_words fs file_path = Return unknown →
  load_unknown_words (save_unknown_words fs' UNKNOWN_WORDS_FILE unknown)
    UNKNOWN_WORDS_FILE
  = Return unknown.
Proof.
  intros [Hnodup Hlimit]%load_unknown_words_entries.
  by apply unknown_words_round_trip.
Qed.

Lemma load_unknown_words_stable_witness :
  let fs : file_system :=
    {[ "old.csv" := "planet,,The icy planet" +:+ NL +:+ "short,row" +:+ NL
                    +:+ "planet,planeta,Another one,extra" +:+ NL ]} in
  ∃ unknown,
    load_unknown_words fs "old.csv" = Return unknown
    ∧ load_unknown_words (save_unknown_words ∅ UNKNOWN_WORDS_FILE unknown)
        UNKNOWN_WORDS_FILE
      = Return unknown.
Proof.
  intros fs.
  destruct (load_unknown_words fs "old.csv") as [unknown|e] eqn:Hload;
    [|by vm_compute in Hload].
  exists unknown. split; [reflexivity|].
  exact (load_unknown_words_stable fs ∅ "old.csv" unknown Hload).
Defined.

(** ** The next session *)

Lemma load_known_words_lookup (fs1 fs2 : file_system) (file_path : string) :
  fs1 !! file_path = fs2 !! file_path →
  load_known_words fs1 file_path = load_known_words fs2 file_path.
Proof. unfold load_known_words. by intros ->. Qed.

Lemma unknown_of_sublist (ds : list decision) :
  dict_keys (unknown_of ds) `sublist_of` decided_word <$> ds.
Proof.
  induction ds as [|[w|w s] ds IH]; [done| |].
  - by apply sublist_cons.
  - by apply sublist_skip.
Qed.

(** X20: the files that [classify_words] writes give the next session what
this one ended with.  If every word of the word list is a line of its own
(no line break inside, no space at either end) and words and sentences are
within the field size limit of the csv reader, then after the call returns
(the loop completed or the user interrupted it) [load_known_words] gives
the known words of the session and [load_unknown_words] the unknown words
it returned, in the same order. *)
Theorem classify_words_resumes (fs fs' : file_system)
    (wordlist : list (string * string)) (keys : list key_event)
    (unknown : list (string * details)) (st : session) (how : loop_end) :
  (∀ w s, (w, s) ∈ wordlist →
          clean_line w ∧ within_limit w ∧ within_limit s) →
  classify_words fs wordlist keys = Returned fs' unknown st how →
  unknown = unknown_words st
  ∧ load_known_words fs' KNOWN_WORDS_FILE = known_words st
  ∧ load_unknown_words fs' UNKNOWN_WORDS_FILE = Return unknown.
Proof.
  intros Hwl Hret.
  assert (session_of (classify_words fs wordlist keys) = Some st) as Hst
    by by rewrite Hret.
  destruct (session_of_loads _ _ _ _ Hst) as [unknown0 Hload].
  destruct (classify_words_run fs wordlist keys unknown0 Hload)
    as (st' & how' & ds & shown & tail & Hrun & _ & Hk & Hu & _ & Hkeys & Hnew
        & _).
  pose proof (classify_words_run_session _ _ _ _ _ _ Hrun Hst) as <-.
  assert (fs' = save_unknown_words
                  (save_known_words fs KNOWN_WORDS_FILE (known_words st))
                  UNKNOWN_WORDS_FILE (unknown_words st)
          ∧ unknown = unknown_words st) as [-> ->]
    by (rewrite Hret in Hrun; destruct how'; by simplify_eq).
  clear Hrun Hret Hst.
  set (known0 := load_known_words fs KNOWN_WORDS_FILE) in *.
  set (otherbook := load_otherbook_words fs UNKNOWN_WORDS_FILE) in *.
  destruct (build_newlist_keys known0 unknown0 otherbook wordlist)
    as [Hnodup Hin].
  pose proof (build_newlist_entries known0 unknown0 otherbook wordlist)
    as Hsub.
  set (newlist := build_newlist known0 unknown0 otherbook wordlist) in *.
  destruct (load_unknown_words_entries _ _ _ Hload) as [Hnodup0 Hlimit0].
  assert (∀ w, w ∈ decided_word <$> ds →
               w ∈ dict_keys wordlist ∧ w ∉ dict_keys unknown0) as Hdec.
  { intros w Hw.
    assert (w ∈ dict_keys newlist) as Hw'
      by (rewrite Hkeys; apply elem_of_app; by left).
    apply Hin in Hw' as [Hw' Hp]. split; [done|].
    unfold already_processed in Hp.
    apply orb_false_iff in Hp as [[_ Hp]%orb_false_iff _].
    rewrite <- dict_contains_keys. by rewrite Hp. }
  split; [done|]. split.
  - rewrite (load_known_words_lookup _
               (save_known_words fs KNOWN_WORDS_FILE (known_words st))).
    + apply known_words_round_trip. intros w. rewrite Hk.
      intros [Hw|Hw]%elem_of_union.
      * apply elem_of_list_to_set, known_of_decided, Hdec in Hw as [Hw _].
        unfold dict_keys in Hw. apply list_elem_of_fmap in Hw as ([w' s] & -> & Hw).
        by apply Hwl in Hw as [? _].
      * unfold known0, load_known_words in Hw.
        destruct (fs !! KNOWN_WORDS_FILE) as [content|]; [|set_solver].
        apply elem_of_union in Hw as [Hw|Hw]; [set_solver|].
        apply elem_of_list_to_set in Hw. by apply stripped_lines_clean in Hw.
    + destruct (saved_files fs (known_words st) (unknown_words st))
        as [-> _].
      unfold save_known_words. by rewrite lookup_insert_eq.
  - apply unknown_words_round_trip.
    + rewrite Hu. unfold dict_keys. rewrite fmap_app.
      apply NoDup_app. split; [done|]. split.
      * intros w Hw0 Hw. apply unknown_of_decided, Hdec in Hw as [_ Hw].
        by apply Hw.
      * pose proof (unknown_of_sublist ds) as Hs. unfold dict_keys in Hs.
        eapply sublist_NoDup; cycle 1; [exact Hs|].
        rewrite Hkeys in Hnodup. by apply NoDup_app in Hnodup as [? _].
    + rewrite Hu. apply Forall_app. split; [done|].
      apply Forall_forall. intros e He.
      apply Hnew, list_elem_of_fmap in He as ([w s] & -> & He).
      apply Hsub, Hwl in He as (_ & Hw & Hs).
      unfold entry_within_limit, csv_row. cbn. by repeat constructor.
Qed.

Lemma classify_words_resumes_witness :
  let fs : file_system := {[ ".KNOWN_WORDS.txt" := "mouse" +:+ NL ]} in
  let wordlist := [("planet", "The planet was icy"); ("space", "In space")] in
  let keys := [Key KEY_RIGHT; Key KEY_LEFT] in
  ∃ fs' unknown st how,
    classify_words fs wordlist keys = Returned fs' unknown st how
    ∧ load_known_words fs' KNOWN_WORDS_FILE = known_words st
    ∧ load_unknown_words fs' UNKNOWN_WORDS_FILE = Return unknown.
Proof.
  intros fs wordlist keys.
  assert (∀ w s, (w, s) ∈ wordlist →
                 clean_line w ∧ within_limit w ∧ within_limit s) as Hwl.
  { intros w s Hw. unfold wordlist in Hw.
    apply elem_of_cons in Hw as [Hw|Hw].
    - injection Hw as -> ->.
      split; [split; reflexivity|].
      split; vm_compute; intros H; discriminate H.
    - apply elem_of_cons in Hw as [Hw|Hw]; [|by apply elem_of_nil in Hw].
      injection Hw as -> ->.
      split; [split; reflexivity|].
      split; vm_compute; intros H; discriminate H. }
  destruct (classify_words fs wordlist keys) as [fs' unknown st how|e|st]
    eqn:Hret.
  2, 3: vm_compute in Hret; discriminate Hret.
  exists fs', unknown, st, how. split; [reflexivity|].
  exact (proj2 (classify_words_resumes fs fs' wordlist keys unknown st how Hwl
                  Hret)).
Defined.

(** ** The sidecar file of another document *)

Lemma otherbook_covers (fs : file_system) (file_path name content word : string) :
  fs !! name = Some content →
  in_working_directory name = true →
  ends_with ".words" name = true →
  name ≠ path_name file_path →
  word ∈ file_words content →
  word ∈ load_otherbook_words fs file_path.
Proof.
  intros Hfile Hcwd Hname Hother Hword. unfold load_otherbook_words.
  apply elem_of_union_list. exists (file_words content). split; [|done].
  apply list_elem_of_fmap. exists (name, content). split; [done|].
  apply elem_of_map_to_list, map_lookup_filter_Some. split; [done|].
  by repeat split.
Qed.

Lemma words_file_in_working_directory (file_path : string) :
  in_working_directory (words_file file_path) = true
  ∧ ends_with ".words" (words_file file_path) = true.
Proof.
  unfold words_file. split; [|apply ends_with_app].
  unfold in_working_directory. rewrite str_forallb_app.
  apply andb_true_intro. split; [|done].
  apply splitext_root_no_slash, basename_no_slash.
Qed.

(** X21: the words saved as unknown for one document are not asked again
for another one.  [save_unknown_words] writes the sidecar file in the
working directory under a name ending in [".words"], so
[load_otherbook_words] finds it when it is called for a path whose last
part, [Path(other_path).name], is another name: if every key of the
mapping is a line of its own, every key is in the set it returns. *)
Theorem saved_unknown_words_are_otherbook_words (fs : file_system)
    (file_path other_path : string) (unknown : list (string * details)) :
  words_file file_path ≠ path_name other_path →
  (∀ w, w ∈ dict_keys unknown → clean_line w) →
  ∀ w, w ∈ dict_keys unknown →
       w ∈ load_otherbook_words (save_unknown_words fs file_path unknown)
             other_path.
Proof.
  intros Hother Hclean w Hw.
  destruct (words_file_in_working_directory file_path) as [Hcwd Hname].
  apply (otherbook_covers _ other_path (words_file file_path)
           (write_words (sorted (dict_keys unknown)))); try done.
  - unfold save_unknown_words. apply lookup_insert_eq.
  - unfold file_words. rewrite stripped_lines_write_words.
    + apply elem_of_list_to_set. by apply (proj2 (elem_of_sorted _ _)).
    + apply Forall_forall. intros x Hx. apply Hclean.
      by apply (proj1 (elem_of_sorted _ _)).
Qed.

Lemma saved_unknown_words_are_otherbook_words_witness :
  let unknown := [("planet", mkDetails "planeta" "The planet was icy");
                  ("mouse", mkDetails "" "A mouse ran")] in
  "mouse" ∈ load_otherbook_words
              (save_unknown_words ∅ "books/first book.csv" unknown)
              "second book.csv".
Proof.
  intros unknown.
  apply (saved_unknown_words_are_otherbook_words ∅ "books/first book.csv"
           "second book.csv" unknown).
  - vm_compute. intros H. discriminate H.
  - intros w Hw. unfold unknown, dict_keys in Hw. cbn in Hw.
    apply elem_of_cons in Hw as [->|Hw]; [by split|].
    apply elem_of_cons in Hw as [->|Hw]; [by split|].
    by apply elem_of_nil in Hw.
  - unfold unknown, dict_keys. cbn. apply elem_of_cons. right.
    apply elem_of_cons. by left.
Defined.

(** ** The exporter on the file of the store *)

(** [create_anki.py] opens the CSV file without [newline=""]: the reader
gets the text with its line breaks translated, also those inside quoted
fields. *)
Lemma universal_newlines_go_plain (b : bool) (c : ascii) (s : string) :
  is_newline c = false →
  universal_newlines_go b (String c s)
  = String c (universal_newlines_go false s).
Proof.
  unfold is_newline. intros [Hlf Hcr]%orb_false_iff.
  cbn [universal_newlines_go]. by rewrite Hcr, Hlf.
Qed.

Lemma universal_newlines_go_quoted_data (f : string) :
  ∀ (b : bool) (t : string),
    universal_newlines_go b (join_append_data f +:+ String DQUOTE t)
    = join_append_data (universal_newlines_go b f)
      +:+ String DQUOTE (universal_newlines_go false t).
Proof.
  induction f as [|c f IH]; intros b t.
  - cbn [join_append_data universal_newlines_go]. rewrite !str_app_nil.
    by apply universal_newlines_go_plain.
  - cbn [join_append_data]. destruct (is_quotechar c) eqn:Hq.
    + pose proof (is_quotechar_not_newline c Hq) as Hn.
      rewrite !str_app_cons.
      rewrite (universal_newlines_go_plain b DQUOTE) by done.
      rewrite (universal_newlines_go_plain false c) by done.
      rewrite (universal_newlines_go_plain b c f) by done.
      cbn [join_append_data]. rewrite Hq, !str_app_cons. by rewrite IH.
    + rewrite str_app_cons. cbn [universal_newlines_go].
      destruct (is_CR c) eqn:Hcr.
      { cbn [join_append_data]. change (is_quotechar LF) with false.
        cbv iota. rewrite str_app_cons. by rewrite IH. }
      destruct (is_LF c) eqn:Hlf.
      { destruct b; [by rewrite IH|].
        cbn [join_append_data]. change (is_quotechar LF) with false.
        cbv iota. rewrite str_app_cons. by rewrite IH. }
      cbn [join_append_data]. rewrite Hq, str_app_cons. by rewrite IH.
Qed.

Lemma universal_newlines_go_join_append (f t : string) (b : bool) :
  universal_newlines_go b (join_append f +:+ t)
  = join_append (universal_newlines f) +:+ universal_newlines_go false t.
Proof.
  unfold join_append, universal_newlines.
  rewrite !str_app_cons, !str_app_assoc, !str_app_cons, !str_app_nil.
  rewrite universal_newlines_go_plain by done.
  by rewrite universal_newlines_go_quoted_data.
Qed.

Lemma universal_newlines_go_join_fields (flds : list string) :
  ∀ (f : string) (b : bool) (t : string),
    universal_newlines_go b (join_fields (f :: flds) +:+ t)
    = join_fields (universal_newlines <$> f :: flds)
      +:+ universal_newlines_go false t.
Proof.
  induction flds as [|f' flds IH]; intros f b t.
  - cbn [join_fields fmap list_fmap]. apply universal_newlines_go_join_append.
  - change (join_fields (f :: f' :: flds))
      with (join_append f +:+ String COMMA (join_fields (f' :: flds))).
    change (join_fields (universal_newlines <$> f :: f' :: flds))
      with (join_append (universal_newlines f)
            +:+ String COMMA
                  (join_fields (universal_newlines <$> f' :: flds))).
    rewrite !str_app_assoc, !str_app_cons.
    rewrite universal_newlines_go_join_append.
    rewrite universal_newlines_go_plain by done.
    by rewrite IH.
Qed.

Lemma universal_newlines_go_writerow (flds : list string) (t : string) :
  universal_newlines_go false (writerow flds +:+ t)
  = (join_fields (universal_newlines <$> flds) +:+ NL)
    +:+ universal_newlines_go false t.
Proof.
  unfold writerow, lineterminator, NL. destruct flds as [|f flds].
  - cbn [join_fields fmap list_fmap]. rewrite !str_app_nil, !str_app_cons.
    by rewrite !str_app_nil.
  - rewrite !str_app_assoc. rewrite universal_newlines_go_join_fields.
    rewrite !str_app_cons, !str_app_nil. done.
Qed.

Lemma universal_newlines_written (written : list (list string)) :
  universal_newlines (str_concat (writerow <$> written))
  = str_concat
      ((λ flds, join_fields (universal_newlines <$> flds) +:+ NL)
         <$> written).
Proof.
  unfold universal_newlines. induction written as [|flds written IH]; [done|].
  cbn [fmap list_fmap str_concat].
  rewrite universal_newlines_go_writerow. by rewrite IH.
Qed.

Lemma universal_newlines_go_len (s : string) :
  ∀ b, len (universal_newlines_go b s) <= len s.
Proof.
  unfold len. induction s as [|c s IH]; intros b; [done|].
  cbn [universal_newlines_go].
  pose proof (IH true). pose proof (IH false).
  destruct (is_CR c); [cbn [String.length]; lia|].
  destruct (is_LF c); [destruct b|]; cbn [String.length]; lia.
Qed.

(** The same records ended by ["\n"] alone are read back as well. *)
Lemma reader_end_of_record_LF (f : string) (flds : list string)
    (rows : list (list string)) (more : string) :
  reader_loop (mkReader IN_QUOTED_FIELD f flds) rows
    (lines_keepends (String DQUOTE (String LF more)))
  = reader_loop parse_reset (rows ++ [flds ++ [f]]) (lines_keepends more).
Proof.
  reader_step.
  cbn [lines_keepends]. change (line_ends LF more) with true. cbv iota.
  reflexivity.
Qed.

Lemma reader_fields_LF (flds' : list string) :
  ∀ (f : string) (flds : list string) (st : ParserState)
    (rows : list (list string)) (more : string),
  st = START_RECORD ∨ st = START_FIELD →
  Forall within_limit (f :: flds') →
  reader_loop (mkReader st "" flds) rows
    (lines_keepends ((join_fields (f :: flds') +:+ NL) +:+ more))
  = reader_loop parse_reset (rows ++ [flds ++ f :: flds'])
      (lines_keepends more).
Proof.
  induction flds' as [|f' flds' IH]; intros f flds st rows more Hst Hlim;
    apply Forall_cons in Hlim as [Hf Hlim].
  - cbn [join_fields]. unfold join_append, NL.
    rewrite !str_app_cons, !str_app_assoc, !str_app_cons, !str_app_nil.
    rewrite reader_step_plain;
      [|by apply line_ends_not_newline|by apply str_app_not_nil].
    rewrite (start_field_quote _ _ Hst). reader_simpl.
    rewrite reader_quoted_data by done. rewrite str_app_nil.
    apply reader_end_of_record_LF.
  - change (join_fields (f :: f' :: flds'))
      with (join_append f +:+ String COMMA (join_fields (f' :: flds'))).
    unfold join_append at 1.
    rewrite (str_app_assoc _ NL more).
    set (tail := NL +:+ more).
    rewrite !str_app_cons, !str_app_assoc, !str_app_cons, !str_app_nil.
    rewrite reader_step_plain;
      [|by apply line_ends_not_newline|by apply str_app_not_nil].
    rewrite (start_field_quote _ _ Hst). reader_simpl.
    rewrite reader_quoted_data by done. rewrite str_app_nil.
    reader_step. reader_step.
    unfold tail. rewrite <- str_app_assoc.
    rewrite (IH f' (flds ++ [f]) START_FIELD) by auto.
    by rewrite <- app_assoc.
Qed.

Lemma reader_empty_record_LF (rows : list (list string)) (more : string) :
  reader_loop parse_reset rows (lines_keepends (("" +:+ NL) +:+ more))
  = reader_loop parse_reset (rows ++ [[]]) (lines_keepends more).
Proof.
  unfold NL. rewrite str_app_nil, str_app_cons, str_app_nil.
  cbn [lines_keepends]. change (line_ends LF more) with true. cbv iota.
  reflexivity.
Qed.

Lemma reader_written_rows_LF (written : list (list string))
    (rows : list (list string)) :
  Forall (Forall within_limit) written →
  reader_loop parse_reset rows
    (lines_keepends
       (str_concat ((λ flds, join_fields flds +:+ NL) <$> written)))
  = Return (rows ++ written).
Proof.
  intros H. revert rows.
  induction H as [|row written Hrow _ IH]; intros rows.
  - cbn. by rewrite app_nil_r.
  - cbn [fmap list_fmap str_concat]. destruct row as [|f flds'].
    + cbn [join_fields]. rewrite reader_empty_record_LF, IH.
      by rewrite <- app_assoc.
    + unfold parse_reset at 1. rewrite reader_fields_LF by auto.
      rewrite IH. by rewrite <- app_assoc.
Qed.

(** What the exporter's reader makes of a file written with [QUOTE_ALL]. *)
Lemma csv_reader_text_lines_written (written : list (list string)) :
  Forall (Forall within_limit) written →
  csv_reader (text_lines (str_concat (writerow <$> written)))
  = Return ((λ flds : list string, universal_newlines <$> flds) <$> written).
Proof.
  intros H. unfold csv_reader, text_lines.
  rewrite universal_newlines_written.
  assert ((λ flds, join_fields (universal_newlines <$> flds) +:+ NL)
            <$> written
          = (λ flds, join_fields flds +:+ NL)
              <$> ((λ flds : list string, universal_newlines <$> flds)
                     <$> written)) as ->
    by by rewrite <- list_fmap_compose.
  rewrite reader_written_rows_LF; [done|].
  apply Forall_fmap. eapply Forall_impl; [exact H|]. intros flds Hflds.
  apply Forall_fmap. eapply Forall_impl; [exact Hflds|]. intros f Hf.
  unfold within_limit in *. cbn.
  pose proof (universal_newlines_go_len f false). unfold universal_newlines.
  lia.
Qed.

(** X22: the exporter on the CSV file that [save_unknown_words] wrote for
a store in which no word, translation or sentence is longer than the
field size limit of the csv reader, 131072 characters: one note for each
entry of the store, in the order of the store, with the word, the
translation and the sentence as fields.  The file is opened without
[newline=""], unlike in [pdf2words.py], so a field arrives with every
["\r\n"] and every lone ["\r"] inside it turned into ["\n"]; a field
without ["\r"] arrives as it was saved.  (A longer field makes the
exporter raise [csv.Error].) *)
Theorem exporter_reads_saved_store (fs : file_system) (csv_file : string)
    (unknown : list (string * details)) :
  fs !! csv_file = Some (write_csv unknown) →
  Forall entry_within_limit unknown →
  ∃ p, create_anki_deck_from_csv fs csv_file = Return p
       ∧ notes (package_deck p)
         = (λ entry, mkNote (model_id (package_model p))
                       (universal_newlines <$> csv_row entry)) <$> unknown
       ∧ ∀ entry,
           entry ∈ unknown →
           Forall (λ f, str_forallb (λ c, negb (is_CR c)) f = true)
             (csv_row entry) →
           mkNote (model_id (package_model p)) (csv_row entry)
           ∈ notes (package_deck p).
Proof.
  intros Hfile Hlimit.
  destruct (create_anki_deck_from_csv_outcome fs csv_file)
    as (n1 & n2 & _ & _ & _ & _ & H).
  rewrite Hfile in H. unfold write_csv in H.
  rewrite list_fmap_compose in H.
  rewrite csv_reader_text_lines_written in H
    by (apply Forall_fmap; exact Hlimit).
  eexists. split; [exact H|]. cbn [package_deck package_model model_id].
  rewrite fold_add_row_notes. cbn [notes app model_id].
  assert ((λ row : list string, mkNote n2 (take 3 row))
            <$> filter (λ row, (3 ≤ length row)%nat)
                  ((λ flds : list string, universal_newlines <$> flds)
                     <$> (csv_row <$> unknown))
          = (λ entry, mkNote n2 (universal_newlines <$> csv_row entry))
              <$> unknown) as ->.
  { clear. induction unknown as [|e l IH]; [done|].
    cbn [fmap list_fmap]. rewrite filter_cons_True by (cbn; lia).
    cbn [fmap list_fmap]. f_equal. exact IH. }
  split; [done|].
  intros entry He Hcr. apply list_elem_of_fmap. exists entry. split; [|done].
  f_equal. symmetry. unfold csv_row in *.
  apply Forall_cons in Hcr as [H1 Hcr].
  apply Forall_cons in Hcr as [H2 Hcr].
  apply Forall_cons in Hcr as [H3 _].
  cbn [fmap list_fmap]. by rewrite !universal_newlines_no_CR.
Qed.

Lemma exporter_reads_saved_store_witness :
  let unknown := [("planet", mkDetails "planeta" "The planet, so icy");
                  ("mouse", mkDetails "" "A mouse said: run")] in
  let fs := save_unknown_words ∅ "book.csv" unknown in
  ∃ p, create_anki_deck_from_csv fs "book.csv" = Return p
       ∧ notes (package_deck p)
         = (λ entry, mkNote (model_id (package_model p))
                       (universal_newlines <$> csv_row entry)) <$> unknown.
Proof.
  intros unknown fs.
  assert (fs !! "book.csv" = Some (write_csv unknown)) as Hfile
    by (vm_compute; reflexivity).
  assert (∀ s, String.length s < 100 → within_limit s)%nat as Hshort.
  { intros s Hs. unfold within_limit, len, field_limit. lia. }
  assert (Forall entry_within_limit unknown) as Hlimit.
  { unfold unknown, entry_within_limit, csv_row.
    apply Forall_cons. split.
    - cbn [fst snd translation sentence].
      apply Forall_cons; split; [apply Hshort; cbn; lia|].
      apply Forall_cons; split; [apply Hshort; cbn; lia|].
      apply Forall_cons; split; [apply Hshort; cbn; lia|apply Forall_nil_2].
    - apply Forall_cons. split; [|apply Forall_nil_2].
      cbn [fst snd translation sentence].
      apply Forall_cons; split; [apply Hshort; cbn; lia|].
      apply Forall_cons; split; [apply Hshort; cbn; lia|].
      apply Forall_cons; split; [apply Hshort; cbn; lia|apply Forall_nil_2]. }
  destruct (exporter_reads_saved_store fs "book.csv" unknown Hfile Hlimit)
    as (p & Hp & Hnotes & _).
  exists p. split; [exact Hp|exact Hnotes].
Defined.

(** ** The cleaned sentence *)

Lemma replace_newlines_nonspace (c : ascii) :
  isspace c = false →
  (if Ascii.eqb c LF then SPACE else c) = c
  ∧ Ascii.eqb c CR = false.
Proof.
  intros Hc. split.
  - destruct (Ascii.eqb_spec c LF) as [->|]; [done|done].
  - destruct (Ascii.eqb_spec c CR) as [->|]; [done|done].
Qed.

(** After [re.sub(r'\s+', ' ', s)] no ["\n"] and no ["\r"] is left to
replace. *)
Lemma replace_after_re_sub_spaces (s : string) :
  ∀ in_run,
    replace_char CR SPACE (replace_char LF SPACE (re_sub_spaces_go in_run s))
    = re_sub_spaces_go in_run s.
Proof.
  unfold replace_char.
  induction s as [|c s IH]; intros in_run; [done|].
  cbn [re_sub_spaces_go]. destruct (isspace c) eqn:Hc.
  - destruct in_run; [apply IH|]. cbn [str_map].
    change (Ascii.eqb SPACE LF) with false. cbv iota.
    change (Ascii.eqb SPACE CR) with false. cbv iota.
    by rewrite IH.
  - cbn [str_map]. destruct (replace_newlines_nonspace c Hc) as [-> ->].
    by rewrite IH.
Qed.

Lemma lstrip_re_sub_spaces_in_run (s : string) :
  lstrip (re_sub_spaces_go true s) = re_sub_spaces_go true s.
Proof.
  induction s as [|c s IH]; [done|].
  cbn [re_sub_spaces_go]. destruct (isspace c) eqn:Hc; [exact IH|].
  cbn [lstrip]. by rewrite Hc.
Qed.

Lemma str_split_head (s w : string) (ws : list string) :
  str_split s = w :: ws → str_is_empty w = false.
Proof.
  revert w ws. induction s as [|c s IH]; intros w ws; cbn [str_split]; [done|].
  destruct (isspace c); [apply IH|].
  destruct s as [|c' s']; [by intros [= <- _]|].
  destruct (isspace c'); [by intros [= <- _]|].
  destruct (str_split (String c' s')); by intros [= <- _].
Qed.

Lemma str_split_nonempty (s token : string) :
  token ∈ str_split s → str_is_empty token = false.
Proof.
  revert token. induction s as [|c s IH]; intros token; cbn [str_split].
  - intros H. by apply elem_of_nil in H.
  - destruct (isspace c) eqn:Hc; [apply IH|].
    destruct s as [|c' s'].
    + by intros ->%list_elem_of_singleton.
    + destruct (isspace c') eqn:Hc'.
      * intros [->|H]%elem_of_cons; [done|by apply IH].
      * destruct (str_split (String c' s')) as [|w ws].
        -- by intros ->%list_elem_of_singleton.
        -- intros [->|H]%elem_of_cons; [done|]. apply IH. by right.
Qed.

Lemma join_spaces_cons_char (c : ascii) (w : string) (ws : list string) :
  join_spaces (String c w :: ws) = String c (join_spaces (w :: ws)).
Proof. by destruct ws. Qed.

Lemma join_spaces_is_empty (w : string) (ws : list string) :
  str_is_empty w = false → str_is_empty (join_spaces (w :: ws)) = false.
Proof. destruct w as [|c w]; [done|]. intros _. by destruct ws. Qed.

(** What is left of the collapsed text once the spaces at its end are
removed, in a run of spaces and outside one. *)
Lemma rstrip_re_sub_spaces (s : string) :
  rstrip (re_sub_spaces_go true s) = join_spaces (str_split s)
  ∧ rstrip (re_sub_spaces_go false s)
    = match s with
      | EmptyString => EmptyString
      | String c _ =>
          if isspace c then
            match str_split s with
            | [] => EmptyString
            | ws => String SPACE (join_spaces ws)
            end
          else join_spaces (str_split s)
      end.
Proof.
  induction s as [|c s [IH1 IH2]]; [done|].
  cbn [re_sub_spaces_go str_split]. destruct (isspace c) eqn:Hc.
  - split; [exact IH1|].
    cbn [rstrip]. rewrite IH1. change (isspace SPACE) with true.
    destruct (str_split s) as [|w ws] eqn:Hs; [done|].
    by rewrite (join_spaces_is_empty w ws (str_split_head _ _ _ Hs)).
  - rewrite (rstrip_cons_nonspace c _ Hc), IH2.
    split.
    all: destruct s as [|c' s']; [done|].
    all: destruct (isspace c') eqn:Hc'.
    all: destruct (str_split (String c' s')) as [|w ws]; [done|].
    all: try (by rewrite join_spaces_cons_char).
    all: cbn [join_spaces]; by rewrite str_app_cons, str_app_nil.
Qed.

Lemma str_split_word (w : string) :
  str_is_empty w = false → no_space w = true → str_split w = [w].
Proof.
  induction w as [|c w IH]; [done|]. intros _.
  unfold no_space. cbn [str_forallb]. intros [Hc Hw]%andb_true_iff.
  apply negb_true_iff in Hc. cbn [str_split]. rewrite Hc.
  destruct w as [|c' w']; [done|].
  cbn [str_forallb] in Hw. pose proof Hw as Hw'.
  apply andb_true_iff in Hw' as [Hc' _]. apply negb_true_iff in Hc'.
  rewrite Hc'. by rewrite IH.
Qed.

Lemma str_split_word_space (w rest : string) :
  str_is_empty w = false → no_space w = true →
  str_split (w +:+ String SPACE rest) = w :: str_split rest.
Proof.
  induction w as [|c w IH]; [done|]. intros _.
  unfold no_space. cbn [str_forallb]. intros [Hc Hw]%andb_true_iff.
  apply negb_true_iff in Hc. rewrite str_app_cons.
  cbn [str_split]. rewrite Hc.
  destruct w as [|c' w'].
  - rewrite str_app_nil. change (isspace SPACE) with true. cbv iota.
    cbn [str_split]. change (isspace SPACE) with true. done.
  - rewrite str_app_cons.
    cbn [str_forallb] in Hw. pose proof Hw as Hw'.
    apply andb_true_iff in Hw' as [Hc' _]. apply negb_true_iff in Hc'.
    rewrite Hc'. rewrite <- str_app_cons. by rewrite IH.
Qed.

Lemma str_split_join_spaces (ws : list string) :
  Forall (λ w, str_is_empty w = false ∧ no_space w = true) ws →
  str_split (join_spaces ws) = ws.
Proof.
  induction 1 as [|w ws [Hw1 Hw2] Hws IH]; [done|].
  destruct ws as [|w' ws']; [by apply str_split_word|].
  change (join_spaces (w :: w' :: ws'))
    with (w +:+ String SPACE (join_spaces (w' :: ws'))).
  rewrite str_split_word_space by done. by rewrite IH.
Qed.

(** X23: [clean_sentence] returns the words of the sentence, as
[str.split] finds them, joined by single spaces: no white space at either
end, none but single spaces inside, and no character other than white
space is changed or lost.  So the words of the cleaned sentence, which
[extract_unique_words] goes through, are the words of the sentence. *)
Theorem clean_sentence_joins_words (sentence : string) :
  clean_sentence sentence = join_spaces (str_split sentence)
  ∧ str_split (clean_sentence sentence) = str_split sentence.
Proof.
  assert (clean_sentence sentence = join_spaces (str_split sentence)) as H.
  { unfold clean_sentence, re_sub_spaces, strip.
    rewrite replace_after_re_sub_spaces.
    destruct sentence as [|c s]; [done|].
    destruct (rstrip_re_sub_spaces (String c s)) as [_ H2].
    destruct (rstrip_re_sub_spaces s) as [H1 _].
    cbn [re_sub_spaces_go] in *. cbn [str_split].
    destruct (isspace c) eqn:Hc.
    - cbn [lstrip]. change (isspace SPACE) with true. cbv iota.
      by rewrite lstrip_re_sub_spaces_in_run.
    - cbn [lstrip]. rewrite Hc. rewrite H2. cbn [str_split]. by rewrite Hc. }
  split; [exact H|]. rewrite H.
  apply str_split_join_spaces, Forall_forall. intros w Hw. split.
  - by apply (str_split_nonempty sentence).
  - by apply (str_split_no_space sentence).
Qed.

(** ** The program as a whole *)

Lemma extract_text_other_files {image : Type}
    (convert_from_path : string → list image) (ocr_page : image → string)
    (ranges : list py_range) (fs : file_system) (pdf_file path : string) :
  path ≠ cache_file_of pdf_file →
  (extract_text convert_from_path ocr_page ranges fs pdf_file).1.1 !! path
  = fs !! path.
Proof.
  intros Hpath. unfold extract_text.
  destruct (text_truthy _); [done|].
  destruct (extract_text_with_pytesseract _ _ _) as [pages text]. cbn.
  unfold save_text_to_cache. by rewrite lookup_insert_ne.
Qed.

Lemma load_unknown_words_lookup (fs1 fs2 : file_system) (file_path : string) :
  fs1 !! file_path = fs2 !! file_path →
  load_unknown_words fs1 file_path = load_unknown_words fs2 file_path.
Proof. unfold load_unknown_words. by intros ->. Qed.

Lemma cache_file_is_no_store_file :
  KNOWN_WORDS_FILE ≠ cache_file_of PDF_FILE
  ∧ UNKNOWN_WORDS_FILE ≠ cache_file_of PDF_FILE
  ∧ words_file UNKNOWN_WORDS_FILE ≠ cache_file_of PDF_FILE.
Proof. repeat split; intros H; vm_compute in H; discriminate H. Qed.

(** A CSV file whose only field, in quotes, is longer than the field size
    limit is rejected. *)
Lemma load_unknown_words_rejects_long_field (fs : file_system)
    (file_path : string) (n : nat) :
  field_limit < N.of_nat n →
  fs !! file_path
  = Some (String DQUOTE (str_repeat "a" n +:+ String DQUOTE "")) →
  load_unknown_words fs file_path = Raise CsvError.
Proof.
  intros Hn Hfile. unfold load_unknown_words. rewrite Hfile.
  unfold raw_lines, csv_reader, parse_reset.
  rewrite reader_step_plain;
    [|by apply line_ends_not_newline|by apply str_app_not_nil].
  rewrite start_field_quote by auto. reader_simpl.
  rewrite reader_long_field; [done|done|done|].
  change (len "") with 0. lia.
Qed.

Section MainFacts.
Context {image : Type}.
Variable convert_from_path : string → list image.
Variable ocr_page : image → string.
Variable english_words : gset string.
Variable translate : string → option string.

(** X24: a CSV file that the csv reader rejects stops [main] before any
word is shown.  [load_unknown_words] stands before the [try] block of
[classify_words], so its [csv.Error] leaves [classify_words] and [main],
whatever the keys are; neither the known-words file nor the CSV file nor
the sidecar file is written: no file differs from before but the text
cache, which is as [extract_text] left it. *)
Theorem main_stops_on_rejected_csv (fs : file_system)
(keys : list key_event) :
load_unknown_words fs UNKNOWN_WORDS_FILE = Raise CsvError →
∃ fs',
 main convert_from_path ocr_page english_words translate fs keys
 = Failed fs' CsvError
 ∧ fs'
 = (extract_text convert_from_path ocr_page PAGES_RANGES fs PDF_FILE).1.1
 ∧ ∀ path, path ≠ cache_file_of PDF_FILE → fs' !! path = fs !! path.
Proof.
intros Hload. unfold main.
pose proof (extract_text_other_files convert_from_path ocr_page PAGES_RANGES
 fs PDF_FILE) as Hother.
destruct (extract_text convert_from_path ocr_page PAGES_RANGES fs PDF_FILE)
as [[fs1 text] source]. cbn [fst] in *.
destruct (sentences_loop_good english_words text (re_split_terminators text) [])
as (d & Hd & _); [done| |].
{ split; [apply NoDup_nil_2|]. intros e H. by apply elem_of_nil in H. }
unfold extract_unique_words. rewrite Hd.
destruct cache_file_is_no_store_file as (_ & Hu & _).
rewrite <- (load_unknown_words_lookup fs1 fs) in Hload by by apply Hother.
unfold classify_words. rewrite Hload.
exists fs1. by repeat split.
Qed.

(** X25: a run of [main] that finishes loses nothing that was recorded.
The entries returned and written to the CSV file are the entries loaded
at the start, in their order, followed by the entries added in this run;
each of them keeps its word and sentence, and its translation unless that
was empty.  An added entry is a word of the text with its sentence.  The
sidecar file lists the keys of the CSV file, and the known-words file the
known words of the session, which include those loaded. *)
Theorem main_keeps_recorded_entries (fs fs' : file_system)
(keys : list key_event) (unknown0 unknown : list (string * details))
(st : session) (how : loop_end) (evs : list translate_event) :
load_unknown_words fs UNKNOWN_WORDS_FILE = Return unknown0 →
main convert_from_path ocr_page english_words translate fs keys
= Finished fs' st how unknown evs →
let text :=
 (extract_text convert_from_path ocr_page PAGES_RANGES fs PDF_FILE).1.2 in
∃ added,
 unknown_words st = unknown0 ++ added
 ∧ Forall2 (translated_from translate) (unknown0 ++ added) unknown
 ∧ Forall (λ e, translation e.2 = ""
 ∧ entry_of_text english_words text (e.1, sentence e.2))
 added
 ∧ fs' !! UNKNOWN_WORDS_FILE = Some (write_csv unknown)
 ∧ fs' !! words_file UNKNOWN_WORDS_FILE
 = Some (write_words (sorted (dict_keys unknown)))
 ∧ fs' !! KNOWN_WORDS_FILE
 = Some (write_words (sorted (elements (known_words st))))
 ∧ load_known_words fs KNOWN_WORDS_FILE ⊆ known_words st.
Proof.
intros Hload. unfold main.
pose proof (extract_text_other_files convert_from_path ocr_page PAGES_RANGES
 fs PDF_FILE) as Hother.
destruct (extract_text convert_from_path ocr_page PAGES_RANGES fs PDF_FILE)
as [[fs1 text] source]. cbn [fst snd] in *.
destruct (sentences_loop_good english_words text (re_split_terminators text) [])
as (d & Hd & _ & Hentries); [done| |].
{ split; [apply NoDup_nil_2|]. intros e H. by apply elem_of_nil in H. }
unfold extract_unique_words. rewrite Hd.
destruct cache_file_is_no_store_file as (Hk & Hu & _).
rewrite <- (load_unknown_words_lookup fs1 fs) in Hload by by apply Hother.
destruct (classify_words_run fs1 d keys unknown0 Hload)
as (st' & how' & ds & shown & tail & Hrun & _ & Hkn & Hun & _ & _ & Hnew & _).
destruct (classify_words fs1 d keys) as [fs2 unknown2 st2 how2|e|st2] eqn:Hc;
[|done..].
assert (fs2 = save_unknown_words
 (save_known_words fs1 KNOWN_WORDS_FILE (known_words st2))
 UNKNOWN_WORDS_FILE (unknown_words st2)
 ∧ unknown2 = unknown_words st2 ∧ st' = st2) as (-> & -> & ->)
by (destruct how'; by simplify_eq).
clear Hrun Hc.
unfold translate_words.
pose proof (translate_loop_spec translate (unknown_words st2)) as Ht.
destruct (translate_loop translate (unknown_words st2)) as [unknown' evs'].
destruct Ht as (_ & _ & _ & Ht).
intros [= <- <- <- <- <-].
exists (unknown_of ds). split; [done|]. rewrite <- Hun. split; [done|].
destruct store_files_distinct as (H1 & H2 & H3).
split; [|repeat split].
- apply Forall_forall. intros e He.
apply Hnew, list_elem_of_fmap in He as ([w s] & -> & He). cbn.
split; [done|]. apply Hentries.
by apply (build_newlist_entries _ _ _ _ _ He).
- unfold save_unknown_words at 1. rewrite lookup_insert_ne by done.
apply lookup_insert_eq.
- unfold save_unknown_words at 1. apply lookup_insert_eq.
- unfold save_unknown_words at 1.
rewrite lookup_insert_ne by done. rewrite lookup_insert_ne by done.
by destruct (saved_files fs1 (known_words st2) (unknown_words st2))
 as [-> _].
- rewrite Hkn.
rewrite (load_known_words_lookup fs fs1) by (symmetry; by apply Hother).
set_solver.
Qed.
End MainFacts.

Lemma main_stops_on_rejected_csv_witness :
  let fs : file_system :=
    {[ UNKNOWN_WORDS_FILE
       := String DQUOTE
            (str_repeat "a" (N.to_nat 131073) +:+ String DQUOTE "");
       KNOWN_WORDS_FILE := "mouse" +:+ NL ]} in
  ∃ fs',
    main (λ _ : string, @nil unit) (λ _ : unit, "") ∅ (λ _ : string, None)
      fs [Key KEY_LEFT]
    = Failed fs' CsvError
    ∧ fs' !! KNOWN_WORDS_FILE = fs !! KNOWN_WORDS_FILE
    ∧ fs' !! UNKNOWN_WORDS_FILE = fs !! UNKNOWN_WORDS_FILE.
Proof.
  intros fs.
  assert (KNOWN_WORDS_FILE ≠ UNKNOWN_WORDS_FILE) as Hne
    by (intros H; vm_compute in H; discriminate H).
  assert (load_unknown_words fs UNKNOWN_WORDS_FILE = Raise CsvError) as Hload.
  { subst fs. set (n := N.to_nat 131073).
    assert (field_limit < N.of_nat n) as Hn
      by (subst n; rewrite N2Nat.id; reflexivity).
    clearbody n.
    apply (load_unknown_words_rejects_long_field _ _ n Hn).
    apply lookup_insert_eq. }
  destruct (main_stops_on_rejected_csv (λ _ : string, @nil unit)
              (λ _ : unit, "") ∅ (λ _ : string, None) fs [Key KEY_LEFT] Hload)
    as (fs' & Hmain & _ & Hother).
  destruct cache_file_is_no_store_file as (Hk & Hu & _).
  exists fs'. split; [exact Hmain|]. split; by apply Hother.
Defined.

Lemma main_keeps_recorded_entries_witness :
  let convert_from_path := λ _ : string, @nil unit in
  let ocr_page := λ _ : unit, "" in
  let english_words : gset string := {["planet"]} in
  let translate := λ w : string, Some ("ru " +:+ w) in
  let unknown0 := [("mouse", mkDetails "" "A mouse ran")] in
  let fs : file_system :=
    {[ cache_file_of PDF_FILE := "The planet was icy. It was cold.";
       UNKNOWN_WORDS_FILE := write_csv unknown0 ]} in
  let keys := [Key KEY_RIGHT] in
  ∃ fs' st how unknown evs,
    main convert_from_path ocr_page english_words translate fs keys
    = Finished fs' st how unknown evs
    ∧ ∃ added,
        unknown_words st = unknown0 ++ added
        ∧ Forall2 (translated_from translate) (unknown0 ++ added) unknown
        ∧ fs' !! UNKNOWN_WORDS_FILE = Some (write_csv unknown).
Proof.
  intros convert_from_path ocr_page english_words translate unknown0 fs keys.
  assert (load_unknown_words fs UNKNOWN_WORDS_FILE = Return unknown0) as Hload
    by (vm_compute; reflexivity).
  destruct (main convert_from_path ocr_page english_words translate fs keys)
    as [fs' st how unknown evs|fs' e|fs' st] eqn:Hmain.
  2, 3: vm_compute in Hmain; discriminate Hmain.
  exists fs', st, how, unknown, evs. split; [reflexivity|].
  destruct (main_keeps_recorded_entries convert_from_path ocr_page
              english_words translate fs fs' keys unknown0 unknown st how evs
              Hload Hmain)
    as (added & H1 & H2 & _ & H4 & _).
  exists added. split; [exact H1|]. split; [exact H2|exact H4].
Defined.

(** ** The exporter on a small file *)













